(** * Village / mandal reconciliation of the project form

    A shallow embedding of the location logic of
    [client/pages/projects/ProjectForm.tsx]: the CSV parser [parseCSV],
    the construction of the village-to-mandal [mapping] from the bundled
    rows and the optional remote table, the derived option lists
    ([_mandals], [filteredMandals], [villagesSource], [_villages],
    [filteredVillages]) and the event handlers of the two dependent
    selection widgets.

    Scope of the model.  A JavaScript string is a sequence of UTF-16 code
    units.  The model covers the strings whose code units are below 256
    (the Latin-1 range, which contains ASCII): a string is a [list ascii].
    On that range [String.prototype.trim], [toLowerCase], the regular
    expression class [\s] and the case folding of the [i] flag are the
    finite tables written out below.  [localeCompare] depends on the
    collation tables of the host; it is a parameter of the definitions
    that sort.  The village candidates are embedded a second time over
    16-bit code units (module [Utf16]), where lower-casing can lengthen a
    string; the two embeddings agree on the strings of the first. *)

From Stdlib Require Import String.
From Stdlib Require Import Ascii Bool ZArith Lia.
From Stdlib Require Import List Sorted Permutation.
From Stdlib Require OrdersEx DecimalString.
Import ListNotations.

(** ** JavaScript strings *)

Module JsString.

Definition str := list ascii.

(** A string literal of the source. *)
Definition lit (s : string) : str := list_ascii_of_string s.

Definition code (c : ascii) : N := N_of_ascii c.

Definition str_eqb (a b : str) : bool :=
  if list_eq_dec ascii_dec a b then true else false.

(** [WhiteSpace] and [LineTerminator] code points below 256: TAB, LF, VT,
    FF, CR, SP and NBSP.  [trim] strips them and [\s] matches them. *)
Definition isWhiteSpace (c : ascii) : bool :=
  let n := code c in
  ((9 <=? n) && (n <=? 13) || (n =? 32) || (n =? 160))%N.

Fixpoint trimStart (s : str) : str :=
  match s with
  | [] => []
  | c :: s' => if isWhiteSpace c then trimStart s' else s
  end.

Definition trimEnd (s : str) : str := rev (trimStart (rev s)).

(** [s.trim()] *)
Definition trim (s : str) : str := trimEnd (trimStart s).

(** Lower-case mapping of one code unit: [A-Z] and the Latin-1 capitals
    U+00C0..U+00DE (without the multiplication sign U+00D7) move up by
    32; every other code unit below 256 is unchanged. *)
Definition lowerChar (c : ascii) : ascii :=
  let n := code c in
  if ((65 <=? n) && (n <=? 90) || (192 <=? n) && (n <=? 222) && negb (n =? 215))%N
  then ascii_of_N (n + 32) else c.

(** [s.toLowerCase()] *)
Definition toLowerCase (s : str) : str := map lowerChar s.

Fixpoint lastIndexOf_from (c : ascii) (s : str) (i found : Z) : Z :=
  match s with
  | [] => found
  | x :: s' => lastIndexOf_from c s' (i + 1)%Z (if Ascii.eqb x c then i else found)
  end.

(** [s.lastIndexOf(c)] for a one-character search string: the greatest
    index holding [c], or [-1]. *)
Definition lastIndexOf (s : str) (c : ascii) : Z :=
  lastIndexOf_from c s 0%Z (-1)%Z.

(** Relative index of [slice]: negative indexes count from the end and
    everything is clamped to [0 .. len]. *)
Definition relIndex (len k : Z) : Z :=
  if (k <? 0)%Z then Z.max (len + k) 0 else Z.min k len.

(** [s.slice(start, end)]; [None] is an omitted [end]. *)
Definition slice (s : str) (start : Z) (end_ : option Z) : str :=
  let len := Z.of_nat (length s) in
  let from := relIndex len start in
  let to := match end_ with None => len | Some e => relIndex len e end in
  firstn (Z.to_nat (Z.max (to - from) 0)) (skipn (Z.to_nat from) s).

Fixpoint startsWith (s q : str) : bool :=
  match q, s with
  | [], _ => true
  | _ :: _, [] => false
  | y :: q', x :: s' => Ascii.eqb x y && startsWith s' q'
  end.

(** [s.includes(q)] *)
Fixpoint includes (s q : str) : bool :=
  startsWith s q ||
  match s with
  | [] => false
  | _ :: s' => includes s' q
  end.

Definition CR : ascii := ascii_of_N 13.
Definition LF : ascii := ascii_of_N 10.

(** [s.split(/\r?\n/)]: a separator is LF, or CR immediately followed by
    LF; a CR that is not followed by LF stays in its line.  [cur] is the
    line being read, in reverse. *)
Fixpoint split_from (cur : str) (s : str) : list str :=
  match s with
  | [] => [rev cur]
  | c :: s' =>
      if Ascii.eqb c LF then rev cur :: split_from [] s'
      else if Ascii.eqb c CR then
        match s' with
        | d :: s'' =>
            if Ascii.eqb d LF then rev cur :: split_from [] s''
            else split_from (c :: cur) s'
        | [] => split_from (c :: cur) s'
        end
      else split_from (c :: cur) s'
  end.

Definition split_lines (s : str) : list str := split_from [] s.

(** Strings of white space only, and strings free of white space. *)
Definition all_ws (s : str) : Prop := forallb isWhiteSpace s = true.
Definition no_ws (s : str) : Prop :=
  forallb (fun c => negb (isWhiteSpace c)) s = true.

(** JavaScript truthiness of a string: the empty string is falsy. *)
Definition truthy (s : str) : bool :=
  match s with [] => false | _ :: _ => true end.

End JsString.
Import JsString.

(** ** Regular expressions

    The header test of [parseCSV] is a regular expression.  Expressions
    are matched with Brzozowski derivatives; an expression anchored with
    [^] and [$] (and without the [m] flag) is tested by matching the whole
    string. *)

Module Regex.

Inductive regex : Type :=
| Void
| Eps
| Class (p : ascii -> bool)
| Seq (r1 r2 : regex)
| Alt (r1 r2 : regex)
| Star (r : regex).

Fixpoint nullable (r : regex) : bool :=
  match r with
  | Void => false
  | Eps => true
  | Class _ => false
  | Seq r1 r2 => nullable r1 && nullable r2
  | Alt r1 r2 => nullable r1 || nullable r2
  | Star _ => true
  end.

Fixpoint deriv (c : ascii) (r : regex) : regex :=
  match r with
  | Void => Void
  | Eps => Void
  | Class p => if p c then Eps else Void
  | Seq r1 r2 =>
      if nullable r1 then Alt (Seq (deriv c r1) r2) (deriv c r2)
      else Seq (deriv c r1) r2
  | Alt r1 r2 => Alt (deriv c r1) (deriv c r2)
  | Star r1 => Seq (deriv c r1) (Star r1)
  end.

Fixpoint matches (r : regex) (s : str) : bool :=
  match s with
  | [] => nullable r
  | c :: s' => matches (deriv c r) s'
  end.

(** [Canonicalize] of the [i] flag (without [u]): the code unit of the
    upper-case form when that form is a single code unit and does not
    move a non-ASCII character into ASCII.  Below 256: [a-z] and
    U+00E0..U+00FE (without the division sign U+00F7) move down by 32,
    U+00B5 goes to U+039C, U+00FF goes to U+0178, and U+00DF (whose
    upper-case form has two code units) stays. *)
Definition canonicalize (c : ascii) : N :=
  let n := code c in
  if ((97 <=? n) && (n <=? 122) || (224 <=? n) && (n <=? 254) && negb (n =? 247))%N
  then (n - 32)%N
  else if (n =? 181)%N then 924%N
  else if (n =? 255)%N then 376%N
  else n.

(** A pattern character under the [i] flag. *)
Definition ci_char (c : ascii) : regex :=
  Class (fun x => (canonicalize x =? canonicalize c)%N).

Fixpoint ci_string (p : str) : regex :=
  match p with
  | [] => Eps
  | c :: p' => Seq (ci_char c) (ci_string p')
  end.

(** [\s*] *)
Definition ws_star : regex := Star (Class isWhiteSpace).

(** [/^Village\s*,\s*Mandal$/i] *)
Definition headerRe : regex :=
  Seq (ci_string (lit "Village"))
    (Seq ws_star (Seq (ci_char ","%char) (Seq ws_star (ci_string (lit "Mandal"))))).

(** [re.test(s)] for an expression anchored at both ends. *)
Definition test (r : regex) (s : str) : bool := matches r s.

(** The language of an expression, to reason about [matches]. *)
Inductive lang : regex -> str -> Prop :=
| lang_eps : lang Eps []
| lang_class p c : p c = true -> lang (Class p) [c]
| lang_seq r1 r2 s1 s2 : lang r1 s1 -> lang r2 s2 -> lang (Seq r1 r2) (s1 ++ s2)
| lang_alt_l r1 r2 s : lang r1 s -> lang (Alt r1 r2) s
| lang_alt_r r1 r2 s : lang r2 s -> lang (Alt r1 r2) s
| lang_star_nil r : lang (Star r) []
| lang_star_app r s1 s2 : lang r s1 -> lang (Star r) s2 -> lang (Star r) (s1 ++ s2).

End Regex.

(** ** JavaScript [Map] and [Set]

    Both keep insertion order: setting a key that is present replaces the
    value and keeps the position of the key; a new key goes to the end.
    String keys are compared by value. *)

Module JsMap.
Section WithValue.
Variable V : Type.

Definition t := list (str * V).

Definition empty : t := [].

Fixpoint set (m : t) (k : str) (v : V) : t :=
  match m with
  | [] => [(k, v)]
  | (k', v') :: m' =>
      if str_eqb k' k then (k', v) :: m' else (k', v') :: set m' k v
  end.

Fixpoint get (m : t) (k : str) : option V :=
  match m with
  | [] => None
  | (k', v') :: m' => if str_eqb k' k then Some v' else get m' k
  end.

(** [new Map(entries)] *)
Definition of_entries (es : list (str * V)) : t :=
  fold_left (fun m e => set m (fst e) (snd e)) es empty.

Definition keys (m : t) : list str := map fst m.

(** Every entry is filed under the key computed from its value. *)
Definition keyed (f : V -> str) (m : t) : Prop :=
  Forall (fun e => fst e = f (snd e)) m.

(** [Array.from(m.values())] *)
Definition values (m : t) : list V := map snd m.
End WithValue.
Arguments set {V} m k v.
Arguments get {V} m k.
Arguments of_entries {V} es.
Arguments keys {V} m.
Arguments keyed {V} f m.
Arguments values {V} m.
End JsMap.

Module JsSet.
Definition add (s : list str) (x : str) : list str :=
  if existsb (str_eqb x) s then s else s ++ [x].

(** [Array.from(new Set(l))]: the distinct elements of [l] in the order
    of their first occurrence. *)
Definition of_list (l : list str) : list str := fold_left add l [].
End JsSet.

(** ** The mapping and its construction *)

(** [{ mandal: string; village: string }] *)
Record Row : Type := { village : str; mandal : str }.

Definition comma : ascii := ","%char.

(** The body of the [forEach] callback of [parseCSV]; [out] is the array
    being filled and the result is [out] after the callback. *)
Definition parseLine (out : list Row) (line : str) : list Row :=
  let ln := trim line in
  if negb (truthy ln) then out
  else if Regex.test Regex.headerRe ln then out
  else
    let idx := lastIndexOf ln comma in
    if (idx =? -1)%Z then out
    else
      let village := trim (slice ln 0 (Some idx)) in
      let mandal := trim (slice ln (idx + 1) None) in
      if truthy village && truthy mandal
      then out ++ [{| village := village; mandal := mandal |}]
      else out.

Definition parseCSV (csv : str) : list Row :=
  fold_left parseLine (split_lines csv) [].

(** The key of a row in the maps: [r.village.toLowerCase()]. *)
Definition key (r : Row) : str := toLowerCase (village r).

(** [Array.from(new Map(local.map((r) => [r.village.toLowerCase(), r])).values())] *)
Definition uniq (local : list Row) : list Row :=
  JsMap.values (JsMap.of_entries (map (fun r => (key r, r)) local)).

(** A row of the remote table as it arrives: a field is a string, or
    [null]/[undefined] ([None]). *)
Record RawRow : Type := { raw_village : option str; raw_mandal : option str }.

(** [String(x || "")] *)
Definition orEmpty (x : option str) : str :=
  match x with
  | Some s => if truthy s then s else []
  | None => []
  end.

(** Outcome of a computation that may throw. *)
Inductive result (A : Type) : Type :=
| Ok (a : A)
| Throw.
Arguments Ok {A} a.
Arguments Throw {A}.

Definition bind {A B : Type} (x : result A) (f : A -> result B) : result B :=
  match x with
  | Ok a => f a
  | Throw => Throw
  end.

(** [try { body } catch (err) { handler }] *)
Definition tryCatch {A : Type} (body handler : result A) : result A :=
  match body with
  | Ok a => Ok a
  | Throw => handler
  end.

(** The object built by the callback of [data.map]. *)
Definition normalize (r : RawRow) : Row :=
  {| village := trim (orEmpty (raw_village r));
     mandal := trim (orEmpty (raw_mandal r)) |}.

(** The callback of [data.map]: reading a property of a [null] or
    [undefined] element ([None]) throws. *)
Definition normalizeRow (r : option RawRow) : result Row :=
  match r with
  | None => Throw
  | Some r => Ok (normalize r)
  end.

Fixpoint mapRows (rows : list (option RawRow)) : result (list Row) :=
  match rows with
  | [] => Ok []
  | r :: rows' =>
      bind (normalizeRow r) (fun x =>
      bind (mapRows rows') (fun xs => Ok (x :: xs)))
  end.

(** The [data] of the response. *)
Inductive FetchData : Type :=
| NotArray
| IsArray (rows : list (option RawRow)).

(** What [await supabase.from(...).select(...)] does: it throws, or it
    yields [{ data, error }]; [error] is [true] when the [error] field is
    truthy. *)
Inductive FetchOutcome : Type :=
| Rejected
| Resolved (data : FetchData) (error : bool).

Definition supaRows (data : FetchData) (error : bool) : result (list Row) :=
  match data with
  | IsArray rows => if negb error then mapRows rows else Ok []
  | NotArray => Ok []
  end.

(** [map.set(r.village.toLowerCase(), r)] *)
Definition setRow (m : JsMap.t Row) (r : Row) : JsMap.t Row :=
  JsMap.set m (key r) r.

(** The two [for] loops over [map.set] and [Array.from(map.values())]. *)
Definition merge (local supa : list Row) : list Row :=
  let map0 := JsMap.empty Row in
  let map1 := fold_left setRow local map0 in
  let map2 := fold_left setRow supa map1 in
  JsMap.values map2.

(** The [try] block; its value is the argument of [setMapping]. *)
Definition tryBody (local : list Row) (o : FetchOutcome) : result (list Row) :=
  match o with
  | Rejected => Throw
  | Resolved data error =>
      bind (supaRows data error) (fun supa => Ok (merge local supa))
  end.

(** The argument given to [setMapping] by the effect, for the parsed local
    rows [local]. *)
Definition buildMapping (hasSupabaseEnv : bool) (local : list Row)
    (o : FetchOutcome) : result (list Row) :=
  if negb hasSupabaseEnv then Ok (uniq local)
  else tryCatch (tryBody local o) (Ok (uniq local)).

(** ** Component state and event handlers *)

Record FormState : Type := {
  mapping : list Row;
  villageFilter : str;
  mandalFilter : str;
  manualMode : bool;
  manualVillage : str;
  manualMandal : str;
  form_village : str;   (* the form value "village" *)
  form_mandal : str;    (* the form value "mandal" *)
  loadError : option str
}.

Definition setMapping (x : list Row) (st : FormState) : FormState :=
  {| mapping := x; villageFilter := villageFilter st; mandalFilter := mandalFilter st;
     manualMode := manualMode st; manualVillage := manualVillage st;
     manualMandal := manualMandal st; form_village := form_village st;
     form_mandal := form_mandal st; loadError := loadError st |}.

Definition setVillageFilter (x : str) (st : FormState) : FormState :=
  {| mapping := mapping st; villageFilter := x; mandalFilter := mandalFilter st;
     manualMode := manualMode st; manualVillage := manualVillage st;
     manualMandal := manualMandal st; form_village := form_village st;
     form_mandal := form_mandal st; loadError := loadError st |}.

Definition setMandalFilter (x : str) (st : FormState) : FormState :=
  {| mapping := mapping st; villageFilter := villageFilter st; mandalFilter := x;
     manualMode := manualMode st; manualVillage := manualVillage st;
     manualMandal := manualMandal st; form_village := form_village st;
     form_mandal := form_mandal st; loadError := loadError st |}.

Definition setManualMode (x : bool) (st : FormState) : FormState :=
  {| mapping := mapping st; villageFilter := villageFilter st; mandalFilter := mandalFilter st;
     manualMode := x; manualVillage := manualVillage st;
     manualMandal := manualMandal st; form_village := form_village st;
     form_mandal := form_mandal st; loadError := loadError st |}.

Definition setManualVillage (x : str) (st : FormState) : FormState :=
  {| mapping := mapping st; villageFilter := villageFilter st; mandalFilter := mandalFilter st;
     manualMode := manualMode st; manualVillage := x;
     manualMandal := manualMandal st; form_village := form_village st;
     form_mandal := form_mandal st; loadError := loadError st |}.

Definition setManualMandal (x : str) (st : FormState) : FormState :=
  {| mapping := mapping st; villageFilter := villageFilter st; mandalFilter := mandalFilter st;
     manualMode := manualMode st; manualVillage := manualVillage st;
     manualMandal := x; form_village := form_village st;
     form_mandal := form_mandal st; loadError := loadError st |}.

(** [form.setValue("village", x)] *)
Definition setValue_village (x : str) (st : FormState) : FormState :=
  {| mapping := mapping st; villageFilter := villageFilter st; mandalFilter := mandalFilter st;
     manualMode := manualMode st; manualVillage := manualVillage st;
     manualMandal := manualMandal st; form_village := x;
     form_mandal := form_mandal st; loadError := loadError st |}.

(** [form.setValue("mandal", x)] *)
Definition setValue_mandal (x : str) (st : FormState) : FormState :=
  {| mapping := mapping st; villageFilter := villageFilter st; mandalFilter := mandalFilter st;
     manualMode := manualMode st; manualVillage := manualVillage st;
     manualMandal := manualMandal st; form_village := form_village st;
     form_mandal := x; loadError := loadError st |}.

(** State of a freshly mounted form. *)
Definition initialState : FormState :=
  {| mapping := []; villageFilter := []; mandalFilter := []; manualMode := false;
     manualVillage := []; manualMandal := []; form_village := []; form_mandal := [];
     loadError := None |}.

(** The mapping effect run on mount: it only calls [setMapping]. *)
Definition mappingEffect (hasSupabaseEnv : bool) (csv : str) (o : FetchOutcome)
    (st : FormState) : result FormState :=
  bind (buildMapping hasSupabaseEnv (parseCSV csv) o) (fun m => Ok (setMapping m st)).

(** The [value] of the two "Other" options. *)
Definition other : str := lit "__other__".

(** [onChange] of the mandal [select]. *)
Definition mandalSelect_onChange (m : str) (st : FormState) : FormState :=
  if str_eqb m other then
    setManualMandal [] (setValue_mandal [] (setManualMode true st))
  else
    setManualMode false
      (setVillageFilter [] (setValue_village [] (setValue_mandal m st))).

(** [onChange] of the village [select]. *)
Definition villageSelect_onChange (v : str) (st : FormState) : FormState :=
  if str_eqb v other then
    setManualMandal []
      (setManualVillage []
         (setValue_mandal [] (setValue_village [] (setManualMode true st))))
  else
    let st1 := setValue_village v st in
    let rec := find (fun r => str_eqb (village r) v) (mapping st) in
    setManualMode false
      (setValue_mandal (match rec with Some r => mandal r | None => [] end) st1).

(** [onChange] of the two manual inputs. *)
Definition manualVillage_onChange (x : str) (st : FormState) : FormState :=
  setValue_village x (setManualVillage x st).

Definition manualMandal_onChange (x : str) (st : FormState) : FormState :=
  setValue_mandal x (setManualMandal x st).

(** [onClick] of the Cancel button of manual mode. *)
Definition manualCancel_onClick (st : FormState) : FormState :=
  setManualMandal [] (setManualVillage [] (setManualMode false st)).

(** [onBlur] of the plain village input; [val] is [e.target.value]. *)
Definition fallbackVillage_onBlur (val : str) (st : FormState) : FormState :=
  if truthy val && (0 <? length (mapping st)) then
    let rec := find (fun r => str_eqb (village r) val) (mapping st) in
    setValue_mandal (match rec with Some r => mandal r | None => form_mandal st end) st
  else st.

(** The inputs registered with the form write what is typed. *)
Definition fallbackVillage_onChange (x : str) (st : FormState) : FormState :=
  setValue_village x st.

Definition fallbackMandal_onChange (x : str) (st : FormState) : FormState :=
  setValue_mandal x st.

(** What the village block renders: the plain inputs when the mapping is
    empty, else the mandal [select] with either the village [select] or the
    manual inputs. *)
Inductive View : Type :=
| FallbackInputs
| Dropdowns
| ManualInputs.

Definition render (st : FormState) : View :=
  if 0 <? length (mapping st) then
    if negb (manualMode st) then Dropdowns else ManualInputs
  else FallbackInputs.

Inductive Event : Type :=
| MandalFilterChange (x : str)
| MandalSelectChange (m : str)
| VillageFilterChange (x : str)
| VillageSelectChange (v : str)
| ManualVillageChange (x : str)
| ManualMandalChange (x : str)
| ManualCancelClick
| FallbackVillageChange (x : str)
| FallbackVillageBlur (val : str)
| FallbackMandalChange (x : str).

(** The events whose element is on screen in a view. *)
Definition offered (v : View) (e : Event) : bool :=
  match v, e with
  | FallbackInputs, (FallbackVillageChange _ | FallbackVillageBlur _ | FallbackMandalChange _) => true
  | Dropdowns, (MandalFilterChange _ | MandalSelectChange _
                | VillageFilterChange _ | VillageSelectChange _) => true
  | ManualInputs, (MandalFilterChange _ | MandalSelectChange _
                   | ManualVillageChange _ | ManualMandalChange _ | ManualCancelClick) => true
  | _, _ => false
  end.

Definition handle (e : Event) (st : FormState) : FormState :=
  match e with
  | MandalFilterChange x => setMandalFilter x st
  | MandalSelectChange m => mandalSelect_onChange m st
  | VillageFilterChange x => setVillageFilter x st
  | VillageSelectChange v => villageSelect_onChange v st
  | ManualVillageChange x => manualVillage_onChange x st
  | ManualMandalChange x => manualMandal_onChange x st
  | ManualCancelClick => manualCancel_onClick st
  | FallbackVillageChange x => fallbackVillage_onChange x st
  | FallbackVillageBlur val => fallbackVillage_onBlur val st
  | FallbackMandalChange x => fallbackMandal_onChange x st
  end.

(** ** Derived option lists *)

Section OptionLists.

(** [a.localeCompare(b)]: negative, zero or positive. *)
Variable localeCompare : str -> str -> Z.


Fixpoint insert (x : str) (l : list str) : list str :=
  match l with
  | [] => [x]
  | y :: l' =>
      if (localeCompare x y <=? 0)%Z then x :: y :: l' else y :: insert x l'
  end.

(** [l.sort((a, b) => a.localeCompare(b))].  The sort of the language is
    stable and, for a consistent comparator, its result is the one
    ordered arrangement that keeps equal elements in their order; stable
    insertion computes it. *)
Definition sort (l : list str) : list str := fold_right insert [] l.

Definition _mandals (mapping : list Row) : list str :=
  sort (JsSet.of_list (filter truthy (map mandal mapping))).

Definition filteredMandals (mapping : list Row) (mandalFilter : str) : list str :=
  if 2 <=? length (trim mandalFilter) then
    filter (fun m => includes (toLowerCase m) (toLowerCase (trim mandalFilter)))
      (_mandals mapping)
  else _mandals mapping.

(** [(form.watch("mandal") || "").trim()] *)
Definition selectedMandal (st : FormState) : str := trim (form_mandal st).

Definition villagesSource (mapping : list Row) (selectedMandal : str) : list str :=
  if truthy selectedMandal then
    map village (filter (fun r => str_eqb (mandal r) selectedMandal) mapping)
  else map village mapping.

Definition _villages (mapping : list Row) (selectedMandal : str) : list str :=
  sort (JsSet.of_list (filter truthy (villagesSource mapping selectedMandal))).

Definition filteredVillages (mapping : list Row) (selectedMandal villageFilter : str)
  : list str :=
  let q := toLowerCase (trim villageFilter) in
  if 3 <=? length q then
    filter (fun v => includes (toLowerCase v) q) (_villages mapping selectedMandal)
  else if truthy selectedMandal then _villages mapping selectedMandal
  else [].

End OptionLists.

(** ** The village candidates over 16-bit code units

    The strings above stop at code unit 255, and there the lower case of
    a string has the length of the string.  Over all 16-bit code units
    this is not so: the lower case of U+0130, the capital I with a dot
    above, is the two code units U+0069 U+0307.  [filteredVillages]
    measures its filter after lower-casing it, so the village lists are
    embedded a second time, over code units up to 65535.

    Scope.  [toLowerCase] is written out for the code units below 256 and
    for U+0130 and leaves every other code unit as it is, which is the
    mapping of the language for U+0307 and for the code units without a
    lower-case form; strings with other cased letters are outside this
    module.  [widen] maps a string of the model above to the same string
    here. *)

Module Utf16.

Definition str := list N.

Definition widen (s : JsString.str) : str := map JsString.code s.

Definition str_eqb (a b : str) : bool :=
  if list_eq_dec N.eq_dec a b then true else false.

(** [WhiteSpace] and [LineTerminator]: TAB, LF, VT, FF, CR, SP, NBSP,
    U+1680, U+2000..U+200A, U+2028, U+2029, U+202F, U+205F, U+3000 and
    U+FEFF. *)
Definition isWhiteSpace (u : N) : bool :=
  ((9 <=? u) && (u <=? 13) || (u =? 32) || (u =? 160) || (u =? 5760)
   || (8192 <=? u) && (u <=? 8202) || (u =? 8232) || (u =? 8233)
   || (u =? 8239) || (u =? 8287) || (u =? 12288) || (u =? 65279))%N.

Fixpoint trimStart (s : str) : str :=
  match s with
  | [] => []
  | u :: s' => if isWhiteSpace u then trimStart s' else s
  end.

Definition trimEnd (s : str) : str := rev (trimStart (rev s)).

(** [s.trim()] *)
Definition trim (s : str) : str := trimEnd (trimStart s).

(** U+0130 and the two code units of its lower case. *)
Definition capital_I_dot : N := 304.
Definition small_i : N := 105.
Definition combining_dot : N := 775.



(** Lower case of one code unit, as a sequence of code units. *)
Definition lowerUnit (u : N) : list N :=
  if ((65 <=? u) && (u <=? 90) || (192 <=? u) && (u <=? 222) && negb (u =? 215))%N
  then [(u + 32)%N]
  else if (u =? capital_I_dot)%N then [small_i; combining_dot]
  else [u].

(** [s.toLowerCase()] *)
Definition toLowerCase (s : str) : str := flat_map lowerUnit s.

Fixpoint startsWith (s q : str) : bool :=
  match q, s with
  | [], _ => true
  | _ :: _, [] => false
  | y :: q', x :: s' => (x =? y)%N && startsWith s' q'
  end.

(** [s.includes(q)] *)
Fixpoint includes (s q : str) : bool :=
  startsWith s q ||
  match s with
  | [] => false
  | _ :: s' => includes s' q
  end.

Definition truthy (s : str) : bool :=
  match s with [] => false | _ :: _ => true end.

(** [{ mandal: string; village: string }] *)
Record Row : Type := { village : str; mandal : str }.

Definition add (s : list str) (x : str) : list str :=
  if existsb (str_eqb x) s then s else s ++ [x].

(** [Array.from(new Set(l))] *)
Definition of_list (l : list str) : list str := fold_left add l [].

(** The order of the code units, as a comparator. *)
Fixpoint codeUnitCompare (a b : str) : Z :=
  match a, b with
  | [], [] => 0%Z
  | [], _ :: _ => (-1)%Z
  | _ :: _, [] => 1%Z
  | x :: a', y :: b' =>
      match (x ?= y)%N with
      | Lt => (-1)%Z
      | Gt => 1%Z
      | Eq => codeUnitCompare a' b'
      end
  end.

Section OptionLists.

Variable localeCompare : str -> str -> Z.

Fixpoint insert (x : str) (l : list str) : list str :=
  match l with
  | [] => [x]
  | y :: l' =>
      if (localeCompare x y <=? 0)%Z then x :: y :: l' else y :: insert x l'
  end.

Definition sort (l : list str) : list str := fold_right insert [] l.

Definition villagesSource (mapping : list Row) (selectedMandal : str) : list str :=
  if truthy selectedMandal then
    map village (filter (fun r => str_eqb (mandal r) selectedMandal) mapping)
  else map village mapping.

Definition _villages (mapping : list Row) (selectedMandal : str) : list str :=
  sort (of_list (filter truthy (villagesSource mapping selectedMandal))).

Definition filteredVillages (mapping : list Row) (selectedMandal villageFilter : str)
  : list str :=
  let q := toLowerCase (trim villageFilter) in
  if 3 <=? length q then
    filter (fun v => includes (toLowerCase v) q) (_villages mapping selectedMandal)
  else if truthy selectedMandal then _villages mapping selectedMandal
  else [].

End OptionLists.

Definition M : str := widen (lit "M").


End Utf16.

Definition widenRow (r : Row) : Utf16.Row :=
  {| Utf16.village := Utf16.widen (village r); Utf16.mandal := Utf16.widen (mandal r) |}.

(** ** The reconciliation as the specification words it

    Definitions that follow the prose of the specification; the theorems
    compare them with the definitions above. *)

Module Spec.

(** Equality of two strings up to letter case. *)
Definition ci_eq (a b : str) : bool := str_eqb (toLowerCase a) (toLowerCase b).


(** A blank line holds white space only. *)
Definition blank (line : str) : bool := forallb isWhiteSpace line.

(** The two parts of a line around its last comma. *)
Fixpoint split_last_comma (s : str) : option (str * str) :=
  match s with
  | [] => None
  | c :: s' =>
      match split_last_comma s' with
      | Some (a, b) => Some (c :: a, b)
      | None => if Ascii.eqb c comma then Some ([], s') else None
      end
  end.

(** The header row: its two cells read Village and Mandal, in any
    letter case. *)
Definition is_header (v m : str) : bool :=
  ci_eq v (lit "Village") && ci_eq m (lit "Mandal").

(** The row of one line, if it has one. *)
Definition parse_line (line : str) : option Row :=
  if blank line then None
  else
    match split_last_comma line with
    | None => None
    | Some (a, b) =>
        let v := trim a in
        let m := trim b in
        if is_header v m then None
        else if str_eqb v [] || str_eqb m [] then None
        else Some {| village := v; mandal := m |}
    end.

Definition parse (csv : str) : list Row :=
  flat_map (fun line => match parse_line line with Some r => [r] | None => [] end)
    (split_lines csv).

(** Deduplication by key: a row is kept when no earlier row has its key
    ("first occurrence wins"). *)
Fixpoint dedup_first_from (seen : list str) (l : list Row) : list Row :=
  match l with
  | [] => []
  | r :: l' =>
      if existsb (str_eqb (key r)) seen then dedup_first_from seen l'
      else r :: dedup_first_from (key r :: seen) l'
  end.

Definition dedup_first (l : list Row) : list Row := dedup_first_from [] l.

(** The last row of [l] with key [k]. *)
Definition last_with_key (k : str) (l : list Row) : option Row :=
  find (fun r => str_eqb (key r) k) (rev l).

(** The distinct keys of [l], in the order of their first occurrence. *)
Definition first_keys (l : list Row) : list str := map key (dedup_first l).

(** Deduplication by key where the last row of a key wins and stands at
    the place of the first row of that key. *)
Definition dedup_last (l : list Row) : list Row :=
  flat_map (fun k => match last_with_key k l with Some r => [r] | None => [] end)
    (first_keys l).

(** The record the mapping holds for a village name, up to letter case. *)
Definition lookup (v : str) (m : list Row) : option Row :=
  find (fun r => str_eqb (key r) (toLowerCase v)) m.

End Spec.

Definition row (v m : string) : Row := {| village := lit v; mandal := lit m |}.

(** Both names of a row are non-empty after trimming; both are trimmed. *)
Definition nonempty_row (r : Row) : Prop :=
  trim (village r) <> [] /\ trim (mandal r) <> [].

Definition trimmed_row (r : Row) : Prop :=
  trim (village r) = village r /\ trim (mandal r) = mandal r.

(** Sample inputs. *)
Definition csv_two_cases : str := lit "Kadapa,M1
kadapa,M2".

Definition csv_two_villages : str := lit "Anantapur,Anantapur M
Kadapa,Kadapa M".

Definition sample_mapping : list Row :=
  [row "Rayachoti" "Rayachoti M"; row "Pulivendula" "Kadapa M"; row "Kadapa" "Kadapa M"].

Definition raw (v m : string) : RawRow :=
  {| raw_village := Some (lit v); raw_mandal := Some (lit m) |}.

(** A comparator to run the sorted lists on: the order of the code units. *)
Definition codeUnitCompare (a b : str) : Z :=
  match OrdersEx.String_as_OT.compare (string_of_list_ascii a) (string_of_list_ascii b) with
  | Lt => (-1)%Z
  | Eq => 0%Z
  | Gt => 1%Z
  end.

(** All code units of the model. *)
Definition all_ascii : list ascii := map ascii_of_nat (seq 0 256).

(** ** Validation and submission

    The string checks of the form schema and the part of [onSubmit] that
    writes the record and uploads the images.  The backend is an oracle:
    the answers of its calls are arguments, and the calls made are
    logged. *)

(** The class [[0-9]]. *)
Definition isDigit (c : ascii) : bool :=
  let n := code c in ((48 <=? n) && (n <=? 57))%N.

(** [r{n}] *)
Fixpoint times (n : nat) (r : Regex.regex) : Regex.regex :=
  match n with
  | 0 => Regex.Eps
  | S n' => Regex.Seq r (times n' r)
  end.

(** [r{0,k}] *)
Fixpoint upto (k : nat) (r : Regex.regex) : Regex.regex :=
  match k with
  | 0 => Regex.Eps
  | S k' => Regex.Alt Regex.Eps (Regex.Seq r (upto k' r))
  end.

(** [/^[0-9]{10,15}$/]: ten digits and up to five more. *)
Definition mobileRe : Regex.regex :=
  Regex.Seq (times 10 (Regex.Class isDigit)) (upto 5 (Regex.Class isDigit)).

(** [z.string().regex(/^[0-9]{10,15}$/, ...)] *)
Definition valid_customer_mobile_number (s : str) : bool := Regex.test mobileRe s.

(** [z.string().min(2, ...)] of [project_name] and [site_visitor_name]. *)
Definition valid_min2 (s : str) : bool := 2 <=? length s.

(** [values.customer_mobile_number.trim()], [values.site_visitor_name.trim()] *)
Definition payload_customer_mobile_number (s : str) : str := trim s.
Definition payload_site_visitor_name (s : str) : str := trim s.

(** A computation that ends with a value or throws an error message. *)
Inductive outcome (A : Type) : Type :=
| Done (a : A)
| Raised (message : str).
Arguments Done {A} a.
Arguments Raised {A} message.

(** The error of a failed upload: [upErr.message] and [String(upErr)]. *)
Record UploadError : Type := { up_message : str; up_text : str }.

(** The answers for one file: the upload fails, or it succeeds and
    [getPublicUrl] yields [pub?.publicUrl] ([None] when absent). *)
Inductive UploadOutcome : Type :=
| UploadFailed (e : UploadError)
| Uploaded (publicUrl : option str).

(** The calls [onSubmit] makes. *)
Inductive Call : Type :=
| CallUpdate (id : str)
| CallInsert
| CallUpload (targetId name : str)
| CallUpdateImages (targetId : str) (urls : list str)
| CallNavigate
| CallAlert (message : str).

Definition bucketMessage : str :=
  lit "Supabase storage bucket 'project-images' not found. Create the bucket in Supabase Storage or remove image uploads.".

Definition notConfiguredMessage : str :=
  lit "Supabase not configured. Click Open MCP popover and connect to Supabase.".

(** [String(upErr.message || upErr).toLowerCase()] *)
Definition uploadErrorText (e : UploadError) : str :=
  toLowerCase (if truthy (up_message e) then up_message e else up_text e).

(** The [for] loop over [imageFiles]: each file is the name of a file with
    the answers of the backend for it; [urls] is the array being filled and
    [log] the calls made so far. *)
Fixpoint uploadAll (targetId : str) (files : list (str * UploadOutcome))
    (urls : list str) (log : list Call) : list Call * outcome (list str) :=
  match files with
  | [] => (log, Done urls)
  | (name, o) :: rest =>
      let log' := log ++ [CallUpload targetId name] in
      match o with
      | UploadFailed e =>
          let msg := uploadErrorText e in
          if includes msg (lit "bucket") || includes msg (lit "not found")
          then (log', Raised bucketMessage)
          else (log', Raised (up_message e))
      | Uploaded pub =>
          let urls' := match pub with
                       | Some u => if truthy u then urls ++ [u] else urls
                       | None => urls
                       end in
          uploadAll targetId rest urls' log'
      end
  end.

(** The answer of the write of the record: an error message, or the id of
    the row ([data.id] of an insert). *)
Inductive WriteOutcome : Type :=
| WriteFailed (message : str)
| Written (newId : str).

(** The [try] block of [onSubmit] from the write of the record on; the
    payload is built before (its date conversion is not modelled).  [id] is
    the route parameter, [imagesUpdate] the error of the last update, if
    any. *)
Definition submitBody (id : option str) (write : WriteOutcome)
    (existingImages : list str) (files : list (str * UploadOutcome))
    (imagesUpdate : option str) : list Call * outcome unit :=
  let isEdit := match id with Some i => truthy i | None => false end in
  let writeCall := match id with
                   | Some i => if truthy i then CallUpdate i else CallInsert
                   | None => CallInsert
                   end in
  match write with
  | WriteFailed msg => ([writeCall], Raised msg)
  | Written newId =>
      let targetId := if isEdit then match id with Some i => i | None => [] end
                      else newId in
      if (0 <? length files) && truthy targetId then
        match uploadAll targetId files existingImages [writeCall] with
        | (log, Raised msg) => (log, Raised msg)
        | (log, Done urls) =>
            let log' := log ++ [CallUpdateImages targetId urls] in
            match imagesUpdate with
            | Some msg => (log', Raised msg)
            | None => (log' ++ [CallNavigate], Done tt)
            end
        end
      else ([writeCall; CallNavigate], Done tt)
  end.

(** [onSubmit]: the calls it makes, the alerts included. *)
Definition onSubmit (hasSupabaseEnv : bool) (id : option str) (write : WriteOutcome)
    (existingImages : list str) (files : list (str * UploadOutcome))
    (imagesUpdate : option str) : list Call :=
  if negb hasSupabaseEnv then [CallAlert notConfiguredMessage]
  else
    match submitBody id write existingImages files imagesUpdate with
    | (log, Done _) => log
    | (log, Raised msg) =>
        log ++ [CallAlert (if truthy msg then msg else lit "Save failed")]
    end.

(** The public URLs the loop collects from answers that are all successes. *)
Definition publicUrls (files : list (str * UploadOutcome)) : list str :=
  flat_map (fun f => match snd f with
                     | Uploaded (Some u) => if truthy u then [u] else []
                     | _ => []
                     end) files.

Definition uploadCalls (targetId : str) (files : list (str * UploadOutcome)) : list Call :=
  map (fun f => CallUpload targetId (fst f)) files.

Definition all_uploaded (files : list (str * UploadOutcome)) : Prop :=
  Forall (fun f => exists pub, snd f = Uploaded pub) files.

(** The calls that reach the backend, as opposed to what the user sees. *)
Definition is_backend_call (c : Call) : bool :=
  match c with CallNavigate | CallAlert _ => false | _ => true end.

Definition is_upload (c : Call) : bool :=
  match c with CallUpload _ _ => true | _ => false end.

(** The write of the record: an update when the route has an id. *)
Definition writeCall (id : option str) : Call :=
  match id with
  | Some i => if truthy i then CallUpdate i else CallInsert
  | None => CallInsert
  end.

(** ** Event sequences

    An event reaches its handler only when its element is on screen. *)

Definition dispatch (e : Event) (st : FormState) : FormState :=
  if offered (render st) e then handle e st else st.

Definition run (es : list Event) (st : FormState) : FormState :=
  fold_left (fun s e => dispatch e s) es st.

(** While the manual inputs are in use the mapping is not empty and the
    manual mandal input shows the mandal value of the form. *)
Definition manual_mandal_shown (st : FormState) : Prop :=
  manualMode st = true -> mapping st <> [] /\ manualMandal st = form_mandal st.

(** The mandal typed last into the plain mandal input, [d] if none was. *)
Fixpoint last_typed_mandal (es : list Event) (d : str) : str :=
  match es with
  | [] => d
  | FallbackMandalChange x :: es' => last_typed_mandal es' x
  | _ :: es' => last_typed_mandal es' d
  end.

(** ** The dashboard

    The list logic of [client/pages/Index.tsx]: the realtime reducer of the
    approvals, the counts of the filter badges, the lookups in the loosely
    typed project records and the selection of a project.  Numbers are
    IEEE doubles; the dashboard only tests them against zero, for
    truthiness, and prints them, so their type and these three operations
    are parameters. *)

(** [ApprovalStatus] and the filter keys. *)
Inductive ApprovalStatus : Type := pending | approved | rejected.

Inductive ApprovalFilter : Type :=
| FilterAll
| FilterStatus (s : ApprovalStatus).

Definition status_eqb (a b : ApprovalStatus) : bool :=
  match a, b with
  | pending, pending | approved, approved | rejected, rejected => true
  | _, _ => false
  end.

(** [type DerivedStatus = "active" | "completed" | "other"] *)
Inductive DerivedStatus : Type := active | completed | other_status.

Section Dashboard.

Variable num : Type.
(** [n === 0] (true of both zeros) and [Number.isNaN(n)]. *)
Variable num_is_zero : num -> bool.
Variable num_is_nan : num -> bool.
(** [String(n)] *)
Variable num_to_string : num -> str.

(** A JavaScript value; [VObject text] is an object or array with its
    [String(...)] text. *)
Inductive value : Type :=
| VUndefined
| VNull
| VBool (b : bool)
| VNum (n : num)
| VStr (s : str)
| VObject (text : str).

(** An object with string keys. *)
Definition object : Type := JsMap.t value.

(** [o[key]] *)
Definition prop (o : object) (key : str) : value :=
  match JsMap.get o key with
  | Some v => v
  | None => VUndefined
  end.

(** Truthiness of a value. *)
Definition truthy_value (v : value) : bool :=
  match v with
  | VUndefined | VNull => false
  | VBool b => b
  | VNum n => negb (num_is_zero n || num_is_nan n)
  | VStr s => truthy s
  | VObject _ => true
  end.

(** [String(v)] *)
Definition String_ (v : value) : str :=
  match v with
  | VUndefined => lit "undefined"
  | VNull => lit "null"
  | VBool true => lit "true"
  | VBool false => lit "false"
  | VNum n => num_to_string n
  | VStr s => s
  | VObject text => text
  end.

(** [value !== undefined && value !== null && value !== ""] *)
Definition usable (v : value) : bool :=
  match v with
  | VUndefined | VNull => false
  | VStr s => truthy s
  | _ => true
  end.

(** Modelled from the spec: the type [ChitoorProjectRecord] is imported from
    the shared types but not declared in the sources; the specification
    describes it as a dynamic record whose fields are looked up by name, so
    a project record is an [object]. *)
Fixpoint pickFirstValue (project : object) (keys : list str) : value :=
  match keys with
  | [] => VUndefined
  | key :: rest =>
      let v := prop project key in
      if usable v then v else pickFirstValue project rest
  end.

(** [list.includes(s)] for an array of strings. *)
Definition includes_str (l : list str) (s : str) : bool := existsb (str_eqb s) l.

Definition toBoolean (v : value) : option bool :=
  match v with
  | VBool b => Some b
  | VNum n => Some (negb (num_is_zero n))
  | VStr s =>
      let normalized := toLowerCase (trim s) in
      if includes_str [lit "true"; lit "yes"; lit "y"; lit "1"] normalized then Some true
      else if includes_str [lit "false"; lit "no"; lit "n"; lit "0"] normalized then Some false
      else None
  | _ => None
  end.

Definition statusKeys : list str :=
  [lit "status"; lit "project_status"; lit "current_status"; lit "stage"; lit "state"].

Definition completedWords : list str :=
  [lit "completed"; lit "complete"; lit "done"; lit "finished"; lit "closed"].

Definition activeWords : list str :=
  [lit "active"; lit "in progress"; lit "in-progress"; lit "ongoing"; lit "processing";
   lit "running"; lit "pending"; lit "initiated"].

(** The flags read when the status text decides nothing. *)
Definition statusFromFlags (project : object) : DerivedStatus :=
  let completeFlag :=
    toBoolean (pickFirstValue project [lit "is_completed"; lit "completed"; lit "isComplete"]) in
  match completeFlag with
  | Some true => completed
  | _ =>
      let activeFlag :=
        toBoolean (pickFirstValue project [lit "is_active"; lit "active"; lit "isActive"]) in
      match activeFlag with
      | Some true => active
      | _ => other_status
      end
  end.

(** [deriveProjectStatus]; [statusValue.trim()] throws when the value is
    truthy and not a string. *)
Definition deriveProjectStatus (project : object) : result DerivedStatus :=
  let statusValue := pickFirstValue project statusKeys in
  if truthy_value statusValue then
    match statusValue with
    | VStr s =>
        let normalized := toLowerCase (trim s) in
        if includes_str completedWords normalized then Ok completed
        else if includes_str activeWords normalized then Ok active
        else Ok (statusFromFlags project)
    | _ => Throw
    end
  else Ok (statusFromFlags project).

(** [projectsSummary]: total, active and completed. *)
Fixpoint summarize (projects : list object) (act comp : nat) : result (nat * nat) :=
  match projects with
  | [] => Ok (act, comp)
  | project :: rest =>
      bind (deriveProjectStatus project) (fun status =>
        match status with
        | active => summarize rest (act + 1) comp
        | completed => summarize rest act (comp + 1)
        | other_status => summarize rest act comp
        end)
  end.

Definition projectsSummary (projects : list object) : result (nat * nat * nat) :=
  bind (summarize projects 0 0) (fun ac => Ok (length projects, fst ac, snd ac)).

Definition getProjectId (project : object) : str :=
  match prop project (lit "id") with
  | VUndefined | VNull => []
  | raw => String_ raw
  end.

(** The effect that keeps [selectedProjectId] on a project of the list;
    the result is the state after the effect. *)
Definition selectionEffect (projects : list object) (selectedProjectId : option str)
  : option str :=
  match projects with
  | [] => None
  | first :: _ =>
      let fallbackId := getProjectId first in
      match selectedProjectId with
      | None => Some fallbackId
      | Some sel =>
          if negb (truthy sel)
             || negb (existsb (fun p => str_eqb (getProjectId p) sel) projects)
          then Some fallbackId
          else Some sel
      end
  end.

(** The memo [selectedProject]. *)
Definition selectedProject (projects : list object) (selectedProjectId : option str)
  : option object :=
  match projects with
  | [] => None
  | first :: _ =>
      let targetId := match selectedProjectId with
                      | Some sel => sel
                      | None => getProjectId first
                      end in
      find (fun p => str_eqb (getProjectId p) targetId) projects
  end.

(** A row of the approvals table: the two typed fields the dashboard
    computes with, and the other columns. *)
Record ChittoorProject : Type := {
  ap_id : str;
  ap_status : ApprovalStatus;
  ap_columns : object
}.

(** [{ ...a, ...b }] on the columns: the entries of [b] are set into [a]. *)
Definition spread_object (a b : object) : object :=
  fold_left (fun m e => JsMap.set m (fst e) (snd e)) b a.

(** [{ ...p, ...payload.new }] *)
Definition spread (p n : ChittoorProject) : ChittoorProject :=
  {| ap_id := ap_id n; ap_status := ap_status n;
     ap_columns := spread_object (ap_columns p) (ap_columns n) |}.

(** The payload of a realtime change: [payload.new], or the id of
    [payload.old]. *)
Inductive RealtimePayload : Type :=
| INSERT (new : ChittoorProject)
| UPDATE (new : ChittoorProject)
| DELETE (old_id : str)
| OtherEvent.

(** The updater given to [setApprovals] by the subscription. *)
Definition applyRealtime (payload : RealtimePayload) (prev : list ChittoorProject)
  : list ChittoorProject :=
  match payload with
  | INSERT n => n :: prev
  | UPDATE n => map (fun p => if str_eqb (ap_id p) (ap_id n) then spread p n else p) prev
  | DELETE old_id => filter (fun p => negb (str_eqb (ap_id p) old_id)) prev
  | OtherEvent => prev
  end.

(** The updater of [handleApprovalDelete] after a successful delete. *)
Definition removeApproval (id : str) (prev : list ChittoorProject) : list ChittoorProject :=
  filter (fun project => negb (str_eqb (ap_id project) id)) prev.

(** [Record<ApprovalFilter, number>] *)
Record Counts : Type := {
  count_all : nat;
  count_pending : nat;
  count_approved : nat;
  count_rejected : nat
}.

(** [counts[status] = (counts[status] ?? 0) + 1] *)
Definition bump (counts : Counts) (status : ApprovalStatus) : Counts :=
  match status with
  | pending =>
      {| count_all := count_all counts; count_pending := count_pending counts + 1;
         count_approved := count_approved counts; count_rejected := count_rejected counts |}
  | approved =>
      {| count_all := count_all counts; count_pending := count_pending counts;
         count_approved := count_approved counts + 1; count_rejected := count_rejected counts |}
  | rejected =>
      {| count_all := count_all counts; count_pending := count_pending counts;
         count_approved := count_approved counts; count_rejected := count_rejected counts + 1 |}
  end.

Definition statusCounts (approvals : list ChittoorProject) : Counts :=
  let counts0 := {| count_all := length approvals; count_pending := 0;
                    count_approved := 0; count_rejected := 0 |} in
  let counts := fold_left (fun c p => bump c (ap_status p)) approvals counts0 in
  {| count_all := length approvals; count_pending := count_pending counts;
     count_approved := count_approved counts; count_rejected := count_rejected counts |}.

(** [statusCounts[option.key] ?? 0], the number on a filter badge. *)
Definition badge (counts : Counts) (f : ApprovalFilter) : nat :=
  match f with
  | FilterAll => count_all counts
  | FilterStatus pending => count_pending counts
  | FilterStatus approved => count_approved counts
  | FilterStatus rejected => count_rejected counts
  end.

Definition filteredApprovals (approvals : list ChittoorProject) (f : ApprovalFilter)
  : list ChittoorProject :=
  match f with
  | FilterAll => approvals
  | FilterStatus s => filter (fun p => status_eqb (ap_status p) s) approvals
  end.

(** A sequence of realtime changes, applied in order. *)
Definition applyAll (payloads : list RealtimePayload) (prev : list ChittoorProject)
  : list ChittoorProject :=
  fold_left (fun l payload => applyRealtime payload l) payloads prev.

(** Every INSERT of the sequence brings an id the list does not hold when
    the event arrives. *)
Fixpoint inserts_fresh (payloads : list RealtimePayload) (prev : list ChittoorProject)
  : Prop :=
  match payloads with
  | [] => True
  | payload :: rest =>
      match payload with
      | INSERT n => ~ In (ap_id n) (map ap_id prev)
      | _ => True
      end /\ inserts_fresh rest (applyRealtime payload prev)
  end.

(** The derivation of a status ends normally with [d]. *)
Definition derives (d : DerivedStatus) (project : object) : bool :=
  match deriveProjectStatus project, d with
  | Ok active, active | Ok completed, completed | Ok other_status, other_status => true
  | _, _ => false
  end.

End Dashboard.

Arguments VUndefined {num}.
Arguments VNull {num}.
Arguments VBool {num} b.
Arguments VNum {num} n.
Arguments VStr {num} s.
Arguments VObject {num} text.
Arguments prop {num}.
Arguments truthy_value {num}.
Arguments String_ {num}.
Arguments usable {num}.
Arguments pickFirstValue {num}.
Arguments toBoolean {num}.
Arguments statusFromFlags {num}.
Arguments deriveProjectStatus {num}.
Arguments summarize {num}.
Arguments projectsSummary {num}.
Arguments getProjectId {num}.
Arguments selectionEffect {num}.
Arguments selectedProject {num}.
Arguments ap_id {num}.
Arguments ap_status {num}.
Arguments ap_columns {num}.
Arguments Build_ChittoorProject {num}.
Arguments spread_object {num}.
Arguments spread {num}.
Arguments INSERT {num}.
Arguments UPDATE {num}.
Arguments DELETE {num}.
Arguments OtherEvent {num}.
Arguments applyRealtime {num}.
Arguments removeApproval {num}.
Arguments statusCounts {num}.
Arguments filteredApprovals {num}.
Arguments applyAll {num}.
Arguments inserts_fresh {num}.
Arguments derives {num}.

(** Numbers to run the dashboard on: the integers. *)
Definition z_is_zero (n : Z) : bool := (n =? 0)%Z.
Definition z_is_nan (n : Z) : bool := false.
Definition z_to_string (n : Z) : str :=
  list_ascii_of_string (DecimalString.NilZero.string_of_int (Z.to_int n)).

(** Sample records. *)
Definition project_done : object Z :=
  [(lit "id", VNum 7%Z); (lit "status", VStr (lit " Done ")); (lit "is_active", VBool true)].

Definition project_flagged : object Z :=
  [(lit "id", VStr (lit "p2")); (lit "status", VStr (lit "on hold"));
   (lit "is_active", VStr (lit "YES"))].

Definition project_broken : object Z :=
  [(lit "id", VStr (lit "p3")); (lit "status", VNum 3%Z)].

Definition approval (i : string) (s : ApprovalStatus) : ChittoorProject Z :=
  {| ap_id := lit i; ap_status := s; ap_columns := [(lit "project_name", VStr (lit i))] |}.

(** * Properties *)

(** ** Strings *)

Lemma str_eqb_eq (a b : str) : str_eqb a b = true <-> a = b.
Proof.
  unfold str_eqb. destruct (list_eq_dec ascii_dec a b); split; congruence.
Qed.

Lemma str_eqb_refl (a : str) : str_eqb a a = true.
Proof. now apply str_eqb_eq. Qed.

Lemma str_eqb_neq (a b : str) : str_eqb a b = false <-> a <> b.
Proof.
  unfold str_eqb. destruct (list_eq_dec ascii_dec a b); split; congruence.
Qed.

Lemma str_eqb_sym (a b : str) : str_eqb a b = str_eqb b a.
Proof.
  destruct (str_eqb b a) eqn:E.
  - apply str_eqb_eq in E. subst. apply str_eqb_refl.
  - apply str_eqb_neq in E. apply str_eqb_neq. congruence.
Qed.

Lemma truthy_nonempty (s : str) : truthy s = true <-> s <> [].
Proof. destruct s; simpl; split; congruence. Qed.

Lemma truthy_str_eqb_nil (s : str) : truthy s = negb (str_eqb s []).
Proof. destruct s; reflexivity. Qed.

Lemma In_all_ascii (a : ascii) : In a all_ascii.
Proof.
  unfold all_ascii. rewrite <- (ascii_nat_embedding a).
  apply in_map, in_seq. pose proof (nat_ascii_bounded a). lia.
Qed.

Lemma forall_ascii (P : ascii -> bool) :
  forallb P all_ascii = true -> forall a, P a = true.
Proof.
  intros H a. rewrite forallb_forall in H. apply H, In_all_ascii.
Qed.

Lemma forall_ascii2 (P : ascii -> ascii -> bool) :
  forallb (fun a => forallb (P a) all_ascii) all_ascii = true ->
  forall a b, P a b = true.
Proof.
  intros H a b. apply (forall_ascii (P a)). now apply (forall_ascii _ H).
Qed.

(** White space *)

Lemma trimStart_split (s : str) :
  exists w, all_ws w /\ s = w ++ trimStart s.
Proof.
  induction s as [|c s IH]; simpl.
  - now exists [].
  - destruct (isWhiteSpace c) eqn:E.
    + destruct IH as [w [Hw Hs]]. exists (c :: w). split.
      * unfold all_ws. simpl. now rewrite E.
      * simpl. now f_equal.
    + now exists [].
Qed.

Lemma trimStart_head (s : str) :
  trimStart s = [] \/ exists c t, trimStart s = c :: t /\ isWhiteSpace c = false.
Proof.
  induction s as [|c s IH]; simpl; auto.
  destruct (isWhiteSpace c) eqn:E; auto. right. now exists c, s.
Qed.

Lemma trimStart_ws_app (w s : str) : all_ws w -> trimStart (w ++ s) = trimStart s.
Proof.
  unfold all_ws. induction w as [|c w IH]; simpl; auto.
  intros H. apply andb_true_iff in H as [-> H]. auto.
Qed.

Lemma trimStart_all_ws (w : str) : all_ws w -> trimStart w = [].
Proof.
  intros H. rewrite <- (app_nil_r w). now rewrite trimStart_ws_app.
Qed.

Lemma trimStart_nil (s : str) : trimStart s = [] -> all_ws s.
Proof.
  intros H. destruct (trimStart_split s) as [w [Hw Hs]].
  rewrite H, app_nil_r in Hs. now subst.
Qed.

Lemma trimStart_cons_nonws (c : ascii) (s : str) :
  isWhiteSpace c = false -> trimStart (c :: s) = c :: s.
Proof. intros H. simpl. now rewrite H. Qed.

Lemma trimStart_app_nonws (a b : str) (c : ascii) :
  isWhiteSpace c = false -> trimStart (a ++ c :: b) = trimStart a ++ c :: b.
Proof.
  intros H. induction a as [|x a IH]; simpl.
  - now rewrite H.
  - destruct (isWhiteSpace x); auto.
Qed.

Lemma trimStart_idem (s : str) : trimStart (trimStart s) = trimStart s.
Proof.
  destruct (trimStart_head s) as [->|[c [t [-> H]]]]; auto.
  now apply trimStart_cons_nonws.
Qed.

Lemma all_ws_rev (w : str) : all_ws w -> all_ws (rev w).
Proof.
  unfold all_ws. rewrite !forallb_forall. intros H x Hx. apply H. now apply in_rev.
Qed.

Lemma all_ws_app (a b : str) : all_ws (a ++ b) <-> all_ws a /\ all_ws b.
Proof. unfold all_ws. rewrite forallb_app. apply andb_true_iff. Qed.

Lemma trimEnd_split (s : str) :
  exists w, all_ws w /\ s = trimEnd s ++ w.
Proof.
  destruct (trimStart_split (rev s)) as [w [Hw Hs]].
  exists (rev w). split.
  - now apply all_ws_rev.
  - unfold trimEnd. rewrite <- rev_app_distr, <- Hs. now rewrite rev_involutive.
Qed.

Lemma trimEnd_app_nonws (a b : str) (c : ascii) :
  isWhiteSpace c = false -> trimEnd (a ++ c :: b) = a ++ c :: trimEnd b.
Proof.
  intros H. unfold trimEnd. rewrite rev_app_distr. simpl.
  rewrite <- app_assoc. simpl. rewrite trimStart_app_nonws by assumption.
  rewrite rev_app_distr. simpl. rewrite rev_involutive, <- app_assoc. reflexivity.
Qed.

Lemma trimEnd_app_ws (s w : str) : all_ws w -> trimEnd (s ++ w) = trimEnd s.
Proof.
  intros H. unfold trimEnd. rewrite rev_app_distr.
  now rewrite trimStart_ws_app by now apply all_ws_rev.
Qed.

Lemma trimEnd_all_ws (w : str) : all_ws w -> trimEnd w = [].
Proof.
  intros H. unfold trimEnd. now rewrite trimStart_all_ws by now apply all_ws_rev.
Qed.

Lemma trimEnd_nil_inv (s : str) : trimEnd s = [] -> all_ws s.
Proof.
  intros H. destruct (trimEnd_split s) as [w [Hw Hs]]. rewrite H in Hs. now subst.
Qed.

(** [trim] strips both ends, in either order. *)
Lemma trim_comm (s : str) : trimStart (trimEnd s) = trimEnd (trimStart s).
Proof.
  destruct (trimStart_split s) as [w [Hw Hs]].
  destruct (trimStart_head s) as [E|[c [t [E Hc]]]].
  - rewrite E in *. rewrite app_nil_r in Hs. subst w.
    rewrite trimEnd_all_ws by assumption. reflexivity.
  - rewrite E in *. rewrite Hs at 1.
    rewrite trimEnd_app_nonws by assumption.
    rewrite trimStart_app_nonws by assumption.
    rewrite trimStart_all_ws by assumption. simpl.
    symmetry. exact (trimEnd_app_nonws [] t c Hc).
Qed.

Lemma trimEnd_idem (s : str) : trimEnd (trimEnd s) = trimEnd s.
Proof.
  unfold trimEnd. now rewrite rev_involutive, trimStart_idem.
Qed.

Lemma trim_idem (s : str) : trim (trim s) = trim s.
Proof.
  unfold trim. now rewrite trim_comm, trimEnd_idem, trimStart_idem.
Qed.

Lemma trim_trimStart (s : str) : trim (trimStart s) = trim s.
Proof. unfold trim. now rewrite trimStart_idem. Qed.

Lemma trim_trimEnd (s : str) : trim (trimEnd s) = trim s.
Proof. unfold trim. now rewrite trim_comm, trimEnd_idem. Qed.

Lemma trim_nil_iff (s : str) : trim s = [] <-> all_ws s.
Proof.
  unfold trim. split.
  - intros H. apply trimEnd_nil_inv in H.
    destruct (trimStart_split s) as [w [Hw Hs]]. rewrite Hs.
    now apply all_ws_app.
  - intros H. now rewrite trimStart_all_ws.
Qed.

Lemma trim_app_nonws (a b : str) (c : ascii) :
  isWhiteSpace c = false -> trim (a ++ c :: b) = trimStart a ++ c :: trimEnd b.
Proof.
  intros H. unfold trim. rewrite trimStart_app_nonws by assumption.
  now apply trimEnd_app_nonws.
Qed.

Lemma no_ws_trimStart (s : str) : no_ws s -> trimStart s = s.
Proof.
  destruct s as [|c s]; auto. unfold no_ws. simpl.
  intros H. apply andb_true_iff in H as [H _]. now destruct (isWhiteSpace c).
Qed.

Lemma no_ws_rev (s : str) : no_ws s -> no_ws (rev s).
Proof.
  unfold no_ws. rewrite !forallb_forall. intros H x Hx. apply H. now apply in_rev.
Qed.

Lemma no_ws_trimEnd (s : str) : no_ws s -> trimEnd s = s.
Proof.
  intros H. unfold trimEnd.
  rewrite no_ws_trimStart by now apply no_ws_rev. apply rev_involutive.
Qed.

Lemma In_trimStart (c : ascii) (s : str) : In c (trimStart s) -> In c s.
Proof.
  destruct (trimStart_split s) as [w [_ Hs]]. intros H. rewrite Hs.
  apply in_or_app. now right.
Qed.

Lemma In_trimEnd (c : ascii) (s : str) : In c (trimEnd s) -> In c s.
Proof.
  destruct (trimEnd_split s) as [w [_ Hs]]. intros H. rewrite Hs.
  apply in_or_app. now left.
Qed.

Lemma In_trim (c : ascii) (s : str) : In c (trim s) -> In c s.
Proof. intros H. now apply In_trimStart, In_trimEnd. Qed.

(** [lastIndexOf], [slice] and the last comma *)

Lemma lastIndexOf_from_absent (c : ascii) (s : str) (i found : Z) :
  ~ In c s -> lastIndexOf_from c s i found = found.
Proof.
  revert i found. induction s as [|x s IH]; simpl; intros i found H; auto.
  destruct (Ascii.eqb x c) eqn:E.
  - apply Ascii.eqb_eq in E. tauto.
  - apply IH. tauto.
Qed.

Lemma lastIndexOf_from_last (c : ascii) (a b : str) (i found : Z) :
  ~ In c b ->
  lastIndexOf_from c (a ++ c :: b) i found = (i + Z.of_nat (length a))%Z.
Proof.
  intros Hb. revert i found. induction a as [|x a IH]; intros i found.
  - simpl. rewrite Ascii.eqb_refl. rewrite lastIndexOf_from_absent by assumption. lia.
  - cbn [app lastIndexOf_from length]. rewrite IH. lia.
Qed.

Lemma lastIndexOf_absent (c : ascii) (s : str) :
  ~ In c s -> lastIndexOf s c = (-1)%Z.
Proof. apply lastIndexOf_from_absent. Qed.

Lemma lastIndexOf_last (c : ascii) (a b : str) :
  ~ In c b -> lastIndexOf (a ++ c :: b) c = Z.of_nat (length a).
Proof. intros H. unfold lastIndexOf. now rewrite lastIndexOf_from_last. Qed.

Lemma slice_prefix (a b : str) :
  slice (a ++ b) 0 (Some (Z.of_nat (length a))) = a.
Proof.
  unfold slice, relIndex. rewrite length_app.
  replace (0 <? 0)%Z with false by reflexivity.
  replace (Z.of_nat (length a) <? 0)%Z with false by (symmetry; apply Z.ltb_ge; lia).
  rewrite Z.min_l by lia. rewrite Z.min_l by lia.
  rewrite Z.sub_0_r, Z.max_l by lia. rewrite Nat2Z.id. simpl.
  rewrite firstn_app, firstn_all, Nat.sub_diag. simpl. apply app_nil_r.
Qed.

Lemma slice_suffix (a b : str) (c : ascii) :
  slice (a ++ c :: b) (Z.of_nat (length a) + 1) None = b.
Proof.
  unfold slice, relIndex. rewrite length_app. simpl length.
  replace (Z.of_nat (length a) + 1 <? 0)%Z with false by (symmetry; apply Z.ltb_ge; lia).
  rewrite Z.min_l by lia.
  replace (Z.to_nat (Z.of_nat (length a) + 1)) with (length (a ++ [c]))
    by (rewrite length_app; simpl; lia).
  replace (a ++ c :: b) with ((a ++ [c]) ++ b) by (now rewrite <- app_assoc).
  rewrite skipn_app, skipn_all, Nat.sub_diag. simpl.
  apply firstn_all2. lia.
Qed.

Lemma split_last_comma_none (s : str) :
  Spec.split_last_comma s = None <-> ~ In comma s.
Proof.
  induction s as [|c s IH]; simpl.
  - tauto.
  - destruct (Spec.split_last_comma s) as [[a b]|].
    + split; [discriminate|]. intros H. exfalso. apply H. right.
      destruct (in_dec ascii_dec comma s) as [i|n]; auto.
      apply IH in n. discriminate.
    + destruct (Ascii.eqb c comma) eqn:E.
      * apply Ascii.eqb_eq in E. split; [discriminate|]. intros H. exfalso. auto.
      * apply Ascii.eqb_neq in E. split; auto. intros _ [H|H]; auto.
        now apply IH in H.
Qed.

Lemma split_last_comma_some (s a b : str) :
  Spec.split_last_comma s = Some (a, b) -> s = a ++ comma :: b /\ ~ In comma b.
Proof.
  revert a b. induction s as [|c s IH]; simpl; intros a b H; [discriminate|].
  destruct (Spec.split_last_comma s) as [[a' b']|] eqn:E.
  - inversion H; subst. destruct (IH a' b eq_refl) as [-> Hb]. auto.
  - destruct (Ascii.eqb c comma) eqn:Ec; [|discriminate].
    apply Ascii.eqb_eq in Ec. inversion H; subst.
    split; auto. now apply split_last_comma_none.
Qed.

(** The last comma determines the two parts. *)
Lemma last_comma_unique (a a' b b' : str) :
  ~ In comma b -> ~ In comma b' ->
  a ++ comma :: b = a' ++ comma :: b' -> a = a' /\ b = b'.
Proof.
  revert a'. induction a as [|x a IH]; intros a' Hb Hb' H.
  - destruct a' as [|y a'].
    + simpl in H. inversion H. auto.
    + simpl in H. inversion H; subst. exfalso. apply Hb.
      apply in_or_app. right. now left.
  - destruct a' as [|y a'].
    + simpl in H. inversion H; subst. exfalso. apply Hb'.
      apply in_or_app. right. now left.
    + simpl in H. inversion H; subst.
      destruct (IH a' Hb Hb' H2) as [-> ->]. auto.
Qed.

(** ** Regular expressions: [matches] decides the language *)

Lemma nullable_lang (r : Regex.regex) :
  Regex.nullable r = true <-> Regex.lang r [].
Proof.
  induction r; simpl.
  - split; [discriminate|]. intros H. inversion H.
  - split; auto. intros _. constructor.
  - split; [discriminate|]. intros H. inversion H.
  - rewrite andb_true_iff, IHr1, IHr2. split.
    + intros [H1 H2]. exact (Regex.lang_seq _ _ [] [] H1 H2).
    + intros H. inversion H; subst.
      match goal with E : _ ++ _ = [] |- _ => apply app_eq_nil in E as [-> ->] end.
      auto.
  - rewrite orb_true_iff, IHr1, IHr2. split.
    + intros [H|H]; [now apply Regex.lang_alt_l | now apply Regex.lang_alt_r].
    + intros H. inversion H; subst; auto.
  - split; auto. intros _. constructor.
Qed.

Lemma star_cons_inv (r : Regex.regex) (c : ascii) (s : str) :
  Regex.lang (Regex.Star r) (c :: s) ->
  exists s1 s2, s = s1 ++ s2 /\ Regex.lang r (c :: s1) /\ Regex.lang (Regex.Star r) s2.
Proof.
  intros H. remember (Regex.Star r) as r' eqn:Er. remember (c :: s) as t eqn:Et.
  revert c s Et. induction H; intros c0 s0 Et; try discriminate.
  inversion Er; subst r0. clear Er.
  destruct s1 as [|x s1].
  - simpl in Et. now apply IHlang2.
  - simpl in Et. inversion Et; subst. exists s1, s2. auto.
Qed.

Lemma deriv_lang (c : ascii) (r : Regex.regex) (s : str) :
  Regex.lang (Regex.deriv c r) s <-> Regex.lang r (c :: s).
Proof.
  revert s. induction r; intros s; simpl.
  - split; intros H; inversion H.
  - split; intros H; inversion H.
  - destruct (p c) eqn:E; split; intros H; inversion H; subst.
    + now constructor.
    + constructor.
    + congruence.
  - destruct (Regex.nullable r1) eqn:N.
    + split.
      * intros H. inversion H; subst.
        -- match goal with H' : Regex.lang (Regex.Seq _ _) _ |- _ => inversion H'; subst end.
           apply (Regex.lang_seq r1 r2 (c :: s1) s2); auto. now apply IHr1.
        -- apply (Regex.lang_seq r1 r2 [] (c :: s)).
           ++ now apply nullable_lang.
           ++ now apply IHr2.
      * intros H. inversion H; subst. destruct s1 as [|x s1].
        -- simpl in *. subst. apply Regex.lang_alt_r. now apply IHr2.
        -- simpl in *. match goal with E : _ :: _ = _ :: _ |- _ => inversion E; subst end.
           apply Regex.lang_alt_l. constructor; auto. now apply IHr1.
    + split.
      * intros H. inversion H; subst.
        apply (Regex.lang_seq r1 r2 (c :: s1) s2); auto. now apply IHr1.
      * intros H. inversion H; subst. destruct s1 as [|x s1].
        -- exfalso. apply nullable_lang in H3. congruence.
        -- simpl in *. match goal with E : _ :: _ = _ :: _ |- _ => inversion E; subst end.
           constructor; auto. now apply IHr1.
  - split; intros H; inversion H; subst.
    + apply Regex.lang_alt_l. now apply IHr1.
    + apply Regex.lang_alt_r. now apply IHr2.
    + apply Regex.lang_alt_l. now apply IHr1.
    + apply Regex.lang_alt_r. now apply IHr2.
  - split.
    + intros H. inversion H; subst.
      apply (Regex.lang_star_app r (c :: s1) s2); auto. now apply IHr.
    + intros H. apply star_cons_inv in H as [s1 [s2 [-> [H1 H2]]]].
      constructor; auto. now apply IHr.
Qed.

Lemma matches_lang (r : Regex.regex) (s : str) :
  Regex.matches r s = true <-> Regex.lang r s.
Proof.
  revert r. induction s as [|c s IH]; intros r; simpl.
  - apply nullable_lang.
  - rewrite IH. apply deriv_lang.
Qed.

(** ** The header pattern *)

(** On the code units of the model the case folding of the [i] flag and
    [toLowerCase] identify the same characters. *)
Lemma canonicalize_lowerChar (x c : ascii) :
  (Regex.canonicalize x =? Regex.canonicalize c)%N = Ascii.eqb (lowerChar x) (lowerChar c).
Proof.
  apply eqb_true_iff.
  exact (forall_ascii2
           (fun x c => Bool.eqb (Regex.canonicalize x =? Regex.canonicalize c)%N
                         (Ascii.eqb (lowerChar x) (lowerChar c)))
           ltac:(vm_compute; reflexivity) x c).
Qed.

Lemma lowerChar_ws (x : ascii) : isWhiteSpace (lowerChar x) = isWhiteSpace x.
Proof.
  apply eqb_true_iff.
  exact (forall_ascii (fun x => Bool.eqb (isWhiteSpace (lowerChar x)) (isWhiteSpace x))
           ltac:(vm_compute; reflexivity) x).
Qed.

Lemma lowerChar_comma (x : ascii) : Ascii.eqb (lowerChar x) comma = Ascii.eqb x comma.
Proof.
  apply eqb_true_iff.
  exact (forall_ascii (fun x => Bool.eqb (Ascii.eqb (lowerChar x) comma) (Ascii.eqb x comma))
           ltac:(vm_compute; reflexivity) x).
Qed.

Lemma lowerChar_idem (x : ascii) : lowerChar (lowerChar x) = lowerChar x.
Proof.
  apply Ascii.eqb_eq.
  exact (forall_ascii (fun x => Ascii.eqb (lowerChar (lowerChar x)) (lowerChar x))
           ltac:(vm_compute; reflexivity) x).
Qed.

Lemma toLowerCase_idem (s : str) : toLowerCase (toLowerCase s) = toLowerCase s.
Proof.
  unfold toLowerCase. rewrite map_map. apply map_ext. apply lowerChar_idem.
Qed.

Lemma toLowerCase_length (s : str) : length (toLowerCase s) = length s.
Proof. apply length_map. Qed.

Lemma toLowerCase_app (a b : str) : toLowerCase (a ++ b) = toLowerCase a ++ toLowerCase b.
Proof. apply map_app. Qed.

Lemma toLowerCase_no_ws (s : str) : no_ws (toLowerCase s) -> no_ws s.
Proof.
  unfold no_ws, toLowerCase. induction s as [|x s IH]; simpl; auto.
  rewrite lowerChar_ws. intros H. apply andb_true_iff in H as [-> H]. auto.
Qed.

Lemma toLowerCase_no_comma (s : str) : ~ In comma (toLowerCase s) -> ~ In comma s.
Proof.
  intros H Hin. apply H. unfold toLowerCase.
  replace comma with (lowerChar comma) by reflexivity. now apply in_map.
Qed.

Lemma all_ws_no_comma (w : str) : all_ws w -> ~ In comma w.
Proof.
  unfold all_ws. rewrite forallb_forall. intros H Hin.
  apply H in Hin. discriminate.
Qed.

Lemma ci_eq_iff (a b : str) : Spec.ci_eq a b = true <-> toLowerCase a = toLowerCase b.
Proof. apply str_eqb_eq. Qed.

Lemma ci_string_lang (p V : str) :
  Regex.lang (Regex.ci_string p) V <-> toLowerCase V = toLowerCase p.
Proof.
  revert V. induction p as [|c p IH]; intros V; simpl.
  - split.
    + intros H. inversion H. reflexivity.
    + intros H. destruct V; [constructor | discriminate].
  - split.
    + intros H. inversion H; subst.
      match goal with H' : Regex.lang (Regex.ci_char _) _ |- _ => inversion H'; subst end.
      simpl. f_equal.
      * apply Ascii.eqb_eq. now rewrite <- canonicalize_lowerChar.
      * now apply IH.
    + intros H. destruct V as [|x V]; [discriminate|].
      simpl in H. inversion H.
      apply (Regex.lang_seq (Regex.ci_char c) (Regex.ci_string p) [x] V).
      * constructor. rewrite canonicalize_lowerChar. now apply Ascii.eqb_eq.
      * now apply IH.
Qed.

Lemma ci_char_comma_lang (s : str) :
  Regex.lang (Regex.ci_char comma) s <-> s = [comma].
Proof.
  split.
  - intros H. inversion H; subst. f_equal.
    rewrite canonicalize_lowerChar in H1.
    change (lowerChar comma) with comma in H1.
    rewrite lowerChar_comma in H1. now apply Ascii.eqb_eq.
  - intros ->. now constructor.
Qed.

Lemma ws_star_lang (w : str) : Regex.lang Regex.ws_star w <-> all_ws w.
Proof.
  unfold Regex.ws_star. split.
  - intros H. remember (Regex.Star (Regex.Class isWhiteSpace)) as r eqn:Er.
    induction H; try discriminate.
    + reflexivity.
    + inversion Er; subst. apply all_ws_app. split; auto.
      inversion H; subst. unfold all_ws. simpl.
      match goal with E : isWhiteSpace _ = true |- _ => now rewrite E end.
  - unfold all_ws. induction w as [|c w IH]; simpl; intros H.
    + constructor.
    + apply andb_true_iff in H as [Hc Hw].
      apply (Regex.lang_star_app (Regex.Class isWhiteSpace) [c] w).
      * now constructor.
      * now apply IH.
Qed.

Lemma lang_seq_iff (r1 r2 : Regex.regex) (s : str) :
  Regex.lang (Regex.Seq r1 r2) s <->
  exists s1 s2, s = s1 ++ s2 /\ Regex.lang r1 s1 /\ Regex.lang r2 s2.
Proof.
  split.
  - intros H. inversion H; subst. eauto.
  - intros [s1 [s2 [-> [H1 H2]]]]. now constructor.
Qed.

(** The strings accepted by the header pattern. *)
Lemma headerRe_lang (s : str) :
  Regex.test Regex.headerRe s = true <->
  exists V w1 w2 M,
    s = V ++ w1 ++ comma :: w2 ++ M /\
    toLowerCase V = lit "village" /\ all_ws w1 /\ all_ws w2 /\
    toLowerCase M = lit "mandal".
Proof.
  unfold Regex.test. rewrite matches_lang. unfold Regex.headerRe. split.
  - intros H.
    apply lang_seq_iff in H as [V [t1 [-> [HV H1]]]].
    apply lang_seq_iff in H1 as [w1 [t2 [-> [Hw1 H2]]]].
    apply lang_seq_iff in H2 as [c [t3 [-> [Hc H3]]]].
    apply lang_seq_iff in H3 as [w2 [M [-> [Hw2 HM]]]].
    apply ci_char_comma_lang in Hc. subst c.
    exists V, w1, w2, M. repeat split.
    + now apply ci_string_lang in HV.
    + now apply ws_star_lang.
    + now apply ws_star_lang.
    + now apply ci_string_lang in HM.
  - intros [V [w1 [w2 [M [-> [HV [Hw1 [Hw2 HM]]]]]]]].
    constructor; [now apply ci_string_lang|].
    constructor; [now apply ws_star_lang|].
    apply (Regex.lang_seq _ _ [comma] (w2 ++ M)); [now apply ci_char_comma_lang|].
    constructor; [now apply ws_star_lang | now apply ci_string_lang].
Qed.

Lemma village_word (V : str) :
  toLowerCase V = lit "village" -> no_ws V /\ ~ In comma V.
Proof.
  intros H. split.
  - apply toLowerCase_no_ws. now rewrite H.
  - apply toLowerCase_no_comma. rewrite H. vm_compute. intuition discriminate.
Qed.

Lemma mandal_word (M : str) :
  toLowerCase M = lit "mandal" -> no_ws M /\ ~ In comma M.
Proof.
  intros H. split.
  - apply toLowerCase_no_ws. now rewrite H.
  - apply toLowerCase_no_comma. rewrite H. vm_compute. intuition discriminate.
Qed.

Lemma is_header_iff (v m : str) :
  Spec.is_header v m = true <->
  toLowerCase v = lit "village" /\ toLowerCase m = lit "mandal".
Proof.
  unfold Spec.is_header. rewrite andb_true_iff, !ci_eq_iff. reflexivity.
Qed.

(** On a trimmed line the header pattern accepts exactly the lines whose
    two cells are the header words. *)
Lemma header_test_cells (a b : str) :
  ~ In comma b ->
  Regex.test Regex.headerRe (trimStart a ++ comma :: trimEnd b)
  = Spec.is_header (trim a) (trim b).
Proof.
  intros Hb. apply eq_true_iff_eq. rewrite headerRe_lang, is_header_iff. split.
  - intros [V [w1 [w2 [M [E [HV [Hw1 [Hw2 HM]]]]]]]].
    destruct (village_word V HV) as [HV1 HV2].
    destruct (mandal_word M HM) as [HM1 HM2].
    rewrite app_assoc in E.
    apply last_comma_unique in E as [Ea Eb].
    + split.
      * unfold trim. rewrite Ea, trimEnd_app_ws by assumption.
        now rewrite no_ws_trimEnd.
      * rewrite <- trim_trimEnd, Eb. unfold trim.
        rewrite trimStart_ws_app by assumption.
        now rewrite no_ws_trimStart, no_ws_trimEnd.
    + intros H. now apply In_trimEnd in H.
    + intros H. apply in_app_or in H as [H|H]; auto.
      now apply all_ws_no_comma in H.
  - intros [HV HM].
    destruct (trimEnd_split (trimStart a)) as [w1 [Hw1 E1]].
    destruct (trimStart_split (trimEnd b)) as [w2 [Hw2 E2]].
    exists (trim a), w1, w2, (trim b). repeat split; auto.
    rewrite app_assoc. unfold trim at 1. rewrite <- E1.
    unfold trim. rewrite <- trim_comm, <- E2. reflexivity.
Qed.

(** ** The local parse *)

Lemma blank_all_ws (s : str) : Spec.blank s = true <-> all_ws s.
Proof. reflexivity. Qed.

Lemma parseLine_row (out : list Row) (line : str) :
  parseLine out line
  = out ++ match Spec.parse_line line with Some r => [r] | None => [] end.
Proof.
  unfold parseLine, Spec.parse_line.
  destruct (Spec.split_last_comma line) as [[a b]|] eqn:E.
  - apply split_last_comma_some in E as [-> Hb].
    assert (Hblank : Spec.blank (a ++ comma :: b) = false).
    { destruct (Spec.blank (a ++ comma :: b)) eqn:B; auto.
      apply blank_all_ws, all_ws_no_comma in B. exfalso. apply B.
      apply in_or_app. right. now left. }
    rewrite Hblank. rewrite (trim_app_nonws a b comma eq_refl).
    assert (Hb' : ~ In comma (trimEnd b)) by (intros H; now apply In_trimEnd in H).
    replace (truthy (trimStart a ++ comma :: trimEnd b)) with true
      by (now destruct (trimStart a)).
    cbn [negb]. rewrite header_test_cells by assumption.
    destruct (Spec.is_header (trim a) (trim b)); [now rewrite app_nil_r|].
    rewrite lastIndexOf_last by assumption.
    replace (Z.of_nat (length (trimStart a)) =? -1)%Z with false
      by (symmetry; apply Z.eqb_neq; lia).
    rewrite slice_prefix, slice_suffix, trim_trimStart, trim_trimEnd.
    rewrite !truthy_str_eqb_nil.
    destruct (str_eqb (trim a) []), (str_eqb (trim b) []); simpl;
      now rewrite ?app_nil_r.
  - apply split_last_comma_none in E.
    destruct (Spec.blank line) eqn:B.
    + apply blank_all_ws, trim_nil_iff in B. rewrite B. simpl. now rewrite app_nil_r.
    + assert (Hne : truthy (trim line) = true).
      { apply truthy_nonempty. intros H. apply trim_nil_iff, blank_all_ws in H. congruence. }
      rewrite Hne. cbn [negb].
      assert (Hc : ~ In comma (trim line)) by (intros H; now apply In_trim in H).
      assert (Hh : Regex.test Regex.headerRe (trim line) = false).
      { destruct (Regex.test Regex.headerRe (trim line)) eqn:T; auto.
        apply headerRe_lang in T as [V [w1 [w2 [M [T _]]]]].
        exfalso. apply Hc. rewrite T.
        apply in_or_app. right. apply in_or_app. right. now left. }
      rewrite Hh, lastIndexOf_absent by assumption. simpl. now rewrite app_nil_r.
Qed.

Lemma fold_parseLine (lines : list str) (out : list Row) :
  fold_left parseLine lines out
  = out ++ flat_map (fun line => match Spec.parse_line line with
                                 | Some r => [r]
                                 | None => []
                                 end) lines.
Proof.
  revert out. induction lines as [|l lines IH]; intros out; simpl.
  - now rewrite app_nil_r.
  - rewrite IH, parseLine_row, <- app_assoc. reflexivity.
Qed.

Lemma split_last_comma_app (a b : str) :
  ~ In comma b -> Spec.split_last_comma (a ++ comma :: b) = Some (a, b).
Proof.
  intros Hb. destruct (Spec.split_last_comma (a ++ comma :: b)) as [[a' b']|] eqn:E.
  - apply split_last_comma_some in E as [E Hb'].
    apply last_comma_unique in E as [-> ->]; auto.
  - apply split_last_comma_none in E. exfalso. apply E.
    apply in_or_app. right. now left.
Qed.

Lemma split_from_one_line (cur s : str) :
  ~ In LF s -> split_from cur s = [rev cur ++ s].
Proof.
  revert cur. induction s as [|c s IH]; intros cur H; simpl.
  - now rewrite app_nil_r.
  - assert (Hc : Ascii.eqb c LF = false).
    { apply Ascii.eqb_neq. intros ->. apply H. now left. }
    assert (Hs : ~ In LF s) by (intros Hin; apply H; now right).
    assert (R : split_from (c :: cur) s = [rev cur ++ c :: s]).
    { rewrite IH by assumption. simpl. now rewrite <- app_assoc. }
    rewrite Hc. destruct (Ascii.eqb c CR); auto.
    destruct s as [|d s]; auto.
    destruct (Ascii.eqb d LF) eqn:Ed; auto.
    apply Ascii.eqb_eq in Ed. subst d. exfalso. apply Hs. now left.
Qed.

(** A header line, in any letter case, gives no row. *)
Lemma header_any_case (h : str) :
  toLowerCase h = lit "village, mandal" -> parseCSV h = [].
Proof.
  intros H.
  assert (NL : ~ In LF h).
  { intros Hin. apply (in_map lowerChar) in Hin. fold (toLowerCase h) in Hin.
    rewrite H in Hin. vm_compute in Hin. intuition discriminate. }
  change (lit "village, mandal")
    with (lit "village" ++ comma :: " "%char :: lit "mandal") in H.
  unfold toLowerCase in H.
  apply map_eq_app in H as [V [t [-> [HV Ht]]]].
  destruct t as [|c [|w M]]; try discriminate.
  simpl in Ht. inversion Ht as [[Hc Hw HM]].
  assert (c = comma).
  { apply Ascii.eqb_eq. rewrite <- lowerChar_comma, Hc. reflexivity. }
  subst c.
  assert (Ww : isWhiteSpace w = true) by (now rewrite <- lowerChar_ws, Hw).
  destruct (village_word V HV) as [HV1 HV2].
  destruct (mandal_word M HM) as [HM1 HM2].
  assert (Hb : ~ In comma (w :: M)).
  { intros [E|E]; auto. subst w. discriminate. }
  unfold parseCSV, split_lines. rewrite split_from_one_line by assumption.
  simpl rev. simpl app at 1. simpl fold_left. rewrite parseLine_row.
  unfold Spec.parse_line. rewrite split_last_comma_app by assumption.
  destruct (Spec.blank (V ++ comma :: w :: M)); auto.
  replace (Spec.is_header (trim V) (trim (w :: M))) with true; auto.
  symmetry. apply is_header_iff. split.
  - unfold trim. now rewrite no_ws_trimStart, no_ws_trimEnd.
  - unfold trim. simpl trimStart. rewrite Ww.
    now rewrite no_ws_trimStart, no_ws_trimEnd.
Qed.

Lemma parseCSV_parse (csv : str) : parseCSV csv = Spec.parse csv.
Proof. unfold parseCSV, Spec.parse. now rewrite fold_parseLine. Qed.

(** C3.  For every text blob, [parseCSV] returns exactly the rows of the
    specification's procedure: blank lines and header lines (cells
    Village and Mandal in any letter case) give no row; every other line
    is split at its last comma, both parts are trimmed, and the row is
    dropped when a part is empty (a line without a comma has no parts and
    gives no row).  The line "A, B Village,X Mandal" gives village
    "A, B Village" and mandal "X Mandal", and the header line is skipped
    in every letter case. *)
Theorem parseCSV_is_spec_parse :
  (forall csv : str, parseCSV csv = Spec.parse csv) /\
  parseCSV (lit "A, B Village,X Mandal")
  = [{| village := lit "A, B Village"; mandal := lit "X Mandal" |}] /\
  (forall h : str, toLowerCase h = toLowerCase (lit "Village, Mandal") -> parseCSV h = []).
Proof.
  split; [exact parseCSV_parse | split; [reflexivity | exact header_any_case]].
Qed.

Lemma parseCSV_is_spec_parse_witness : parseCSV (lit "VILLAGE, mandal") = [].
Proof.
  apply (proj2 (proj2 parseCSV_is_spec_parse) (lit "VILLAGE, mandal")).
  reflexivity.
Defined.

(** ** Insertion-ordered maps and sets *)

Lemma existsb_str_In (k : str) (s : list str) :
  existsb (str_eqb k) s = true <-> In k s.
Proof.
  rewrite existsb_exists. split.
  - intros [x [Hx E]]. apply str_eqb_eq in E. now subst.
  - intros H. exists k. split; auto. apply str_eqb_refl.
Qed.

Lemma find_app_first {A : Type} (p : A -> bool) (l1 l2 : list A) :
  find p (l1 ++ l2) = match find p l1 with Some x => Some x | None => find p l2 end.
Proof.
  induction l1 as [|x l1 IH]; simpl; auto. now destruct (p x).
Qed.

Lemma set_keys {V : Type} (m : JsMap.t V) (k : str) (v : V) :
  JsMap.keys (JsMap.set m k v) = JsSet.add (JsMap.keys m) k.
Proof.
  unfold JsSet.add. induction m as [|[k0 v0] m IH]; simpl; auto.
  rewrite (str_eqb_sym k k0). destruct (str_eqb k0 k); simpl; auto.
  rewrite IH. now destruct (existsb (str_eqb k) (JsMap.keys m)).
Qed.

Lemma get_set {V : Type} (m : JsMap.t V) (k k' : str) (v : V) :
  JsMap.get (JsMap.set m k v) k' = if str_eqb k k' then Some v else JsMap.get m k'.
Proof.
  induction m as [|[k0 v0] m IH]; simpl.
  - reflexivity.
  - destruct (str_eqb k0 k) eqn:E0; simpl.
    + apply str_eqb_eq in E0. subst k0. now destruct (str_eqb k k').
    + rewrite IH. destruct (str_eqb k0 k') eqn:E1; auto.
      apply str_eqb_eq in E1. subst k0. now rewrite (str_eqb_sym k k'), E0.
Qed.

Lemma set_keyed {V : Type} (f : V -> str) (m : JsMap.t V) (v : V) :
  JsMap.keyed f m -> JsMap.keyed f (JsMap.set m (f v) v).
Proof.
  unfold JsMap.keyed. induction m as [|[k0 v0] m IH]; simpl; intros H.
  - now repeat constructor.
  - inversion H; subst. destruct (str_eqb k0 (f v)) eqn:E.
    + apply str_eqb_eq in E. constructor; auto.
    + constructor; auto.
Qed.

Lemma add_In (s : list str) (x y : str) :
  In y (JsSet.add s x) <-> In y s \/ y = x.
Proof.
  unfold JsSet.add. destruct (existsb (str_eqb x) s) eqn:E.
  - apply existsb_str_In in E. split; auto. intros [H| ->]; auto.
  - rewrite in_app_iff. simpl. intuition.
Qed.

Lemma add_NoDup (s : list str) (x : str) : NoDup s -> NoDup (JsSet.add s x).
Proof.
  intros H. unfold JsSet.add. destruct (existsb (str_eqb x) s) eqn:E; auto.
  apply NoDup_app; auto.
  - repeat constructor. intros [].
  - intros a Ha [<-|[]]. apply existsb_str_In in Ha. congruence.
Qed.

Lemma fold_add_In (ks acc : list str) (y : str) :
  In y (fold_left JsSet.add ks acc) <-> In y acc \/ In y ks.
Proof.
  revert acc. induction ks as [|k ks IH]; intros acc; simpl.
  - tauto.
  - rewrite IH, add_In. intuition.
Qed.

Lemma fold_add_NoDup (ks acc : list str) :
  NoDup acc -> NoDup (fold_left JsSet.add ks acc).
Proof.
  revert acc. induction ks as [|k ks IH]; intros acc H; simpl; auto.
  now apply IH, add_NoDup.
Qed.

Lemma of_list_In (l : list str) (y : str) : In y (JsSet.of_list l) <-> In y l.
Proof. unfold JsSet.of_list. rewrite fold_add_In. simpl. tauto. Qed.

Lemma of_list_NoDup (l : list str) : NoDup (JsSet.of_list l).
Proof. apply fold_add_NoDup. constructor. Qed.

(** The rows filed by the loops over [map.set] *)

Lemma fold_setRow_keys (l : list Row) (m : JsMap.t Row) :
  JsMap.keys (fold_left setRow l m) = fold_left JsSet.add (map key l) (JsMap.keys m).
Proof.
  revert m. induction l as [|r l IH]; intros m; simpl; auto.
  rewrite IH. unfold setRow. now rewrite set_keys.
Qed.

Lemma fold_setRow_keyed (l : list Row) (m : JsMap.t Row) :
  JsMap.keyed key m -> JsMap.keyed key (fold_left setRow l m).
Proof.
  revert m. induction l as [|r l IH]; intros m H; simpl; auto.
  apply IH. now apply set_keyed.
Qed.

Lemma last_with_key_cons (k : str) (r : Row) (l : list Row) :
  Spec.last_with_key k (r :: l)
  = match Spec.last_with_key k l with
    | Some x => Some x
    | None => if str_eqb (key r) k then Some r else None
    end.
Proof.
  unfold Spec.last_with_key. simpl. rewrite find_app_first. reflexivity.
Qed.

Lemma last_with_key_app (k : str) (l1 l2 : list Row) :
  Spec.last_with_key k (l1 ++ l2)
  = match Spec.last_with_key k l2 with
    | Some x => Some x
    | None => Spec.last_with_key k l1
    end.
Proof.
  unfold Spec.last_with_key. now rewrite rev_app_distr, find_app_first.
Qed.

Lemma last_with_key_some (k : str) (l : list Row) (r : Row) :
  Spec.last_with_key k l = Some r -> In r l /\ key r = k.
Proof.
  unfold Spec.last_with_key. intros H. apply find_some in H as [H1 H2].
  split; [now apply in_rev | now apply str_eqb_eq].
Qed.

Lemma last_with_key_none (k : str) (l : list Row) :
  Spec.last_with_key k l = None -> forall r, In r l -> key r <> k.
Proof.
  unfold Spec.last_with_key. intros H r Hr E.
  apply in_rev in Hr. pose proof (find_none _ _ H r Hr) as N. simpl in N.
  apply str_eqb_neq in N. contradiction.
Qed.

Lemma fold_setRow_get (l : list Row) (m : JsMap.t Row) (k : str) :
  JsMap.get (fold_left setRow l m) k
  = match Spec.last_with_key k l with
    | Some r => Some r
    | None => JsMap.get m k
    end.
Proof.
  revert m. induction l as [|r l IH]; intros m.
  - reflexivity.
  - simpl fold_left. rewrite IH, last_with_key_cons.
    destruct (Spec.last_with_key k l); auto.
    unfold setRow. rewrite get_set. now destruct (str_eqb (key r) k).
Qed.

Lemma flat_map_agree {A B : Type} (f g : A -> list B) (l : list A) :
  (forall x, In x l -> f x = g x) -> flat_map f l = flat_map g l.
Proof.
  induction l as [|x l IH]; simpl; intros H; auto.
  rewrite (H x) by now left. f_equal. apply IH. intros y Hy. apply H. now right.
Qed.

Lemma values_by_keys {V : Type} (m : JsMap.t V) :
  NoDup (JsMap.keys m) ->
  JsMap.values m
  = flat_map (fun k => match JsMap.get m k with Some v => [v] | None => [] end)
      (JsMap.keys m).
Proof.
  induction m as [|[k v] m IH]; simpl; intros H; auto.
  inversion H as [|? ? Hk Hm]; subst. rewrite str_eqb_refl. simpl. f_equal.
  rewrite IH by assumption. apply flat_map_agree.
  intros k' Hk'. destruct (str_eqb k k') eqn:E; auto.
  apply str_eqb_eq in E. subst. contradiction.
Qed.

Lemma find_values_get (m : JsMap.t Row) (k : str) :
  JsMap.keyed key m ->
  find (fun r => str_eqb (key r) k) (JsMap.values m) = JsMap.get m k.
Proof.
  unfold JsMap.keyed. induction m as [|[k0 r0] m IH]; simpl; intros H; auto.
  inversion H; subst. simpl in *. subst k0.
  destruct (str_eqb (key r0) k); auto.
Qed.

Lemma of_entries_setRow (l : list Row) (m : JsMap.t Row) :
  fold_left (fun m e => JsMap.set m (fst e) (snd e)) (map (fun r => (key r, r)) l) m
  = fold_left setRow l m.
Proof.
  revert m. induction l as [|r l IH]; intros m; simpl; auto.
Qed.

Lemma first_keys_from (l : list Row) (seen acc : list str) :
  (forall x, In x seen <-> In x acc) ->
  fold_left JsSet.add (map key l) acc = acc ++ map key (Spec.dedup_first_from seen l).
Proof.
  revert seen acc. induction l as [|r l IH]; intros seen acc H; simpl.
  - now rewrite app_nil_r.
  - assert (E : existsb (str_eqb (key r)) seen = existsb (str_eqb (key r)) acc).
    { apply eq_true_iff_eq. rewrite !existsb_str_In. apply H. }
    unfold JsSet.add at 2. rewrite E.
    destruct (existsb (str_eqb (key r)) acc) eqn:Ea.
    + now apply IH.
    + rewrite (IH (key r :: seen) (acc ++ [key r])).
      * simpl. now rewrite <- app_assoc.
      * intros x. rewrite in_app_iff. simpl. rewrite H. intuition.
Qed.

Lemma first_keys_of_list (l : list Row) :
  Spec.first_keys l = JsSet.of_list (map key l).
Proof.
  unfold Spec.first_keys, Spec.dedup_first, JsSet.of_list.
  now rewrite (first_keys_from l [] []).
Qed.

(** The map built from one list of rows holds, for every key in the order
    of first occurrence, the last row of that key. *)
Lemma fold_setRow_values (l : list Row) :
  JsMap.values (fold_left setRow l (JsMap.empty Row)) = Spec.dedup_last l.
Proof.
  rewrite values_by_keys.
  - rewrite fold_setRow_keys. unfold Spec.dedup_last. rewrite first_keys_of_list.
    apply flat_map_ext. intros k. rewrite fold_setRow_get.
    now destruct (Spec.last_with_key k l).
  - rewrite fold_setRow_keys. apply fold_add_NoDup. constructor.
Qed.

Lemma uniq_dedup_last (l : list Row) : uniq l = Spec.dedup_last l.
Proof.
  unfold uniq, JsMap.of_entries. rewrite of_entries_setRow. apply fold_setRow_values.
Qed.

Lemma merge_dedup_last (local supa : list Row) :
  merge local supa = Spec.dedup_last (local ++ supa).
Proof.
  unfold merge. rewrite <- fold_left_app. apply fold_setRow_values.
Qed.

Lemma dedup_last_In (l : list Row) (r : Row) : In r (Spec.dedup_last l) -> In r l.
Proof.
  unfold Spec.dedup_last. rewrite in_flat_map. intros [k [_ H]].
  destruct (Spec.last_with_key k l) eqn:E; [|contradiction].
  destruct H as [<-|[]]. now apply last_with_key_some in E.
Qed.

Lemma dedup_last_keys (l : list Row) : map key (Spec.dedup_last l) = Spec.first_keys l.
Proof.
  rewrite <- fold_setRow_values.
  assert (K : JsMap.keyed key (fold_left setRow l (JsMap.empty Row)))
    by (apply fold_setRow_keyed; constructor).
  rewrite first_keys_of_list.
  replace (JsSet.of_list (map key l))
    with (JsMap.keys (fold_left setRow l (JsMap.empty Row)))
    by (now rewrite fold_setRow_keys).
  revert K. unfold JsMap.keyed, JsMap.values, JsMap.keys.
  generalize (fold_left setRow l (JsMap.empty Row)).
  induction t as [|e t IH]; simpl; intros K; auto.
  inversion K; subst. f_equal; auto.
Qed.

Lemma dedup_last_NoDup (l : list Row) : NoDup (map key (Spec.dedup_last l)).
Proof.
  rewrite dedup_last_keys, first_keys_of_list. apply of_list_NoDup.
Qed.

Lemma dedup_last_lookup (l : list Row) (k : str) :
  find (fun r => str_eqb (key r) k) (Spec.dedup_last l) = Spec.last_with_key k l.
Proof.
  rewrite <- fold_setRow_values, find_values_get.
  - rewrite fold_setRow_get. now destruct (Spec.last_with_key k l).
  - apply fold_setRow_keyed. constructor.
Qed.

(** ** Building the mapping *)

Lemma set_fresh {V : Type} (m : JsMap.t V) (k : str) (v : V) :
  ~ In k (JsMap.keys m) -> JsMap.set m k v = m ++ [(k, v)].
Proof.
  induction m as [|[k0 v0] m IH]; simpl; intros H; auto.
  destruct (str_eqb k0 k) eqn:E.
  - apply str_eqb_eq in E. subst. tauto.
  - f_equal. apply IH. tauto.
Qed.

Lemma fold_setRow_distinct (l : list Row) (m : JsMap.t Row) :
  NoDup (JsMap.keys m ++ map key l) ->
  fold_left setRow l m = m ++ map (fun r => (key r, r)) l.
Proof.
  revert m. induction l as [|r l IH]; intros m H; simpl.
  - now rewrite app_nil_r.
  - assert (Hr : ~ In (key r) (JsMap.keys m)).
    { simpl in H. apply NoDup_remove_2 in H. intros Hin. apply H.
      apply in_or_app. now left. }
    unfold setRow at 2. rewrite set_fresh by assumption.
    rewrite IH.
    + now rewrite <- app_assoc.
    + unfold JsMap.keys in *. rewrite map_app. simpl.
      rewrite <- app_assoc. exact H.
Qed.

Lemma dedup_last_distinct (l : list Row) :
  NoDup (map key l) -> Spec.dedup_last l = l.
Proof.
  intros H. rewrite <- fold_setRow_values, fold_setRow_distinct by exact H.
  unfold JsMap.values. simpl. rewrite map_map. simpl. apply map_id.
Qed.

Lemma mapRows_some (raws : list RawRow) :
  mapRows (map Some raws) = Ok (map normalize raws).
Proof.
  induction raws as [|r raws IH]; simpl; auto. now rewrite IH.
Qed.

Lemma mapRows_null (rows : list (option RawRow)) :
  In None rows -> mapRows rows = Throw.
Proof.
  induction rows as [|r rows IH]; simpl; intros H; [contradiction|].
  destruct H as [->|H]; auto.
  destruct r; simpl; auto. now rewrite IH.
Qed.

Lemma mapRows_ok (rows : list (option RawRow)) (supa : list Row) :
  mapRows rows = Ok supa ->
  forall r, In r supa -> exists x, In (Some x) rows /\ r = normalize x.
Proof.
  revert supa. induction rows as [|x rows IH]; simpl; intros supa H r Hr.
  - inversion H; subst. contradiction.
  - destruct x as [x|]; simpl in H; [|discriminate].
    destruct (mapRows rows) as [xs|]; simpl in H; [|discriminate].
    inversion H; subst. destruct Hr as [<-|Hr].
    + exists x. auto.
    + destruct (IH xs eq_refl r Hr) as [y [Hy ->]]. exists y. auto.
Qed.

Lemma merge_nil (local : list Row) : merge local [] = uniq local.
Proof. now rewrite merge_dedup_last, app_nil_r, uniq_dedup_last. Qed.

Lemma buildMapping_total (hasSupabaseEnv : bool) (local : list Row) (o : FetchOutcome) :
  exists m, buildMapping hasSupabaseEnv local o = Ok m.
Proof.
  unfold buildMapping. destruct hasSupabaseEnv; simpl; eauto.
  destruct (tryBody local o); simpl; eauto.
Qed.

(** C1.  With the remote table fetched, the mapping is built by filing the
    local rows and then the remote rows under the lower-cased village
    name: it holds one row per key, and the row of a key is the last
    remote row of that key when there is one, else the last local row.  A
    remote row whose key equals that of a local row therefore takes its
    place.  With local Kadapa -> "Kadapa M" and remote Kadapa ->
    "Kadapa New M" the mapping gives "Kadapa New M" for Kadapa. *)
Theorem merged_remote_wins (local : list Row) (raws : list RawRow) :
  let supa := map normalize raws in
  let merged := merge local supa in
  buildMapping true local (Resolved (IsArray (map Some raws)) false) = Ok merged /\
  merged = Spec.dedup_last (local ++ supa) /\
  NoDup (map key merged) /\
  (forall v, Spec.lookup v merged
             = match Spec.last_with_key (toLowerCase v) supa with
               | Some r => Some r
               | None => Spec.last_with_key (toLowerCase v) local
               end) /\
  (forall l s, In l local -> In s supa -> key s = key l ->
     exists s', Spec.lookup (village l) merged = Some s' /\ In s' supa /\ key s' = key l) /\
  buildMapping true [row "Kadapa" "Kadapa M"]
    (Resolved (IsArray [Some (raw "Kadapa" "Kadapa New M")]) false)
  = Ok [row "Kadapa" "Kadapa New M"] /\
  Spec.lookup (lit "Kadapa") [row "Kadapa" "Kadapa New M"]
  = Some (row "Kadapa" "Kadapa New M").
Proof.
  intros supa merged.
  assert (L : forall v, Spec.lookup v merged
             = match Spec.last_with_key (toLowerCase v) supa with
               | Some r => Some r
               | None => Spec.last_with_key (toLowerCase v) local
               end).
  { intros v. unfold Spec.lookup, merged. rewrite merge_dedup_last, dedup_last_lookup.
    apply last_with_key_app. }
  repeat split.
  - unfold buildMapping, tryBody, supaRows. simpl. now rewrite mapRows_some.
  - apply merge_dedup_last.
  - unfold merged. rewrite merge_dedup_last. apply dedup_last_NoDup.
  - exact L.
  - intros l s Hl Hs E. rewrite L. fold (key l).
    destruct (Spec.last_with_key (key l) supa) as [s'|] eqn:F.
    + apply last_with_key_some in F as [F1 F2]. exists s'. auto.
    + exfalso. exact (last_with_key_none _ _ F s Hs E).
Qed.

Lemma merged_remote_wins_witness :
  exists s', Spec.lookup (lit "Kadapa")
               (merge [row "Kadapa" "Kadapa M"] (map normalize [raw "kadapa" "Kadapa New M"]))
             = Some s' /\
             In s' (map normalize [raw "kadapa" "Kadapa New M"]) /\
             key s' = key (row "Kadapa" "Kadapa M").
Proof.
  exact (proj1 (proj2 (proj2 (proj2 (proj2
           (merged_remote_wins [row "Kadapa" "Kadapa M"] [raw "kadapa" "Kadapa New M"])))))
           (row "Kadapa" "Kadapa M") (normalize (raw "kadapa" "Kadapa New M"))
           (or_introl eq_refl) (or_introl eq_refl) eq_refl).
Defined.

(** C2 as stated fails: two local rows whose village names differ only in
    letter case share a key, and the mapping keeps the later row, where
    "first occurrence wins" keeps the earlier one. *)
Lemma local_only_first_wins_counterexample :
  parseCSV csv_two_cases = [row "Kadapa" "M1"; row "kadapa" "M2"] /\
  buildMapping false (parseCSV csv_two_cases) Rejected = Ok [row "kadapa" "M2"] /\
  buildMapping true (parseCSV csv_two_cases) Rejected = Ok [row "kadapa" "M2"] /\
  Spec.dedup_first (parseCSV csv_two_cases) = [row "Kadapa" "M1"] /\
  buildMapping false (parseCSV csv_two_cases) Rejected
  <> Ok (Spec.dedup_first (parseCSV csv_two_cases)).
Proof.
  repeat split. intros H. vm_compute in H. discriminate.
Qed.

(** C2, amended.  Without a remote source, and when the fetch throws, the
    mapping is the local rows deduplicated by lower-cased village name
    where the last row of a key wins and stands at the place of the first
    row of that key; rows with distinct keys are all kept in order, so the
    local rows Anantapur and Kadapa give exactly those two records. *)
Theorem local_only_last_wins :
  (forall local o, buildMapping false local o = Ok (Spec.dedup_last local)) /\
  (forall local, buildMapping true local Rejected = Ok (Spec.dedup_last local)) /\
  (forall local, NoDup (map key local) -> Spec.dedup_last local = local) /\
  parseCSV csv_two_villages = [row "Anantapur" "Anantapur M"; row "Kadapa" "Kadapa M"] /\
  (forall o, buildMapping false (parseCSV csv_two_villages) o
             = Ok [row "Anantapur" "Anantapur M"; row "Kadapa" "Kadapa M"]).
Proof.
  repeat split.
  - intros local o. unfold buildMapping. simpl. now rewrite uniq_dedup_last.
  - intros local. unfold buildMapping. simpl. now rewrite uniq_dedup_last.
  - apply dedup_last_distinct.
Qed.

Lemma local_only_last_wins_witness :
  Spec.dedup_last [row "Anantapur" "Anantapur M"; row "Kadapa" "Kadapa M"]
  = [row "Anantapur" "Anantapur M"; row "Kadapa" "Kadapa M"].
Proof.
  apply (proj1 (proj2 (proj2 local_only_last_wins))).
  repeat constructor; simpl; intuition discriminate.
Defined.

(** C8.  Whatever the fetch does, the computation of the mapping ends
    normally: the effect always reaches [setMapping] and leaves the error
    shown by the form alone.  When the response carries an error, when its
    data is not an array, when the fetch throws (and when an element of
    the data is null), the mapping is the deduplicated local rows, the
    same as without a remote source. *)
Theorem buildMapping_never_throws :
  (forall hasSupabaseEnv local o, exists m, buildMapping hasSupabaseEnv local o = Ok m) /\
  (forall hasSupabaseEnv csv o st,
     exists m, mappingEffect hasSupabaseEnv csv o st = Ok (setMapping m st) /\
               loadError (setMapping m st) = loadError st) /\
  (forall local data, buildMapping true local (Resolved data true) = Ok (uniq local)) /\
  (forall local error, buildMapping true local (Resolved NotArray error) = Ok (uniq local)) /\
  (forall local, buildMapping true local Rejected = Ok (uniq local)) /\
  (forall local rows, In None rows ->
     buildMapping true local (Resolved (IsArray rows) false) = Ok (uniq local)) /\
  (forall local o, buildMapping false local o = Ok (uniq local)) /\
  (forall local, uniq local = Spec.dedup_last local).
Proof.
  split; [exact buildMapping_total|].
  split.
  { intros hasSupabaseEnv csv o st.
    destruct (buildMapping_total hasSupabaseEnv (parseCSV csv) o) as [m Hm].
    exists m. unfold mappingEffect. rewrite Hm. auto. }
  repeat split.
  - intros local data. unfold buildMapping, tryBody, supaRows. simpl.
    destruct data; simpl; now rewrite merge_nil.
  - intros local error. unfold buildMapping, tryBody, supaRows. simpl.
    now rewrite merge_nil.
  - intros local rows H. unfold buildMapping, tryBody, supaRows. simpl.
    now rewrite mapRows_null.
  - apply uniq_dedup_last.
Qed.

Lemma buildMapping_never_throws_witness :
  buildMapping true [row "Kadapa" "Kadapa M"]
    (Resolved (IsArray [Some (raw "Chittoor" "Chittoor M"); None]) false)
  = Ok (uniq [row "Kadapa" "Kadapa M"]).
Proof.
  apply (proj1 (proj2 (proj2 (proj2 (proj2 (proj2 buildMapping_never_throws)))))).
  right. left. reflexivity.
Defined.

(** ** Emptiness of the names in the mapping *)

Lemma parse_line_row (line : str) (r : Row) :
  Spec.parse_line line = Some r -> nonempty_row r /\ trimmed_row r.
Proof.
  unfold Spec.parse_line. destruct (Spec.blank line); [discriminate|].
  destruct (Spec.split_last_comma line) as [[a b]|]; [|discriminate].
  destruct (Spec.is_header (trim a) (trim b)); [discriminate|].
  destruct (str_eqb (trim a) []) eqn:Ea; [discriminate|].
  destruct (str_eqb (trim b) []) eqn:Eb; [discriminate|].
  simpl. intros H. inversion H; subst.
  apply str_eqb_neq in Ea, Eb.
  unfold nonempty_row, trimmed_row. simpl. rewrite !trim_idem. auto.
Qed.

Lemma parseCSV_rows (csv : str) (r : Row) :
  In r (parseCSV csv) -> nonempty_row r /\ trimmed_row r.
Proof.
  rewrite parseCSV_parse. unfold Spec.parse.
  rewrite in_flat_map. intros [line [_ H]].
  destruct (Spec.parse_line line) as [r'|] eqn:E; [|contradiction].
  destruct H as [<-|[]]. now apply parse_line_row in E.
Qed.

Lemma normalize_trimmed (x : RawRow) : trimmed_row (normalize x).
Proof. unfold trimmed_row, normalize. simpl. now rewrite !trim_idem. Qed.

Lemma merge_In (local supa : list Row) (r : Row) :
  In r (merge local supa) -> In r local \/ In r supa.
Proof.
  rewrite merge_dedup_last. intros H. apply dedup_last_In in H.
  now apply in_app_or.
Qed.

Lemma uniq_In (local : list Row) (r : Row) : In r (uniq local) -> In r local.
Proof. rewrite uniq_dedup_last. apply dedup_last_In. Qed.

(** Where the rows of the mapping come from: every row of the local parse
    and of the local-only deduplication has passed the guard of [parseCSV];
    a row of the merged result has trimmed names and is either such a
    local row or the normalization of a row of the remote table. *)
Lemma mapping_rows_origin (csv : str) :
  Forall nonempty_row (parseCSV csv) /\
  Forall nonempty_row (uniq (parseCSV csv)) /\
  (forall hasSupabaseEnv o m r,
     buildMapping hasSupabaseEnv (parseCSV csv) o = Ok m -> In r m ->
     trimmed_row r /\
     ((In r (parseCSV csv) /\ nonempty_row r) \/
      (exists rows x,
         hasSupabaseEnv = true /\ o = Resolved (IsArray rows) false /\
         In (Some x) rows /\ r = normalize x))).
Proof.
  assert (U : forall r, In r (uniq (parseCSV csv)) ->
                trimmed_row r /\ In r (parseCSV csv) /\ nonempty_row r).
  { intros r H. apply uniq_In in H. destruct (parseCSV_rows csv r H). auto. }
  split; [|split].
  - apply Forall_forall. intros r H. now apply parseCSV_rows in H.
  - apply Forall_forall. intros r H. now apply U in H.
  - intros hasSupabaseEnv o m r Hm Hr. unfold buildMapping in Hm.
    destruct hasSupabaseEnv; simpl in Hm.
    + destruct o as [|data error]; simpl in Hm.
      * inversion Hm; subst. destruct (U r Hr) as [? [? ?]]. auto.
      * destruct (supaRows data error) as [supa|] eqn:S; simpl in Hm.
        -- inversion Hm; subst. apply merge_In in Hr as [Hr|Hr].
           ++ destruct (parseCSV_rows csv r Hr). auto.
           ++ destruct data as [|rows]; simpl in S.
              ** inversion S; subst. contradiction.
              ** destruct error; simpl in S.
                 --- inversion S; subst. contradiction.
                 --- destruct (mapRows_ok rows supa S r Hr) as [x [Hx ->]].
                     split; [apply normalize_trimmed|]. right. exists rows, x. auto.
        -- inversion Hm; subst. destruct (U r Hr) as [? [? ?]]. auto.
    + inversion Hm; subst. destruct (U r Hr) as [? [? ?]]. auto.
Qed.

(** C9, at the input where the code departs from it.  The local parse
    keeps a row only when its village and its mandal are both non-empty,
    for every file; the loop over the remote rows has no such guard.  With
    the local file [Kadapa,Kadapa M] and the remote table holding one row
    whose village is null and whose mandal is [X], the merged mapping holds
    a record with the empty village name, and the same happens for a remote
    row whose mandal is null.  Choosing the placeholder option of the
    village list, whose value is the empty string, then finds that record
    and fills the mandal field with [X]. *)
Theorem remote_row_filed_empty :
  (forall csv, Forall nonempty_row (parseCSV csv)) /\
  buildMapping true (parseCSV (lit "Kadapa,Kadapa M"))
    (Resolved (IsArray [Some {| raw_village := None; raw_mandal := Some (lit "X") |}]) false)
  = Ok [row "Kadapa" "Kadapa M"; {| village := []; mandal := lit "X" |}] /\
  ~ nonempty_row {| village := []; mandal := lit "X" |} /\
  buildMapping true (parseCSV (lit "Kadapa,Kadapa M"))
    (Resolved (IsArray [Some {| raw_village := Some (lit "Y"); raw_mandal := None |}]) false)
  = Ok [row "Kadapa" "Kadapa M"; {| village := lit "Y"; mandal := [] |}] /\
  ~ nonempty_row {| village := lit "Y"; mandal := [] |} /\
  form_mandal
    (villageSelect_onChange []
       (setMapping [row "Kadapa" "Kadapa M"; {| village := []; mandal := lit "X" |}]
          initialState))
  = lit "X".
Proof.
  split; [|split; [|split; [|split; [|split]]]].
  - intros csv. apply Forall_forall. intros r H. now apply parseCSV_rows in H.
  - reflexivity.
  - unfold nonempty_row. simpl. intros [H _]. now apply H.
  - reflexivity.
  - unfold nonempty_row. simpl. intros [_ H]. now apply H.
  - reflexivity.
Qed.

(** ** The selection widgets *)

(** C6 as stated fails: choosing a mandal in the mandal list empties the
    village chosen before. *)
Lemma mandal_change_resets_village_counterexample :
  form_village
    (villageSelect_onChange (lit "Kadapa")
       (setMapping [row "Kadapa" "Kadapa M"; row "Rayachoti" "Rayachoti M"] initialState))
  = lit "Kadapa" /\
  form_village
    (mandalSelect_onChange (lit "Rayachoti M")
       (villageSelect_onChange (lit "Kadapa")
          (setMapping [row "Kadapa" "Kadapa M"; row "Rayachoti" "Rayachoti M"] initialState)))
  = [] /\
  form_village
    (mandalSelect_onChange (lit "Rayachoti M")
       (villageSelect_onChange (lit "Kadapa")
          (setMapping [row "Kadapa" "Kadapa M"; row "Rayachoti" "Rayachoti M"] initialState)))
  <> form_village
       (villageSelect_onChange (lit "Kadapa")
          (setMapping [row "Kadapa" "Kadapa M"; row "Rayachoti" "Rayachoti M"] initialState)).
Proof.
  repeat split. intros H. vm_compute in H. discriminate.
Qed.

(** C6, amended.  Selecting a village in the village list (any option but
    "Other") stores the village and sets the mandal to the mandal of the
    first row of the mapping whose village is exactly that name, or to the
    empty string when there is none.  The link goes one way: no change of
    the mandal looks a village up in the mapping.  Choosing a mandal in the
    mandal list (any option but "Other") stores the mandal and resets the
    village and the village filter to the empty string; the "Other" option
    of the mandal list and the manual and plain mandal inputs leave the
    village as it is. *)
Theorem village_fills_mandal_one_way (st : FormState) :
  (forall v, v <> other ->
     form_village (villageSelect_onChange v st) = v /\
     form_mandal (villageSelect_onChange v st)
     = match find (fun r => str_eqb (village r) v) (mapping st) with
       | Some r => mandal r
       | None => []
       end) /\
  (forall m, m <> other ->
     form_mandal (mandalSelect_onChange m st) = m /\
     form_village (mandalSelect_onChange m st) = [] /\
     villageFilter (mandalSelect_onChange m st) = []) /\
  form_village (mandalSelect_onChange other st) = form_village st /\
  (forall x, form_village (manualMandal_onChange x st) = form_village st) /\
  (forall x, form_village (fallbackMandal_onChange x st) = form_village st).
Proof.
  repeat split.
  - unfold villageSelect_onChange.
    apply str_eqb_neq in H. now rewrite H.
  - unfold villageSelect_onChange.
    apply str_eqb_neq in H. rewrite H. simpl.
    now destruct (find (fun r => str_eqb (village r) v) (mapping st)).
  - unfold mandalSelect_onChange. apply str_eqb_neq in H. now rewrite H.
  - unfold mandalSelect_onChange. apply str_eqb_neq in H. now rewrite H.
  - unfold mandalSelect_onChange. apply str_eqb_neq in H. now rewrite H.
Qed.

Lemma village_fills_mandal_one_way_witness :
  (form_village
     (villageSelect_onChange (lit "Kadapa")
        (setMapping [row "Kadapa" "Kadapa M"; row "Rayachoti" "Rayachoti M"] initialState))
   = lit "Kadapa" /\
   form_mandal
     (villageSelect_onChange (lit "Kadapa")
        (setMapping [row "Kadapa" "Kadapa M"; row "Rayachoti" "Rayachoti M"] initialState))
   = lit "Kadapa M") /\
  (form_mandal (mandalSelect_onChange (lit "Rayachoti M") initialState) = lit "Rayachoti M" /\
   form_village (mandalSelect_onChange (lit "Rayachoti M") initialState) = [] /\
   villageFilter (mandalSelect_onChange (lit "Rayachoti M") initialState) = []).
Proof.
  split.
  - apply (proj1 (village_fills_mandal_one_way
                    (setMapping [row "Kadapa" "Kadapa M"; row "Rayachoti" "Rayachoti M"]
                       initialState)) (lit "Kadapa")).
    intros H. vm_compute in H. discriminate.
  - apply (proj1 (proj2 (village_fills_mandal_one_way initialState)) (lit "Rayachoti M")).
    intros H. vm_compute in H. discriminate.
Defined.

(** C7, at the input where the code departs from it: with village Kadapa
    selected, the "Other" option of the mandal list opens manual mode and
    empties the mandal but leaves the village, while the "Other" option of
    the village list empties both. *)
Theorem mandal_other_keeps_village :
  manualMode
    (mandalSelect_onChange other
       (villageSelect_onChange (lit "Kadapa")
          (setMapping [row "Kadapa" "Kadapa M"] initialState))) = true /\
  form_mandal
    (mandalSelect_onChange other
       (villageSelect_onChange (lit "Kadapa")
          (setMapping [row "Kadapa" "Kadapa M"] initialState))) = [] /\
  form_village
    (mandalSelect_onChange other
       (villageSelect_onChange (lit "Kadapa")
          (setMapping [row "Kadapa" "Kadapa M"] initialState))) = lit "Kadapa" /\
  (forall st,
     manualMode (villageSelect_onChange other st) = true /\
     form_village (villageSelect_onChange other st) = [] /\
     form_mandal (villageSelect_onChange other st) = []) /\
  (forall st,
     manualMode (mandalSelect_onChange other st) = true /\
     form_mandal (mandalSelect_onChange other st) = [] /\
     form_village (mandalSelect_onChange other st) = form_village st) /\
  (forall st,
     manualMode (manualCancel_onClick st) = false /\
     manualVillage (manualCancel_onClick st) = [] /\
     manualMandal (manualCancel_onClick st) = [] /\
     form_village (manualCancel_onClick st) = form_village st /\
     form_mandal (manualCancel_onClick st) = form_mandal st).
Proof.
  repeat split.
Qed.

(** C10.  While the mapping is empty the form shows the plain village
    input, and the blur handler of that input changes nothing: its guard
    asks for a non-empty mapping.  For every typed village and every blur
    in that view the mandal value, and the whole state, stay as they
    were. *)
Theorem fallback_blur_keeps_mandal (st : FormState) (val : str) :
  render st = FallbackInputs ->
  offered (render st) (FallbackVillageBlur val) = true /\
  mapping st = [] /\
  handle (FallbackVillageBlur val) st = st /\
  form_mandal (handle (FallbackVillageBlur val) st) = form_mandal st.
Proof.
  intros H. unfold render in H.
  destruct (mapping st) as [|r m] eqn:E.
  - unfold render. rewrite E. simpl. unfold fallbackVillage_onBlur. rewrite E. simpl.
    rewrite andb_false_r. auto.
  - simpl in H. destruct (negb (manualMode st)); discriminate.
Qed.

Lemma fallback_blur_keeps_mandal_witness :
  offered (render (setValue_mandal (lit "Kadapa M") initialState))
    (FallbackVillageBlur (lit "Kadapa")) = true /\
  mapping (setValue_mandal (lit "Kadapa M") initialState) = [] /\
  handle (FallbackVillageBlur (lit "Kadapa")) (setValue_mandal (lit "Kadapa M") initialState)
  = setValue_mandal (lit "Kadapa M") initialState /\
  form_mandal
    (handle (FallbackVillageBlur (lit "Kadapa")) (setValue_mandal (lit "Kadapa M") initialState))
  = form_mandal (setValue_mandal (lit "Kadapa M") initialState).
Proof.
  apply (fallback_blur_keeps_mandal (setValue_mandal (lit "Kadapa M") initialState)
           (lit "Kadapa")).
  reflexivity.
Defined.

(** ** Substring search *)




(** ** Sorting with a total, transitive comparator *)

Section OptionListFacts.

Variable localeCompare : str -> str -> Z.

Hypothesis localeCompare_total :
  forall a b, (localeCompare a b <= 0)%Z \/ (localeCompare b a <= 0)%Z.

Hypothesis localeCompare_trans :
  forall a b c,
    (localeCompare a b <= 0)%Z -> (localeCompare b c <= 0)%Z ->
    (localeCompare a c <= 0)%Z.

Lemma insert_perm (x : str) (l : list str) :
  Permutation (insert localeCompare x l) (x :: l).
Proof.
  induction l as [|y l IH]; simpl; auto.
  destruct (localeCompare x y <=? 0)%Z; auto.
  rewrite IH. apply perm_swap.
Qed.

Lemma sort_perm (l : list str) : Permutation (sort localeCompare l) l.
Proof.
  induction l as [|x l IH]; simpl; auto.
  rewrite insert_perm. now constructor.
Qed.



Lemma sort_In (l : list str) (x : str) : In x (sort localeCompare l) <-> In x l.
Proof.
  split; apply Permutation_in; [|symmetry]; apply sort_perm.
Qed.





End OptionListFacts.

(** The order of the code units is a total, transitive comparator. *)






(** ** The two embeddings of the village candidates

    On the strings whose code units are below 256 the lists over 16-bit
    code units are the lists of the model above. *)

Lemma code_inj (a b : ascii) : code a = code b -> a = b.
Proof.
  unfold code. intros H.
  rewrite <- (ascii_N_embedding a), <- (ascii_N_embedding b). now rewrite H.
Qed.

Lemma widen_inj (a b : str) : Utf16.widen a = Utf16.widen b -> a = b.
Proof.
  revert b. induction a as [|x a IH]; intros [|y b]; simpl; try discriminate; auto.
  intros H. inversion H. f_equal; auto using code_inj.
Qed.

Lemma utf16_str_eqb_eq (a b : Utf16.str) : Utf16.str_eqb a b = true <-> a = b.
Proof.
  unfold Utf16.str_eqb. destruct (list_eq_dec N.eq_dec a b); split; congruence.
Qed.

Lemma str_eqb_widen (a b : str) :
  Utf16.str_eqb (Utf16.widen a) (Utf16.widen b) = str_eqb a b.
Proof.
  destruct (str_eqb a b) eqn:E.
  - apply str_eqb_eq in E. subst. now apply utf16_str_eqb_eq.
  - apply str_eqb_neq in E.
    destruct (Utf16.str_eqb (Utf16.widen a) (Utf16.widen b)) eqn:F; auto.
    apply utf16_str_eqb_eq, widen_inj in F. contradiction.
Qed.

Lemma isWhiteSpace_code (c : ascii) : Utf16.isWhiteSpace (code c) = isWhiteSpace c.
Proof.
  apply eqb_true_iff.
  exact (forall_ascii (fun x => Bool.eqb (Utf16.isWhiteSpace (code x)) (isWhiteSpace x))
           ltac:(vm_compute; reflexivity) c).
Qed.

Lemma lowerUnit_code (c : ascii) : Utf16.lowerUnit (code c) = [code (lowerChar c)].
Proof.
  apply utf16_str_eqb_eq.
  exact (forall_ascii (fun x => Utf16.str_eqb (Utf16.lowerUnit (code x)) [code (lowerChar x)])
           ltac:(vm_compute; reflexivity) c).
Qed.

Lemma trimStart_widen (s : str) :
  Utf16.trimStart (Utf16.widen s) = Utf16.widen (trimStart s).
Proof.
  induction s as [|c s IH]; simpl; auto.
  rewrite isWhiteSpace_code. now destruct (isWhiteSpace c).
Qed.

Lemma trim_widen (s : str) : Utf16.trim (Utf16.widen s) = Utf16.widen (trim s).
Proof.
  unfold Utf16.trim, Utf16.trimEnd, trim, trimEnd.
  rewrite trimStart_widen. unfold Utf16.widen at 1. rewrite <- map_rev.
  fold (Utf16.widen (rev (trimStart s))). rewrite trimStart_widen.
  unfold Utf16.widen. now rewrite map_rev.
Qed.

Lemma toLowerCase_widen (s : str) :
  Utf16.toLowerCase (Utf16.widen s) = Utf16.widen (toLowerCase s).
Proof.
  induction s as [|c s IH]; simpl; auto.
  rewrite lowerUnit_code. simpl. f_equal. exact IH.
Qed.

Lemma startsWith_widen (s q : str) :
  Utf16.startsWith (Utf16.widen s) (Utf16.widen q) = startsWith s q.
Proof.
  revert s. induction q as [|y q IH]; intros [|x s]; simpl; auto.
  rewrite IH. f_equal.
  destruct (Ascii.eqb x y) eqn:E.
  - apply Ascii.eqb_eq in E. subst. apply N.eqb_refl.
  - apply N.eqb_neq. intros C. apply code_inj in C. subst.
    now rewrite Ascii.eqb_refl in E.
Qed.

Lemma includes_widen (s q : str) :
  Utf16.includes (Utf16.widen s) (Utf16.widen q) = includes s q.
Proof.
  induction s as [|x s IH].
  - destruct q; reflexivity.
  - cbn [Utf16.includes includes Utf16.widen map].
    fold (Utf16.widen s). rewrite IH.
    change (code x :: Utf16.widen s) with (Utf16.widen (x :: s)).
    now rewrite startsWith_widen.
Qed.

Lemma truthy_widen (s : str) : Utf16.truthy (Utf16.widen s) = truthy s.
Proof. now destruct s. Qed.

Lemma filter_widen {A B : Type} (w : A -> B) (P : A -> bool) (Q : B -> bool) (l : list A) :
  (forall x, Q (w x) = P x) -> filter Q (map w l) = map w (filter P l).
Proof.
  intros H. induction l as [|x l IH]; simpl; auto.
  rewrite H. destruct (P x); simpl; now rewrite IH.
Qed.

Lemma add_widen (s : list str) (x : str) :
  Utf16.add (map Utf16.widen s) (Utf16.widen x) = map Utf16.widen (JsSet.add s x).
Proof.
  unfold Utf16.add, JsSet.add.
  assert (E : existsb (Utf16.str_eqb (Utf16.widen x)) (map Utf16.widen s)
              = existsb (str_eqb x) s).
  { induction s as [|y s IH]; simpl; auto. now rewrite str_eqb_widen, IH. }
  rewrite E. destruct (existsb (str_eqb x) s); auto.
  now rewrite map_app.
Qed.

Lemma of_list_widen (l : list str) :
  Utf16.of_list (map Utf16.widen l) = map Utf16.widen (JsSet.of_list l).
Proof.
  unfold Utf16.of_list, JsSet.of_list.
  change (@nil Utf16.str) with (map Utf16.widen []).
  generalize (@nil str) as acc.
  induction l as [|x l IH]; intros acc; simpl; auto.
  now rewrite add_widen, IH.
Qed.

Section EmbeddingsAgree.

Variable localeCompare : str -> str -> Z.
Variable localeCompare16 : Utf16.str -> Utf16.str -> Z.
Hypothesis localeCompare_widen :
  forall a b, localeCompare16 (Utf16.widen a) (Utf16.widen b) = localeCompare a b.

Lemma sort_widen (l : list str) :
  Utf16.sort localeCompare16 (map Utf16.widen l)
  = map Utf16.widen (sort localeCompare l).
Proof.
  unfold Utf16.sort, sort. induction l as [|x l IH]; simpl; auto.
  rewrite IH. generalize (fold_right (insert localeCompare) [] l) as t.
  induction t as [|y t IHt]; simpl; auto.
  rewrite localeCompare_widen.
  destruct (localeCompare x y <=? 0)%Z; simpl; auto. now rewrite IHt.
Qed.

Lemma villagesSource_widen (m : list Row) (sel : str) :
  Utf16.villagesSource (map widenRow m) (Utf16.widen sel)
  = map Utf16.widen (villagesSource m sel).
Proof.
  unfold Utf16.villagesSource, villagesSource. rewrite truthy_widen.
  destruct (truthy sel).
  - rewrite (filter_widen widenRow (fun r => str_eqb (mandal r) sel)).
    + now rewrite !map_map.
    + intros r. simpl. apply str_eqb_widen.
  - now rewrite !map_map.
Qed.

Lemma _villages_widen (m : list Row) (sel : str) :
  Utf16._villages localeCompare16 (map widenRow m) (Utf16.widen sel)
  = map Utf16.widen (_villages localeCompare m sel).
Proof.
  unfold Utf16._villages, _villages. rewrite villagesSource_widen.
  rewrite (filter_widen Utf16.widen truthy) by apply truthy_widen.
  now rewrite of_list_widen, sort_widen.
Qed.

(** The village candidates of the two embeddings are the same lists. *)
Lemma filteredVillages_widen (m : list Row) (sel f : str) :
  Utf16.filteredVillages localeCompare16 (map widenRow m) (Utf16.widen sel)
    (Utf16.widen f)
  = map Utf16.widen (filteredVillages localeCompare m sel f).
Proof.
  unfold Utf16.filteredVillages, filteredVillages.
  rewrite trim_widen, toLowerCase_widen, _villages_widen, truthy_widen.
  unfold Utf16.widen at 1. rewrite length_map.
  destruct (3 <=? length (toLowerCase (trim f))).
  - apply filter_widen. intros v. now rewrite toLowerCase_widen, includes_widen.
  - now destruct (truthy sel).
Qed.

End EmbeddingsAgree.

Example filteredVillages_runs :
  _mandals codeUnitCompare sample_mapping = [lit "Kadapa M"; lit "Rayachoti M"] /\
  filteredMandals codeUnitCompare sample_mapping (lit " ka ") = [lit "Kadapa M"] /\
  _villages codeUnitCompare sample_mapping (lit "Kadapa M") = [lit "Kadapa"; lit "Pulivendula"] /\
  filteredVillages codeUnitCompare sample_mapping [] (lit "DAP") = [lit "Kadapa"] /\
  filteredVillages codeUnitCompare sample_mapping (lit "Rayachoti M") (lit "DAP") = [].
Proof. repeat split. Qed.

(** * Further properties of the form *)

(** ** Lines and line endings of the local blob *)

Lemma trim_app_ws (s w : str) : all_ws w -> trim (s ++ w) = trim s.
Proof.
  intros H. unfold trim. rewrite <- !trim_comm. now rewrite trimEnd_app_ws.
Qed.

Lemma split_last_comma_snoc (l : str) (c : ascii) :
  c <> comma ->
  Spec.split_last_comma (l ++ [c])
  = match Spec.split_last_comma l with
    | Some (a, b) => Some (a, b ++ [c])
    | None => None
    end.
Proof.
  intros Hc. induction l as [|x l IH]; simpl.
  - apply Ascii.eqb_neq in Hc. now rewrite Hc.
  - rewrite IH. destruct (Spec.split_last_comma l) as [[a b]|]; auto.
    now destruct (Ascii.eqb x comma).
Qed.

Lemma parse_line_CR (l : str) : Spec.parse_line (l ++ [CR]) = Spec.parse_line l.
Proof.
  unfold Spec.parse_line.
  replace (Spec.blank (l ++ [CR])) with (Spec.blank l)
    by (unfold Spec.blank; rewrite forallb_app; simpl; now rewrite andb_true_r).
  rewrite split_last_comma_snoc by discriminate.
  destruct (Spec.split_last_comma l) as [[a b]|]; auto.
  now rewrite (trim_app_ws b [CR] eq_refl).
Qed.

Lemma parse_line_nil : Spec.parse_line [] = None.
Proof. reflexivity. Qed.

(** The rows of the lines read from [s] when [cur] (reversed) has been read
    on the current line. *)
Lemma rows_split_LF (n : nat) :
  forall (a cur b : str), length a <= n ->
  flat_map (fun line => match Spec.parse_line line with Some r => [r] | None => [] end)
    (split_from cur (a ++ LF :: b))
  = flat_map (fun line => match Spec.parse_line line with Some r => [r] | None => [] end)
      (split_from cur a)
    ++ flat_map (fun line => match Spec.parse_line line with Some r => [r] | None => [] end)
         (split_from [] b).
Proof.
  induction n as [|n IH]; intros a cur b Hn.
  - destruct a; [|simpl in Hn; lia]. simpl. now rewrite app_nil_r.
  - destruct a as [|c a].
    + simpl. now rewrite app_nil_r.
    + simpl in Hn. cbn [app split_from].
      destruct (Ascii.eqb c LF).
      * cbn [flat_map]. rewrite IH by lia. now rewrite app_assoc.
      * destruct (Ascii.eqb c CR) eqn:Ec; [|apply IH; lia].
        apply Ascii.eqb_eq in Ec. subst c.
        destruct a as [|d a].
        -- cbn [app split_from rev flat_map]. rewrite Ascii.eqb_refl.
           cbn [flat_map]. rewrite parse_line_CR, !app_nil_r. reflexivity.
        -- cbn [app]. destruct (Ascii.eqb d LF) eqn:Ed.
           ++ cbn [flat_map]. simpl in Hn. rewrite IH by lia. now rewrite app_assoc.
           ++ apply (IH (d :: a)). lia.
Qed.

Lemma rows_split_CR (n : nat) :
  forall (a cur : str), length a <= n ->
  flat_map (fun line => match Spec.parse_line line with Some r => [r] | None => [] end)
    (split_from cur (a ++ [CR]))
  = flat_map (fun line => match Spec.parse_line line with Some r => [r] | None => [] end)
      (split_from cur a).
Proof.
  induction n as [|n IH]; intros a cur Hn.
  - destruct a; [|simpl in Hn; lia]. simpl. now rewrite parse_line_CR.
  - destruct a as [|c a].
    + simpl. now rewrite parse_line_CR.
    + simpl in Hn. cbn [app split_from].
      destruct (Ascii.eqb c LF).
      * cbn [flat_map]. now rewrite IH by lia.
      * destruct (Ascii.eqb c CR) eqn:Ec; [|apply IH; lia].
        destruct a as [|d a].
        -- cbn [app split_from]. simpl. now rewrite parse_line_CR.
        -- cbn [app]. destruct (Ascii.eqb d LF) eqn:Ed.
           ++ cbn [flat_map]. simpl in Hn. now rewrite IH by lia.
           ++ apply (IH (d :: a)). lia.
Qed.

(** X1.  The rows of two texts joined by a line feed are the rows of the
    first followed by the rows of the second; a line feed at the end of a
    text adds nothing. *)
Theorem parseCSV_line_feed (a b : str) :
  parseCSV (a ++ LF :: b) = parseCSV a ++ parseCSV b /\
  parseCSV (a ++ [LF]) = parseCSV a.
Proof.
  assert (H : forall a b, parseCSV (a ++ LF :: b) = parseCSV a ++ parseCSV b).
  { intros x y. rewrite !parseCSV_parse. unfold Spec.parse, split_lines.
    apply (rows_split_LF (length x)). lia. }
  split; [apply H|]. rewrite H. change (parseCSV []) with (@nil Row).
  apply app_nil_r.
Qed.

(** X2.  A carriage return before the line feed changes nothing, nor does
    one at the end of the text: texts with CRLF and with LF line endings
    give the same rows. *)
Theorem parseCSV_carriage_return (a b : str) :
  parseCSV (a ++ CR :: LF :: b) = parseCSV a ++ parseCSV b /\
  parseCSV (a ++ CR :: LF :: b) = parseCSV (a ++ LF :: b) /\
  parseCSV (a ++ [CR]) = parseCSV a.
Proof.
  assert (C : forall a, parseCSV (a ++ [CR]) = parseCSV a).
  { intros x. rewrite !parseCSV_parse. unfold Spec.parse, split_lines.
    apply (rows_split_CR (length x)). lia. }
  assert (L : forall a b, parseCSV (a ++ LF :: b) = parseCSV a ++ parseCSV b).
  { intros x y. rewrite !parseCSV_parse. unfold Spec.parse, split_lines.
    apply (rows_split_LF (length x)). lia. }
  assert (E : parseCSV (a ++ CR :: LF :: b) = parseCSV a ++ parseCSV b).
  { replace (a ++ CR :: LF :: b) with ((a ++ [CR]) ++ LF :: b)
      by (now rewrite <- app_assoc).
    now rewrite L, C. }
  split; [exact E|]. split; [now rewrite E, L | apply C].
Qed.

Lemma trim_fixed_ends (v : str) : trim v = v -> trimStart v = v /\ trimEnd v = v.
Proof.
  intros H. split.
  - rewrite <- H. unfold trim. rewrite <- trim_comm. apply trimStart_idem.
  - rewrite <- H. unfold trim. apply trimEnd_idem.
Qed.

Lemma trim_padded (w1 v w2 : str) :
  all_ws w1 -> all_ws w2 -> trim v = v -> trim (w1 ++ v ++ w2) = v.
Proof.
  intros H1 H2 Hv. destruct (trim_fixed_ends v Hv) as [Hs He].
  rewrite app_assoc, trim_app_ws by assumption.
  unfold trim. rewrite trimStart_ws_app by assumption. now rewrite Hs.
Qed.

Lemma split_from_no_LF (n : nat) :
  forall (s cur l : str), length s <= n ->
  ~ In LF cur -> In l (split_from cur s) -> ~ In LF l.
Proof.
  induction n as [|n IH]; intros s cur l Hn Hcur Hl.
  - destruct s; [|simpl in Hn; lia]. simpl in Hl. destruct Hl as [<-|[]].
    intros H. now apply in_rev in H.
  - destruct s as [|c s].
    + simpl in Hl. destruct Hl as [<-|[]]. intros H. now apply in_rev in H.
    + simpl in Hn. cbn [split_from] in Hl.
      assert (Hrev : ~ In LF (rev cur)) by (intros H; now apply in_rev in H).
      destruct (Ascii.eqb c LF) eqn:Ec.
      * destruct Hl as [<-|Hl]; auto.
        apply (IH s [] l); [lia | intros [] | exact Hl].
      * assert (Hcur' : ~ In LF (c :: cur)).
        { apply Ascii.eqb_neq in Ec. intros [H|H]; auto. }
        destruct (Ascii.eqb c CR).
        -- destruct s as [|d s].
           ++ apply (IH [] (c :: cur) l); [simpl; lia | exact Hcur' | exact Hl].
           ++ destruct (Ascii.eqb d LF).
              ** destruct Hl as [<-|Hl]; auto. simpl in Hn.
                 apply (IH s [] l); [lia | intros [] | exact Hl].
              ** apply (IH (d :: s) (c :: cur) l); [lia | exact Hcur' | exact Hl].
        -- apply (IH s (c :: cur) l); [lia | exact Hcur' | exact Hl].
Qed.

Lemma parse_line_some (line : str) (r : Row) :
  Spec.parse_line line = Some r ->
  exists a b, line = a ++ comma :: b /\ ~ In comma b /\
              village r = trim a /\ mandal r = trim b.
Proof.
  unfold Spec.parse_line. destruct (Spec.blank line); [discriminate|].
  destruct (Spec.split_last_comma line) as [[a b]|] eqn:E; [|discriminate].
  apply split_last_comma_some in E as [-> Hb].
  destruct (Spec.is_header (trim a) (trim b)); [discriminate|].
  destruct (str_eqb (trim a) [] || str_eqb (trim b) []); [discriminate|].
  intros H. inversion H; subst. exists a, b. auto.
Qed.

(** X3.  A line that holds a village and a mandal around a comma, each
    possibly padded with white space, parses to exactly that row, provided
    the two names are trimmed and non-empty, the mandal has no comma, the
    line has no line feed and the names are not the header words. *)
Theorem parseCSV_line_roundtrip (w1 v w2 w3 m w4 : str) :
  all_ws w1 -> all_ws w2 -> all_ws w3 -> all_ws w4 ->
  trim v = v -> trim m = m -> v <> [] -> m <> [] ->
  ~ In comma m ->
  ~ In LF (w1 ++ v ++ w2 ++ comma :: w3 ++ m ++ w4) ->
  Spec.is_header v m = false ->
  parseCSV (w1 ++ v ++ w2 ++ comma :: w3 ++ m ++ w4)
  = [{| village := v; mandal := m |}].
Proof.
  intros H1 H2 H3 H4 Hv Hm Nv Nm Cm NL Hh.
  rewrite parseCSV_parse. unfold Spec.parse, split_lines.
  rewrite split_from_one_line by assumption. simpl rev. simpl app at 1.
  cbn [flat_map]. rewrite app_nil_r.
  replace (w1 ++ v ++ w2 ++ comma :: w3 ++ m ++ w4)
    with ((w1 ++ v ++ w2) ++ comma :: (w3 ++ m ++ w4))
    by (now rewrite <- !app_assoc).
  unfold Spec.parse_line.
  assert (Cb : ~ In comma (w3 ++ m ++ w4)).
  { intros H. apply in_app_or in H as [H|H]; [now apply all_ws_no_comma in H|].
    apply in_app_or in H as [H|H]; [contradiction | now apply all_ws_no_comma in H]. }
  rewrite split_last_comma_app by assumption.
  rewrite !trim_padded by assumption. rewrite Hh.
  replace (Spec.blank ((w1 ++ v ++ w2) ++ comma :: w3 ++ m ++ w4)) with false.
  - apply str_eqb_neq in Nv, Nm. now rewrite Nv, Nm.
  - symmetry. unfold Spec.blank. rewrite forallb_app. simpl. apply andb_false_r.
Qed.

Lemma parseCSV_line_roundtrip_witness :
  parseCSV (lit "  " ++ lit "A, B Village" ++ lit " " ++ comma :: [] ++ lit "X Mandal" ++ lit " ")
  = [{| village := lit "A, B Village"; mandal := lit "X Mandal" |}].
Proof.
  apply (parseCSV_line_roundtrip (lit "  ") (lit "A, B Village") (lit " ") []
           (lit "X Mandal") (lit " ")); try reflexivity; try discriminate.
  - vm_compute. intuition discriminate.
  - vm_compute. intuition discriminate.
Defined.

(** X4.  In every parsed row the mandal holds no comma and neither name
    holds a line feed: the split is at the last comma of one line. *)
Theorem parseCSV_names_shape (csv : str) (r : Row) :
  In r (parseCSV csv) ->
  ~ In comma (mandal r) /\ ~ In LF (village r) /\ ~ In LF (mandal r).
Proof.
  rewrite parseCSV_parse. unfold Spec.parse, split_lines.
  rewrite in_flat_map. intros [line [Hl Hr]].
  destruct (Spec.parse_line line) as [r'|] eqn:E; [|contradiction].
  destruct Hr as [<-|[]].
  apply (split_from_no_LF (length csv)) in Hl; [|lia|auto].
  apply parse_line_some in E as [a [b [-> [Hb [Ev Em]]]]].
  rewrite Ev, Em. repeat split.
  - intros H. now apply In_trim in H.
  - intros H. apply In_trim in H. apply Hl. apply in_or_app. now left.
  - intros H. apply In_trim in H. apply Hl. apply in_or_app. right. now right.
Qed.

Lemma parseCSV_names_shape_witness :
  ~ In comma (mandal (row "A, B Village" "X Mandal")) /\
  ~ In LF (village (row "A, B Village" "X Mandal")) /\
  ~ In LF (mandal (row "A, B Village" "X Mandal")).
Proof.
  apply (parseCSV_names_shape (lit "A, B Village,X Mandal")).
  left. reflexivity.
Defined.

(** ** Keys of the mapping *)

Lemma NoDup_map_eq {A B : Type} (f : A -> B) (l : list A) (a b : A) :
  NoDup (map f l) -> In a l -> In b l -> f a = f b -> a = b.
Proof.
  induction l as [|x l IH]; simpl; intros N Ha Hb E; [contradiction|].
  inversion N as [|? ? Hx Hl]; subst.
  destruct Ha as [->|Ha], Hb as [->|Hb]; auto.
  - exfalso. apply Hx. rewrite E. now apply in_map.
  - exfalso. apply Hx. rewrite <- E. now apply in_map.
Qed.

Lemma buildMapping_cases (hasSupabaseEnv : bool) (local : list Row) (o : FetchOutcome)
    (m : list Row) :
  buildMapping hasSupabaseEnv local o = Ok m ->
  m = uniq local \/ exists supa, m = merge local supa.
Proof.
  unfold buildMapping. destruct hasSupabaseEnv; simpl.
  - destruct o as [|data error]; simpl.
    + intros H. inversion H. auto.
    + destruct (supaRows data error) as [supa|]; simpl; intros H; inversion H; eauto.
  - intros H. inversion H. auto.
Qed.

(** X5.  Whatever the fetch does, the mapping handed to the form holds at
    most one record for a village name up to letter case: two records of
    the mapping whose village names agree up to case are the same record,
    so a village has one mandal. *)
Theorem buildMapping_keys_distinct (hasSupabaseEnv : bool) (local : list Row)
    (o : FetchOutcome) (m : list Row) :
  buildMapping hasSupabaseEnv local o = Ok m ->
  NoDup (map key m) /\
  (forall r1 r2, In r1 m -> In r2 m ->
     toLowerCase (village r1) = toLowerCase (village r2) -> r1 = r2).
Proof.
  intros H.
  assert (N : NoDup (map key m)).
  { apply buildMapping_cases in H as [->|[supa ->]].
    - rewrite uniq_dedup_last. apply dedup_last_NoDup.
    - rewrite merge_dedup_last. apply dedup_last_NoDup. }
  split; [exact N|]. intros r1 r2 H1 H2 E. exact (NoDup_map_eq key m r1 r2 N H1 H2 E).
Qed.

Lemma buildMapping_keys_distinct_witness :
  NoDup (map key [row "kadapa" "M2"]) /\
  (forall r1 r2, In r1 [row "kadapa" "M2"] -> In r2 [row "kadapa" "M2"] ->
     toLowerCase (village r1) = toLowerCase (village r2) -> r1 = r2).
Proof.
  apply (buildMapping_keys_distinct false (parseCSV csv_two_cases) Rejected).
  reflexivity.
Defined.

Lemma last_with_key_present (k : str) (l : list Row) (r : Row) :
  In r l -> key r = k -> exists r', Spec.last_with_key k l = Some r'.
Proof.
  intros Hr E. destruct (Spec.last_with_key k l) as [r'|] eqn:F; eauto.
  exfalso. exact (last_with_key_none k l F r Hr E).
Qed.

Lemma last_with_key_absent (k : str) (l : list Row) :
  (forall r, In r l -> key r <> k) -> Spec.last_with_key k l = None.
Proof.
  intros H. destruct (Spec.last_with_key k l) as [r|] eqn:F; auto.
  apply last_with_key_some in F as [F1 F2]. now apply H in F1.
Qed.

Lemma dedup_last_of_last (l : list Row) (k : str) (r : Row) :
  Spec.last_with_key k l = Some r -> In r (Spec.dedup_last l).
Proof.
  intros H. rewrite <- dedup_last_lookup in H. now apply find_some in H.
Qed.

Lemma dedup_last_is_last (l : list Row) (r : Row) :
  In r (Spec.dedup_last l) -> Spec.last_with_key (key r) l = Some r.
Proof.
  unfold Spec.dedup_last. rewrite in_flat_map. intros [k [_ H]].
  destruct (Spec.last_with_key k l) as [r'|] eqn:E; [|contradiction].
  destruct H as [<-|[]]. destruct (last_with_key_some k l r' E) as [_ <-]. exact E.
Qed.

(** X6.  The merge loses no village: every key of a local or remote row
    has a record in the merged mapping.  A record of the local-only
    mapping whose key no remote row has is kept as it is, and every record
    of the remote rows deduplicated among themselves is in the merged
    mapping. *)
Theorem merge_keeps_keys (local supa : list Row) :
  (forall r, In r local \/ In r supa ->
     exists r', In r' (merge local supa) /\ key r' = key r) /\
  (forall r, In r (uniq local) -> (forall s, In s supa -> key s <> key r) ->
     In r (merge local supa)) /\
  (forall s, In s (uniq supa) -> In s (merge local supa)).
Proof.
  rewrite merge_dedup_last, !uniq_dedup_last. split; [|split].
  - intros r Hr. apply in_or_app in Hr.
    destruct (last_with_key_present (key r) (local ++ supa) r Hr eq_refl) as [r' F].
    exists r'. split.
    + now apply dedup_last_of_last in F.
    + now apply last_with_key_some in F.
  - intros r Hr Hs. apply dedup_last_is_last in Hr.
    apply (dedup_last_of_last _ (key r)). rewrite last_with_key_app.
    now rewrite (last_with_key_absent (key r) supa Hs).
  - intros s Hs. apply dedup_last_is_last in Hs.
    apply (dedup_last_of_last _ (key s)). rewrite last_with_key_app. now rewrite Hs.
Qed.

Lemma merge_keeps_keys_witness :
  In (row "Anantapur" "Anantapur M")
    (merge [row "Anantapur" "Anantapur M"; row "Kadapa" "Kadapa M"]
       [row "kadapa" "Kadapa New M"]).
Proof.
  apply (proj1 (proj2 (merge_keeps_keys
                         [row "Anantapur" "Anantapur M"; row "Kadapa" "Kadapa M"]
                         [row "kadapa" "Kadapa New M"]))).
  - left. reflexivity.
  - intros s [<-|[]]. discriminate.
Defined.

Lemma keyed_entries (m : JsMap.t Row) :
  JsMap.keyed key m -> map (fun r => (key r, r)) (JsMap.values m) = m.
Proof.
  unfold JsMap.keyed, JsMap.values. induction m as [|[k r] m IH]; simpl; intros H; auto.
  inversion H; subst. simpl in *. subst k. f_equal. auto.
Qed.

Lemma fold_setRow_values_again (l : list Row) :
  fold_left setRow (JsMap.values (fold_left setRow l (JsMap.empty Row))) (JsMap.empty Row)
  = fold_left setRow l (JsMap.empty Row).
Proof.
  assert (K : JsMap.keyed key (fold_left setRow l (JsMap.empty Row)))
    by (apply fold_setRow_keyed; constructor).
  rewrite fold_setRow_distinct.
  - simpl. now apply keyed_entries.
  - simpl. rewrite fold_setRow_values. apply dedup_last_NoDup.
Qed.

Lemma dedup_first_from_length (l : list Row) (seen : list str) :
  length (Spec.dedup_first_from seen l) <= length l.
Proof.
  revert seen. induction l as [|r l IH]; intros seen; simpl; auto.
  destruct (existsb (str_eqb (key r)) seen); simpl.
  - specialize (IH seen). lia.
  - specialize (IH (key r :: seen)). lia.
Qed.

(** X7.  Deduplicating is idempotent and never adds rows, and it does not
    matter to the merge whether the local rows were deduplicated before:
    the local-only mapping merged with the remote rows is the mapping
    merged from the raw local rows. *)
Theorem uniq_idempotent (local supa : list Row) :
  uniq (uniq local) = uniq local /\
  length (uniq local) <= length local /\
  merge (uniq local) supa = merge local supa.
Proof.
  split; [|split].
  - rewrite !uniq_dedup_last. apply dedup_last_distinct, dedup_last_NoDup.
  - rewrite <- (length_map key), uniq_dedup_last, dedup_last_keys.
    unfold Spec.first_keys. rewrite length_map. apply dedup_first_from_length.
  - unfold merge, uniq, JsMap.of_entries. rewrite of_entries_setRow.
    now rewrite fold_setRow_values_again.
Qed.

(** ** Event sequences of the selection widgets *)

Lemma handle_mapping (e : Event) (st : FormState) :
  mapping (handle e st) = mapping st /\ loadError (handle e st) = loadError st.
Proof.
  destruct e; simpl; auto.
  - unfold mandalSelect_onChange. destruct (str_eqb m other); auto.
  - unfold villageSelect_onChange. destruct (str_eqb v other); auto.
  - unfold fallbackVillage_onBlur.
    destruct (truthy val && (0 <? length (mapping st))); auto.
Qed.

Lemma dispatch_mapping (e : Event) (st : FormState) :
  mapping (dispatch e st) = mapping st /\ loadError (dispatch e st) = loadError st.
Proof.
  unfold dispatch. destruct (offered (render st) e); auto. apply handle_mapping.
Qed.

Lemma run_mapping (es : list Event) (st : FormState) :
  mapping (run es st) = mapping st /\ loadError (run es st) = loadError st.
Proof.
  unfold run. revert st. induction es as [|e es IH]; intros st; simpl; auto.
  destruct (IH (dispatch e st)) as [-> ->]. apply dispatch_mapping.
Qed.

(** X8.  No handler of the village and mandal widgets writes the mapping
    or the load error: after any sequence of events both are as before,
    so the form never moves between the plain inputs and the lists by
    itself. *)
Theorem events_keep_mapping (es : list Event) (st : FormState) :
  mapping (fold_left (fun s e => handle e s) es st) = mapping st /\
  loadError (fold_left (fun s e => handle e s) es st) = loadError st /\
  mapping (run es st) = mapping st /\
  (render (run es st) = FallbackInputs <-> render st = FallbackInputs).
Proof.
  assert (H : forall es st,
             mapping (fold_left (fun s e => handle e s) es st) = mapping st /\
             loadError (fold_left (fun s e => handle e s) es st) = loadError st).
  { clear. induction es as [|e es IH]; intros st; simpl; auto.
    destruct (IH (handle e st)) as [-> ->]. apply handle_mapping. }
  destruct (H es st) as [H1 H2]. destruct (run_mapping es st) as [R1 R2].
  repeat split; auto.
  - unfold render. rewrite R1. destruct (0 <? length (mapping st)); auto.
    destruct (negb (manualMode (run es st))), (negb (manualMode st)); auto; discriminate.
  - unfold render. rewrite R1. destruct (0 <? length (mapping st)); auto.
    destruct (negb (manualMode (run es st))), (negb (manualMode st)); auto; discriminate.
Qed.

Lemma dispatch_manual_mandal_shown (e : Event) (st : FormState) :
  manual_mandal_shown st -> manual_mandal_shown (dispatch e st).
Proof.
  intros Inv.
  assert (M : mapping (dispatch e st) = mapping st) by apply dispatch_mapping.
  unfold manual_mandal_shown in *. rewrite M. clear M.
  unfold dispatch, render.
  destruct (mapping st) as [|r0 m0] eqn:Em.
  - assert (Off : manualMode st = false).
    { destruct (manualMode st); auto. destruct (Inv eq_refl) as [N _]. now contradiction N. }
    destruct e; simpl; try (rewrite Off; discriminate).
    unfold fallbackVillage_onBlur. rewrite Em. simpl. rewrite andb_false_r.
    rewrite Off. discriminate.
  - destruct (manualMode st) eqn:Mm.
    + destruct (Inv eq_refl) as [_ E].
      destruct e; simpl;
        try (intros H; discriminate H);
        try (intros _; split; [discriminate | solve [auto]]).
      unfold mandalSelect_onChange. destruct (str_eqb m other); simpl.
      * intros _. split; [discriminate | reflexivity].
      * discriminate.
    + destruct e; simpl;
        try (intros H; discriminate H);
        try (rewrite Mm; discriminate).
      * unfold mandalSelect_onChange. destruct (str_eqb m other); simpl.
        -- intros _. split; [discriminate | reflexivity].
        -- discriminate.
      * unfold villageSelect_onChange. destruct (str_eqb v other); simpl.
        -- intros _. split; [discriminate | reflexivity].
        -- discriminate.
Qed.

(** X9.  The manual mandal input follows the form: in a freshly mounted
    form, and after any sequence of events on the elements on screen,
    manual mode is only on with a non-empty mapping, and then the manual
    mandal input holds the mandal value of the form. *)
Theorem manual_mandal_follows_form (es : list Event) (st : FormState) :
  manual_mandal_shown st ->
  manual_mandal_shown (run es st) /\
  (render (run es st) = ManualInputs ->
   manualMandal (run es st) = form_mandal (run es st)).
Proof.
  intros Inv.
  assert (R : manual_mandal_shown (run es st)).
  { unfold run. revert st Inv. induction es as [|e es IH]; intros st Inv; simpl; auto.
    apply IH. now apply dispatch_manual_mandal_shown. }
  split; [exact R|]. unfold render. intros V.
  destruct (0 <? length (mapping (run es st))); [|discriminate].
  destruct (manualMode (run es st)) eqn:Mm; [|discriminate].
  now destruct (R Mm).
Qed.

Lemma manual_mandal_follows_form_witness :
  manual_mandal_shown
    (run [VillageSelectChange (lit "Kadapa"); MandalSelectChange other;
          ManualMandalChange (lit "New M")]
       (setMapping sample_mapping initialState)) /\
  (render
     (run [VillageSelectChange (lit "Kadapa"); MandalSelectChange other;
           ManualMandalChange (lit "New M")]
        (setMapping sample_mapping initialState)) = ManualInputs ->
   manualMandal
     (run [VillageSelectChange (lit "Kadapa"); MandalSelectChange other;
           ManualMandalChange (lit "New M")]
        (setMapping sample_mapping initialState))
   = form_mandal
       (run [VillageSelectChange (lit "Kadapa"); MandalSelectChange other;
             ManualMandalChange (lit "New M")]
          (setMapping sample_mapping initialState))).
Proof.
  apply (manual_mandal_follows_form
           [VillageSelectChange (lit "Kadapa"); MandalSelectChange other;
            ManualMandalChange (lit "New M")]
           (setMapping sample_mapping initialState)).
  intros H. discriminate H.
Defined.

Lemma dispatch_fallback (e : Event) (st : FormState) :
  mapping st = [] ->
  mapping (dispatch e st) = [] /\
  form_mandal (dispatch e st)
  = match e with FallbackMandalChange x => x | _ => form_mandal st end /\
  manualMode (dispatch e st) = manualMode st /\
  manualVillage (dispatch e st) = manualVillage st /\
  manualMandal (dispatch e st) = manualMandal st /\
  villageFilter (dispatch e st) = villageFilter st /\
  mandalFilter (dispatch e st) = mandalFilter st.
Proof.
  intros Em. unfold dispatch, render. rewrite Em. simpl.
  destruct e; simpl; auto 10.
  unfold fallbackVillage_onBlur. rewrite Em. simpl. rewrite andb_false_r. auto 10.
Qed.

(** X10.  While the mapping is empty the mandal of the form is what was
    typed last into the plain mandal input, or its starting value when
    nothing was typed: no other event on screen, in particular no typing
    or blur of the village input, writes it, and the filters and the
    manual-mode state stay untouched. *)
Theorem fallback_mandal_is_last_typed (es : list Event) (st : FormState) :
  mapping st = [] ->
  form_mandal (run es st) = last_typed_mandal es (form_mandal st) /\
  manualMode (run es st) = manualMode st /\
  manualVillage (run es st) = manualVillage st /\
  manualMandal (run es st) = manualMandal st /\
  villageFilter (run es st) = villageFilter st /\
  mandalFilter (run es st) = mandalFilter st.
Proof.
  unfold run. revert st. induction es as [|e es IH]; intros st Em; simpl.
  - auto 10.
  - destruct (dispatch_fallback e st Em) as [E0 [E1 [E2 [E3 [E4 [E5 E6]]]]]].
    destruct (IH (dispatch e st) E0) as [I1 [I2 [I3 [I4 [I5 I6]]]]].
    rewrite I1, I2, I3, I4, I5, I6, E1, E2, E3, E4, E5, E6.
    repeat split. now destruct e.
Qed.

Lemma fallback_mandal_is_last_typed_witness :
  form_mandal
    (run [FallbackMandalChange (lit "Kadapa M"); FallbackVillageChange (lit "Kadapa");
          FallbackVillageBlur (lit "Kadapa"); VillageSelectChange (lit "Rayachoti")]
       initialState)
  = lit "Kadapa M".
Proof.
  apply (proj1 (fallback_mandal_is_last_typed
                  [FallbackMandalChange (lit "Kadapa M"); FallbackVillageChange (lit "Kadapa");
                   FallbackVillageBlur (lit "Kadapa"); VillageSelectChange (lit "Rayachoti")]
                  initialState eq_refl)).
Defined.

(** ** Options and selections *)

Lemma _villages_In (cmp : str -> str -> Z) (m : list Row) (sel v : str) :
  In v (_villages cmp m sel) <->
  v <> [] /\ exists r, In r m /\ village r = v /\ (sel <> [] -> mandal r = sel).
Proof.
  unfold _villages. rewrite sort_In, of_list_In, filter_In, truthy_nonempty.
  unfold villagesSource. destruct sel as [|c sel]; simpl; rewrite in_map_iff.
  - split.
    + intros [[r [E Hr]] Hv]. split; auto. exists r. repeat split; auto.
      intros C. now contradiction C.
    + intros [Hv [r [Hr [E _]]]]. split; auto. exists r. auto.
  - split.
    + intros [[r [E Hr]] Hv]. apply filter_In in Hr as [Hr Hm].
      apply str_eqb_eq in Hm. split; auto. exists r. auto.
    + intros [Hv [r [Hr [E Hm]]]]. split; auto. exists r. split; auto.
      apply filter_In. split; auto. apply str_eqb_eq, Hm. discriminate.
Qed.

Lemma filteredVillages_In (cmp : str -> str -> Z) (m : list Row) (sel f v : str) :
  In v (filteredVillages cmp m sel f) -> In v (_villages cmp m sel).
Proof.
  unfold filteredVillages.
  destruct (3 <=? length (toLowerCase (trim f))).
  - intros H. now apply filter_In in H.
  - destruct (truthy sel); auto. intros [].
Qed.

Lemma find_village (m : list Row) (v : str) (r : Row) :
  In r m -> village r = v ->
  exists r0, find (fun x => str_eqb (village x) v) m = Some r0 /\
             In r0 m /\ village r0 = v.
Proof.
  intros Hr E. destruct (find (fun x => str_eqb (village x) v) m) as [r0|] eqn:F.
  - exists r0. apply find_some in F as [F1 F2]. apply str_eqb_eq in F2. auto.
  - exfalso. pose proof (find_none _ _ F r Hr) as N. simpl in N.
    apply str_eqb_neq in N. contradiction.
Qed.

(** X11.  Choosing an option of the village list (other than a village
    that is spelled like the "Other" value) leaves the form with the
    village and the mandal of one record of the mapping.  When a mandal is
    selected and the mapping holds one record per village key, as every
    built mapping does, the mandal filled in is the selected mandal: the
    choice does not move the form to another mandal. *)
Theorem select_offered_village (cmp : str -> str -> Z) (st : FormState) (v : str) :
  In v (filteredVillages cmp (mapping st) (selectedMandal st) (villageFilter st)) ->
  v <> other ->
  (exists r, In r (mapping st) /\ village r = v /\
             form_village (villageSelect_onChange v st) = village r /\
             form_mandal (villageSelect_onChange v st) = mandal r) /\
  (NoDup (map key (mapping st)) -> selectedMandal st <> [] ->
   form_mandal (villageSelect_onChange v st) = selectedMandal st).
Proof.
  intros Hv Hne. apply filteredVillages_In, _villages_In in Hv as [_ [r [Hr [E Hs]]]].
  destruct (find_village (mapping st) v r Hr E) as [r0 [F [Hr0 E0]]].
  assert (S : form_village (villageSelect_onChange v st) = v /\
              form_mandal (villageSelect_onChange v st) = mandal r0).
  { unfold villageSelect_onChange. apply str_eqb_neq in Hne. rewrite Hne. simpl.
    now rewrite F. }
  destruct S as [S1 S2]. split.
  - exists r0. rewrite S1, S2. auto.
  - intros N Hsel. rewrite S2.
    assert (r0 = r).
    { apply (NoDup_map_eq key (mapping st) r0 r N Hr0 Hr). unfold key. congruence. }
    subst r0. now apply Hs.
Qed.

Lemma select_offered_village_witness :
  (exists r, In r sample_mapping /\ village r = lit "Pulivendula" /\
             form_village
               (villageSelect_onChange (lit "Pulivendula")
                  (setValue_mandal (lit "Kadapa M") (setMapping sample_mapping initialState)))
             = village r /\
             form_mandal
               (villageSelect_onChange (lit "Pulivendula")
                  (setValue_mandal (lit "Kadapa M") (setMapping sample_mapping initialState)))
             = mandal r) /\
  (NoDup (map key sample_mapping) -> lit "Kadapa M" <> [] ->
   form_mandal
     (villageSelect_onChange (lit "Pulivendula")
        (setValue_mandal (lit "Kadapa M") (setMapping sample_mapping initialState)))
   = lit "Kadapa M").
Proof.
  apply (select_offered_village codeUnitCompare
           (setValue_mandal (lit "Kadapa M") (setMapping sample_mapping initialState))
           (lit "Pulivendula")).
  - right. left. reflexivity.
  - discriminate.
Defined.

Lemma trimStart_lower (s : str) : trimStart (toLowerCase s) = toLowerCase (trimStart s).
Proof.
  unfold toLowerCase. induction s as [|c s IH]; simpl; auto.
  rewrite lowerChar_ws. now destruct (isWhiteSpace c).
Qed.

Lemma trim_lower (s : str) : trim (toLowerCase s) = toLowerCase (trim s).
Proof.
  unfold trim, trimEnd. rewrite trimStart_lower.
  unfold toLowerCase. rewrite <- map_rev. fold (toLowerCase (rev (trimStart s))).
  rewrite trimStart_lower. unfold toLowerCase. now rewrite map_rev.
Qed.

Lemma trim_padded_any (w1 f w2 : str) :
  all_ws w1 -> all_ws w2 -> trim (w1 ++ f ++ w2) = trim f.
Proof.
  intros H1 H2. rewrite app_assoc, trim_app_ws by assumption.
  unfold trim. now rewrite trimStart_ws_app.
Qed.

Lemma filteredVillages_lower_trimmed (cmp : str -> str -> Z) (m : list Row) (sel f g : str) :
  toLowerCase (trim g) = toLowerCase (trim f) ->
  filteredVillages cmp m sel g = filteredVillages cmp m sel f.
Proof. intros E. unfold filteredVillages. now rewrite E. Qed.

Lemma filteredMandals_lower_trimmed (cmp : str -> str -> Z) (m : list Row) (f g : str) :
  toLowerCase (trim g) = toLowerCase (trim f) ->
  length (trim g) = length (trim f) ->
  filteredMandals cmp m g = filteredMandals cmp m f.
Proof. intros E L. unfold filteredMandals. now rewrite E, L. Qed.

(** X12.  The village filter is read up to letter case and up to white
    space around it: lower-casing the filter text, or padding it with
    blanks, does not change the village candidates.  The mandal filter is
    read up to the white space around it; its threshold is on the trimmed
    text as typed, so lower-casing the text leaves the mandal list alone
    when it leaves the length of the trimmed text alone. *)
Theorem filter_text_normalised (cmp : str -> str -> Z) (m : list Row)
    (sel f w1 w2 : str) :
  all_ws w1 -> all_ws w2 ->
  filteredVillages cmp m sel (w1 ++ f ++ w2) = filteredVillages cmp m sel f /\
  filteredMandals cmp m (w1 ++ f ++ w2) = filteredMandals cmp m f /\
  filteredVillages cmp m sel (toLowerCase f) = filteredVillages cmp m sel f /\
  (length (trim (toLowerCase f)) = length (trim f) ->
   filteredMandals cmp m (toLowerCase f) = filteredMandals cmp m f).
Proof.
  intros H1 H2.
  assert (P : trim (w1 ++ f ++ w2) = trim f) by now apply trim_padded_any.
  assert (L : toLowerCase (trim (toLowerCase f)) = toLowerCase (trim f))
    by now rewrite trim_lower, toLowerCase_idem.
  split; [|split; [|split]].
  - apply filteredVillages_lower_trimmed. now rewrite P.
  - apply filteredMandals_lower_trimmed; now rewrite P.
  - now apply filteredVillages_lower_trimmed.
  - intros E. now apply filteredMandals_lower_trimmed.
Qed.

Lemma filter_text_normalised_witness :
  filteredVillages codeUnitCompare sample_mapping [] (lit " " ++ lit "DAP" ++ lit "  ")
  = filteredVillages codeUnitCompare sample_mapping [] (lit "DAP") /\
  filteredMandals codeUnitCompare sample_mapping (lit " " ++ lit "DAP" ++ lit "  ")
  = filteredMandals codeUnitCompare sample_mapping (lit "DAP") /\
  filteredVillages codeUnitCompare sample_mapping [] (toLowerCase (lit "DAP"))
  = filteredVillages codeUnitCompare sample_mapping [] (lit "DAP") /\
  filteredMandals codeUnitCompare sample_mapping (toLowerCase (lit "DAP"))
  = filteredMandals codeUnitCompare sample_mapping (lit "DAP").
Proof.
  pose proof (filter_text_normalised codeUnitCompare sample_mapping [] (lit "DAP")
                (lit " ") (lit "  ") eq_refl eq_refl) as H.
  destruct H as [A [B [C D]]].
  split; [exact A|]. split; [exact B|]. split; [exact C|].
  apply D. reflexivity.
Defined.

(** X13.  With a village filter of three characters or more, selecting a
    mandal can only remove candidates: every village offered under a
    selected mandal is offered for the same filter with no mandal
    selected. *)
Theorem mandal_narrows_villages (cmp : str -> str -> Z) (m : list Row) (sel f v : str) :
  3 <= length (trim f) ->
  In v (filteredVillages cmp m sel f) -> In v (filteredVillages cmp m [] f).
Proof.
  intros H. unfold filteredVillages. rewrite toLowerCase_length.
  apply Nat.leb_le in H. rewrite H. rewrite !filter_In, !_villages_In.
  intros [[Hv [r [Hr [E _]]]] Hi]. repeat split; auto.
  exists r. repeat split; auto. intros C. now contradiction C.
Qed.

Lemma mandal_narrows_villages_witness :
  In (lit "Kadapa") (filteredVillages codeUnitCompare sample_mapping [] (lit "dap")).
Proof.
  apply (mandal_narrows_villages codeUnitCompare sample_mapping (lit "Kadapa M")
           (lit "dap") (lit "Kadapa")).
  - apply le_n.
  - left. reflexivity.
Defined.

Lemma _mandals_In (cmp : str -> str -> Z) (m : list Row) (x : str) :
  In x (_mandals cmp m) <-> x <> [] /\ exists r, In r m /\ mandal r = x.
Proof.
  unfold _mandals. rewrite sort_In, of_list_In, filter_In, truthy_nonempty, in_map_iff.
  split.
  - intros [[r [E Hr]] Hx]. eauto.
  - intros [Hx [r [Hr E]]]. eauto.
Qed.

Lemma filteredMandals_In (cmp : str -> str -> Z) (m : list Row) (f x : str) :
  In x (filteredMandals cmp m f) -> In x (_mandals cmp m).
Proof.
  unfold filteredMandals. destruct (2 <=? length (trim f)); auto.
  intros H. now apply filter_In in H.
Qed.

(** X14.  From the bundled text to the village list: when the mapping is
    the local-only mapping of a text, choosing any option of the mandal
    list (not spelled like the "Other" value) stores that mandal, clears
    the village filter, and the village list then shown is not empty and
    holds only villages of records with that mandal. *)
Theorem offered_mandal_has_villages (cmp : str -> str -> Z) (csv : str)
    (st : FormState) (m : str) :
  mapping st = uniq (parseCSV csv) ->
  In m (filteredMandals cmp (mapping st) (mandalFilter st)) ->
  m <> other ->
  selectedMandal (mandalSelect_onChange m st) = m /\
  villageFilter (mandalSelect_onChange m st) = [] /\
  filteredVillages cmp (mapping (mandalSelect_onChange m st))
    (selectedMandal (mandalSelect_onChange m st))
    (villageFilter (mandalSelect_onChange m st)) <> [] /\
  (forall v,
     In v (filteredVillages cmp (mapping (mandalSelect_onChange m st))
             (selectedMandal (mandalSelect_onChange m st))
             (villageFilter (mandalSelect_onChange m st))) ->
     exists r, In r (mapping st) /\ village r = v /\ mandal r = m).
Proof.
  intros Em Hm Hne.
  apply filteredMandals_In, _mandals_In in Hm as [Nm [r [Hr E]]].
  assert (Hp : In r (parseCSV csv)) by (rewrite Em in Hr; now apply uniq_In in Hr).
  destruct (parseCSV_rows csv r Hp) as [[Nv _] [_ Tm]].
  assert (S : mandalSelect_onChange m st
              = setManualMode false
                  (setVillageFilter [] (setValue_village [] (setValue_mandal m st)))).
  { unfold mandalSelect_onChange. apply str_eqb_neq in Hne. now rewrite Hne. }
  rewrite S. unfold selectedMandal. simpl.
  assert (Tr : trim m = m) by (now rewrite <- E).
  rewrite Tr. unfold filteredVillages. simpl.
  apply truthy_nonempty in Nm. rewrite Nm.
  split; [reflexivity|]. split; [reflexivity|]. split.
  - intros C.
    assert (I : In (village r) (_villages cmp (mapping st) m)).
    { apply _villages_In. split.
      - intros V. apply Nv. now rewrite V.
      - exists r. auto. }
    rewrite C in I. contradiction.
  - intros v Hv. apply _villages_In in Hv as [_ [r' [Hr' [E' Hs]]]].
    exists r'. repeat split; auto. apply Hs. now apply truthy_nonempty.
Qed.

Lemma offered_mandal_has_villages_witness :
  selectedMandal
    (mandalSelect_onChange (lit "Kadapa M")
       (setMapping (uniq (parseCSV csv_two_villages)) initialState)) = lit "Kadapa M" /\
  villageFilter
    (mandalSelect_onChange (lit "Kadapa M")
       (setMapping (uniq (parseCSV csv_two_villages)) initialState)) = [] /\
  filteredVillages codeUnitCompare
    (mapping (mandalSelect_onChange (lit "Kadapa M")
                (setMapping (uniq (parseCSV csv_two_villages)) initialState)))
    (selectedMandal (mandalSelect_onChange (lit "Kadapa M")
                       (setMapping (uniq (parseCSV csv_two_villages)) initialState)))
    (villageFilter (mandalSelect_onChange (lit "Kadapa M")
                      (setMapping (uniq (parseCSV csv_two_villages)) initialState))) <> [] /\
  (forall v,
     In v (filteredVillages codeUnitCompare
             (mapping (mandalSelect_onChange (lit "Kadapa M")
                         (setMapping (uniq (parseCSV csv_two_villages)) initialState)))
             (selectedMandal (mandalSelect_onChange (lit "Kadapa M")
                                (setMapping (uniq (parseCSV csv_two_villages)) initialState)))
             (villageFilter (mandalSelect_onChange (lit "Kadapa M")
                               (setMapping (uniq (parseCSV csv_two_villages)) initialState)))) ->
     exists r, In r (mapping (setMapping (uniq (parseCSV csv_two_villages)) initialState)) /\
               village r = v /\ mandal r = lit "Kadapa M").
Proof.
  apply (offered_mandal_has_villages codeUnitCompare csv_two_villages
           (setMapping (uniq (parseCSV csv_two_villages)) initialState) (lit "Kadapa M")).
  - reflexivity.
  - right. left. reflexivity.
  - discriminate.
Defined.

(** ** Validation of the form values *)

Lemma lang_eps_iff (s : str) : Regex.lang Regex.Eps s <-> s = [].
Proof.
  split.
  - intros H. now inversion H.
  - intros ->. constructor.
Qed.

Lemma lang_class_iff (p : ascii -> bool) (s : str) :
  Regex.lang (Regex.Class p) s <-> exists c, s = [c] /\ p c = true.
Proof.
  split.
  - intros H. inversion H; subst. eauto.
  - intros [c [-> H]]. now constructor.
Qed.

Lemma lang_alt_iff (r1 r2 : Regex.regex) (s : str) :
  Regex.lang (Regex.Alt r1 r2) s <-> Regex.lang r1 s \/ Regex.lang r2 s.
Proof.
  split.
  - intros H. inversion H; subst; auto.
  - intros [H|H]; [now apply Regex.lang_alt_l | now apply Regex.lang_alt_r].
Qed.

Lemma lang_times (p : ascii -> bool) (n : nat) (s : str) :
  Regex.lang (times n (Regex.Class p)) s <-> length s = n /\ forallb p s = true.
Proof.
  revert s. induction n as [|n IH]; intros s; simpl.
  - rewrite lang_eps_iff. split.
    + intros ->. auto.
    + intros [H _]. now destruct s.
  - rewrite lang_seq_iff. split.
    + intros [s1 [s2 [-> [H1 H2]]]]. apply lang_class_iff in H1 as [c [-> Hc]].
      apply IH in H2 as [L F]. simpl. rewrite Hc, F, L. auto.
    + intros [L F]. destruct s as [|c s]; [discriminate|]. simpl in *.
      apply andb_true_iff in F as [Hc F]. exists [c], s. repeat split.
      * apply lang_class_iff. eauto.
      * apply IH. split; [lia | exact F].
Qed.

Lemma lang_upto (p : ascii -> bool) (k : nat) (s : str) :
  Regex.lang (upto k (Regex.Class p)) s <-> length s <= k /\ forallb p s = true.
Proof.
  revert s. induction k as [|k IH]; intros s; simpl.
  - rewrite lang_eps_iff. split.
    + intros ->. auto.
    + intros [H _]. destruct s; [reflexivity | simpl in H; lia].
  - rewrite lang_alt_iff, lang_eps_iff, lang_seq_iff. split.
    + intros [->|[s1 [s2 [-> [H1 H2]]]]].
      * simpl. split; [lia | reflexivity].
      * apply lang_class_iff in H1 as [c [-> Hc]].
        apply IH in H2 as [L F]. simpl. rewrite Hc, F. split; [lia | reflexivity].
    + intros [L F]. destruct s as [|c s]; [now left|]. right. simpl in *.
      apply andb_true_iff in F as [Hc F]. exists [c], s. repeat split.
      * apply lang_class_iff. eauto.
      * apply IH. split; [lia | exact F].
Qed.

Lemma isDigit_not_ws (c : ascii) : isDigit c = true -> isWhiteSpace c = false.
Proof.
  intros H.
  pose proof (forall_ascii (fun c => implb (isDigit c) (negb (isWhiteSpace c)))
                ltac:(vm_compute; reflexivity) c) as P.
  simpl in P. rewrite H in P. simpl in P. now destruct (isWhiteSpace c).
Qed.

Lemma digits_no_ws (s : str) : forallb isDigit s = true -> no_ws s.
Proof.
  unfold no_ws. induction s as [|c s IH]; simpl; auto.
  intros H. apply andb_true_iff in H as [Hc H].
  rewrite (isDigit_not_ws c Hc). simpl. auto.
Qed.

(** X15.  The schema accepts a customer mobile number exactly when it is a
    string of ten to fifteen decimal digits, and for an accepted number
    the trimming done before the write changes nothing. *)
Theorem mobile_number_accepted (s : str) :
  (valid_customer_mobile_number s = true <->
   10 <= length s <= 15 /\ forallb isDigit s = true) /\
  (valid_customer_mobile_number s = true -> payload_customer_mobile_number s = s).
Proof.
  assert (V : valid_customer_mobile_number s = true <->
              10 <= length s <= 15 /\ forallb isDigit s = true).
  { unfold valid_customer_mobile_number, Regex.test, mobileRe.
    rewrite matches_lang, lang_seq_iff. split.
    - intros [s1 [s2 [-> [H1 H2]]]].
      apply lang_times in H1 as [L1 F1]. apply lang_upto in H2 as [L2 F2].
      rewrite length_app, forallb_app, F1, F2. split; [lia | reflexivity].
    - intros [L F]. exists (firstn 10 s), (skipn 10 s).
      rewrite <- (firstn_skipn 10 s) in F. rewrite forallb_app in F.
      apply andb_true_iff in F as [F1 F2].
      split; [now rewrite firstn_skipn|]. split.
      + apply lang_times. split; auto. rewrite length_firstn. lia.
      + apply lang_upto. split; auto. rewrite length_skipn. lia. }
  split; [exact V|]. intros H. apply V in H as [_ F].
  unfold payload_customer_mobile_number, trim.
  apply digits_no_ws in F. now rewrite no_ws_trimStart, no_ws_trimEnd.
Qed.

Lemma mobile_number_accepted_witness :
  payload_customer_mobile_number (lit "9876543210") = lit "9876543210".
Proof.
  apply (proj2 (mobile_number_accepted (lit "9876543210"))). reflexivity.
Defined.

Lemma trimStart_length (s : str) : length (trimStart s) <= length s.
Proof.
  destruct (trimStart_split s) as [w [_ E]]. rewrite E at 2. rewrite length_app. lia.
Qed.

Lemma trim_length (s : str) : length (trim s) <= length s.
Proof.
  unfold trim, trimEnd. rewrite length_rev.
  pose proof (trimStart_length (rev (trimStart s))) as H1.
  rewrite length_rev in H1. pose proof (trimStart_length s). lia.
Qed.

(** X16.  The length check of the visitor name is made before trimming: the
    name written is never longer than the one typed, and a name of two or
    more blanks passes the check and is written as the empty string. *)
Theorem visitor_name_checked_before_trim :
  (forall s, length (payload_site_visitor_name s) <= length s) /\
  (forall w, all_ws w -> 2 <= length w ->
     valid_min2 w = true /\ payload_site_visitor_name w = []).
Proof.
  split.
  - intros s. apply trim_length.
  - intros w Hw L. split.
    + unfold valid_min2. now apply Nat.leb_le.
    + unfold payload_site_visitor_name. now apply trim_nil_iff.
Qed.

Lemma visitor_name_checked_before_trim_witness :
  valid_min2 (lit "   ") = true /\ payload_site_visitor_name (lit "   ") = [].
Proof.
  apply (proj2 visitor_name_checked_before_trim (lit "   ")).
  - reflexivity.
  - apply le_S, le_n.
Defined.

(** ** Submission *)

Lemma uploadAll_ok (t : str) (files : list (str * UploadOutcome)) :
  all_uploaded files ->
  forall urls log,
    uploadAll t files urls log
    = (log ++ uploadCalls t files, Done (urls ++ publicUrls files)).
Proof.
  unfold all_uploaded. induction 1 as [|[name o] files [pub Ho] Hf IH]; intros urls log.
  - simpl. now rewrite !app_nil_r.
  - simpl in Ho. subst o. cbn [uploadAll]. rewrite IH.
    unfold uploadCalls, publicUrls. cbn [map flat_map fst snd].
    rewrite <- !app_assoc. f_equal. f_equal.
    destruct pub as [u|]; [destruct (truthy u)|]; simpl; auto.
    now rewrite <- app_assoc.
Qed.

Lemma uploadAll_fail (t : str) (ok rest : list (str * UploadOutcome))
    (name : str) (e : UploadError) :
  all_uploaded ok ->
  forall urls log,
    uploadAll t (ok ++ (name, UploadFailed e) :: rest) urls log
    = (log ++ uploadCalls t ok ++ [CallUpload t name],
       Raised (if includes (uploadErrorText e) (lit "bucket")
                  || includes (uploadErrorText e) (lit "not found")
               then bucketMessage else up_message e)).
Proof.
  unfold all_uploaded. induction 1 as [|[n o] ok [pub Ho] Hf IH]; intros urls log.
  - cbn [app uploadAll uploadCalls map].
    now destruct (includes (uploadErrorText e) (lit "bucket")
                  || includes (uploadErrorText e) (lit "not found")).
  - simpl in Ho. subst o. cbn [app uploadAll]. rewrite IH.
    unfold uploadCalls. cbn [map fst]. now rewrite <- !app_assoc.
Qed.

(** X17.  When the record is written, every upload succeeds and the last
    update succeeds, a submission with files makes these calls in this
    order: the write, one upload per file, the update of the images, the
    navigation.  The images written are the images the record had, in
    their order, followed by the public URLs of the new files in the
    order of the files. *)
Theorem submit_success_keeps_images (id : option str) (newId target : str)
    (existingImages : list str) (files : list (str * UploadOutcome)) :
  target = (if match id with Some i => truthy i | None => false end
            then match id with Some i => i | None => [] end else newId) ->
  target <> [] -> files <> [] -> all_uploaded files ->
  onSubmit true id (Written newId) existingImages files None
  = [writeCall id] ++ uploadCalls target files
    ++ [CallUpdateImages target (existingImages ++ publicUrls files); CallNavigate] /\
  length (publicUrls files) <= length files.
Proof.
  intros Et Nt Nf Hf. split.
  - unfold onSubmit, submitBody. fold (writeCall id). cbn [negb].
    rewrite <- Et.
    replace (0 <? length files) with true by (now destruct files).
    apply truthy_nonempty in Nt. rewrite Nt. cbn [andb].
    rewrite uploadAll_ok by assumption. now rewrite <- !app_assoc.
  - unfold publicUrls. clear. induction files as [|[n o] files IH]; simpl; auto.
    rewrite length_app.
    assert (length match o with
                   | Uploaded (Some u) => if truthy u then [u] else []
                   | _ => []
                   end <= 1).
    { destruct o as [e|[u|]]; simpl; auto. destruct (truthy u); simpl; auto. }
    lia.
Qed.

Lemma submit_success_keeps_images_witness :
  onSubmit true None (Written (lit "42")) [lit "old.png"]
    [(lit "a.png", Uploaded (Some (lit "https://cdn/a.png"))); (lit "b.png", Uploaded None)]
    None
  = [writeCall None]
    ++ uploadCalls (lit "42")
         [(lit "a.png", Uploaded (Some (lit "https://cdn/a.png"))); (lit "b.png", Uploaded None)]
    ++ [CallUpdateImages (lit "42")
          ([lit "old.png"]
           ++ publicUrls [(lit "a.png", Uploaded (Some (lit "https://cdn/a.png")));
                          (lit "b.png", Uploaded None)]);
        CallNavigate] /\
  length (publicUrls [(lit "a.png", Uploaded (Some (lit "https://cdn/a.png")));
                      (lit "b.png", Uploaded None)]) <= 2.
Proof.
  apply (submit_success_keeps_images None (lit "42") (lit "42")).
  - reflexivity.
  - discriminate.
  - discriminate.
  - repeat constructor; simpl; eauto.
Defined.

(** X18.  When an upload fails the submission stops there: the files
    after it are not uploaded, the images of the record are not updated
    and there is no navigation, but the record itself has been written
    before.  The alert shows the bucket message when the lower-cased error
    text contains "bucket" or "not found", else the message of the error,
    or "Save failed" when that is empty. *)
Theorem submit_upload_failure (id : option str) (newId target name : str)
    (existingImages : list str) (ok rest : list (str * UploadOutcome))
    (e : UploadError) (imagesUpdate : option str) :
  target = (if match id with Some i => truthy i | None => false end
            then match id with Some i => i | None => [] end else newId) ->
  target <> [] -> all_uploaded ok ->
  onSubmit true id (Written newId) existingImages
    (ok ++ (name, UploadFailed e) :: rest) imagesUpdate
  = [writeCall id] ++ uploadCalls target ok
    ++ [CallUpload target name;
        CallAlert
          (if includes (uploadErrorText e) (lit "bucket")
              || includes (uploadErrorText e) (lit "not found")
           then bucketMessage
           else if truthy (up_message e) then up_message e else lit "Save failed")].
Proof.
  intros Et Nt Hok. unfold onSubmit, submitBody. fold (writeCall id). cbn [negb].
  rewrite <- Et.
  replace (0 <? length (ok ++ (name, UploadFailed e) :: rest)) with true
    by (rewrite length_app; simpl; symmetry; apply Nat.ltb_lt; lia).
  apply truthy_nonempty in Nt. rewrite Nt. cbn [andb].
  rewrite uploadAll_fail by assumption. rewrite <- !app_assoc. cbn [app].
  destruct (includes (uploadErrorText e) (lit "bucket")
            || includes (uploadErrorText e) (lit "not found")); reflexivity.
Qed.

Lemma submit_upload_failure_witness :
  onSubmit true (Some (lit "7")) (Written []) [lit "old.png"]
    ([(lit "a.png", Uploaded (Some (lit "https://cdn/a.png")))]
     ++ (lit "b.png", UploadFailed {| up_message := lit "Bucket not found"; up_text := [] |})
        :: [(lit "c.png", Uploaded None)])
    None
  = [writeCall (Some (lit "7"))]
    ++ uploadCalls (lit "7") [(lit "a.png", Uploaded (Some (lit "https://cdn/a.png")))]
    ++ [CallUpload (lit "7") (lit "b.png");
        CallAlert
          (if includes (uploadErrorText {| up_message := lit "Bucket not found"; up_text := [] |})
                (lit "bucket")
              || includes (uploadErrorText {| up_message := lit "Bucket not found"; up_text := [] |})
                   (lit "not found")
           then bucketMessage
           else if truthy (up_message {| up_message := lit "Bucket not found"; up_text := [] |})
                then up_message {| up_message := lit "Bucket not found"; up_text := [] |}
                else lit "Save failed")].
Proof.
  apply (submit_upload_failure (Some (lit "7")) [] (lit "7")).
  - reflexivity.
  - discriminate.
  - repeat constructor; simpl; eauto.
Defined.

Lemma uploadAll_log (t : str) (files : list (str * UploadOutcome)) :
  forall urls log, exists ups,
    fst (uploadAll t files urls log) = log ++ ups /\ forallb is_backend_call ups = true.
Proof.
  induction files as [|[name o] files IH]; intros urls log.
  - exists []. simpl. now rewrite app_nil_r.
  - cbn [uploadAll]. destruct o as [e|pub].
    + exists [CallUpload t name].
      now destruct (includes (uploadErrorText e) (lit "bucket")
                    || includes (uploadErrorText e) (lit "not found")).
    + destruct (IH (match pub with
                    | Some u => if truthy u then urls ++ [u] else urls
                    | None => urls
                    end) (log ++ [CallUpload t name])) as [ups [E F]].
      exists (CallUpload t name :: ups). rewrite E, <- app_assoc. auto.
Qed.

(** X19.  Every submission ends in exactly one thing the user sees: its
    last call is the navigation or an alert with a non-empty message, and
    all calls before it go to the backend.  Without the backend
    configuration the alert is the only call. *)
Theorem submit_ends_once (hasSupabaseEnv : bool) (id : option str) (write : WriteOutcome)
    (existingImages : list str) (files : list (str * UploadOutcome))
    (imagesUpdate : option str) :
  (exists calls last,
     onSubmit hasSupabaseEnv id write existingImages files imagesUpdate = calls ++ [last] /\
     forallb is_backend_call calls = true /\
     (last = CallNavigate \/ exists msg, last = CallAlert msg /\ msg <> [])) /\
  (hasSupabaseEnv = false ->
   onSubmit hasSupabaseEnv id write existingImages files imagesUpdate
   = [CallAlert notConfiguredMessage]).
Proof.
  assert (A : forall msg, (if truthy msg then msg else lit "Save failed") <> []).
  { intros msg. destruct msg; simpl; discriminate. }
  assert (W : is_backend_call (writeCall id) = true).
  { unfold writeCall. destruct id as [i|]; auto. now destruct (truthy i). }
  split.
  - unfold onSubmit. destruct hasSupabaseEnv; cbn [negb].
    + unfold submitBody. fold (writeCall id). destruct write as [msg|newId].
      * exists [writeCall id], (CallAlert (if truthy msg then msg else lit "Save failed")).
        repeat split; [simpl; now rewrite W | right; eauto].
      * destruct ((0 <? length files)
                  && truthy (if match id with Some i => truthy i | None => false end
                             then match id with Some i => i | None => [] end
                             else newId)).
        -- match goal with
           | |- context [uploadAll ?t ?f ?u ?l] =>
               destruct (uploadAll_log t f u l) as [ups [E F]];
               destruct (uploadAll t f u l) as [log [urls|msg]]
           end; simpl in E; subst log.
           ++ destruct imagesUpdate as [msg|].
              ** eexists; exists (CallAlert (if truthy msg then msg else lit "Save failed")).
                 split; [reflexivity|]. split; [|right; eauto].
                 simpl. now rewrite W, forallb_app, F.
              ** eexists; exists CallNavigate. split; [reflexivity|]. split; [|now left].
                 simpl. now rewrite W, forallb_app, F.
           ++ eexists; exists (CallAlert (if truthy msg then msg else lit "Save failed")).
              split; [reflexivity|]. split; [|right; eauto].
              simpl. now rewrite W, F.
        -- exists [writeCall id], CallNavigate. repeat split; [simpl; now rewrite W | now left].
    + exists [], (CallAlert notConfiguredMessage). repeat split. right.
      eexists. split; [reflexivity | discriminate].
  - intros ->. reflexivity.
Qed.

Lemma submit_ends_once_witness :
  onSubmit false None (Written (lit "42")) [] [] None = [CallAlert notConfiguredMessage].
Proof.
  apply (proj2 (submit_ends_once false None (Written (lit "42")) [] [] None)).
  reflexivity.
Defined.

(** * Properties of the dashboard *)

Section DashboardFacts.

Variable num : Type.
Variable num_is_zero : num -> bool.
Variable num_is_nan : num -> bool.
Variable num_to_string : num -> str.

Lemma fold_bump (l : list (ChittoorProject num)) (c : Counts) :
  count_pending (fold_left (fun c p => bump c (ap_status p)) l c)
  = count_pending c + length (filter (fun p => status_eqb (ap_status p) pending) l) /\
  count_approved (fold_left (fun c p => bump c (ap_status p)) l c)
  = count_approved c + length (filter (fun p => status_eqb (ap_status p) approved) l) /\
  count_rejected (fold_left (fun c p => bump c (ap_status p)) l c)
  = count_rejected c + length (filter (fun p => status_eqb (ap_status p) rejected) l).
Proof.
  revert c. induction l as [|p l IH]; intros c; simpl.
  - lia.
  - destruct (IH (bump c (ap_status p))) as [-> [-> ->]].
    destruct (ap_status p); simpl; lia.
Qed.

Lemma status_partition (l : list (ChittoorProject num)) :
  length (filter (fun p => status_eqb (ap_status p) pending) l)
  + length (filter (fun p => status_eqb (ap_status p) approved) l)
  + length (filter (fun p => status_eqb (ap_status p) rejected) l)
  = length l.
Proof.
  induction l as [|p l IH]; simpl; auto.
  destruct (ap_status p); simpl; lia.
Qed.

(** X20.  The number on every filter badge is the number of rows the
    filter shows, and the three status badges add up to the "All" badge. *)
Theorem badge_counts_rows (approvals : list (ChittoorProject num)) :
  (forall f, badge (statusCounts approvals) f = length (filteredApprovals approvals f)) /\
  count_pending (statusCounts approvals) + count_approved (statusCounts approvals)
  + count_rejected (statusCounts approvals)
  = count_all (statusCounts approvals).
Proof.
  unfold statusCounts.
  destruct (fold_bump approvals
              {| count_all := length approvals; count_pending := 0;
                 count_approved := 0; count_rejected := 0 |}) as [P [A R]].
  simpl in P, A, R. split.
  - intros [|[| |]]; simpl; auto.
  - simpl. rewrite P, A, R. apply status_partition.
Qed.

Lemma get_spread_object (a b : object num) (k : str) :
  NoDup (JsMap.keys b) ->
  JsMap.get (spread_object a b) k
  = match JsMap.get b k with
    | Some v => Some v
    | None => JsMap.get a k
    end.
Proof.
  unfold spread_object. revert a. induction b as [|[k0 v0] b IH]; intros a N; simpl; auto.
  inversion N as [|? ? Hk Hb]; subst. rewrite IH by assumption. rewrite get_set.
  destruct (str_eqb k0 k) eqn:E; auto.
  apply str_eqb_eq in E. subst k0.
  destruct (JsMap.get b k) as [v|] eqn:G; auto.
  exfalso. apply Hk. clear - G. induction b as [|[k1 v1] b IH]; simpl in *; [discriminate|].
  destruct (str_eqb k1 k) eqn:E; [apply str_eqb_eq in E; auto | auto].
Qed.

Lemma update_keeps_ids (n : ChittoorProject num) (prev : list (ChittoorProject num)) :
  map ap_id (map (fun p => if str_eqb (ap_id p) (ap_id n) then spread p n else p) prev)
  = map ap_id prev.
Proof.
  rewrite map_map. apply map_ext_in. intros p _.
  destruct (str_eqb (ap_id p) (ap_id n)) eqn:E; auto.
  apply str_eqb_eq in E. simpl. auto.
Qed.

(** X21.  An UPDATE event keeps the rows, their ids and their order: it
    replaces nothing but the rows with the id of the new row, which take
    the status of the new row and every column the new row has, and keep
    the columns it lacks. *)
Theorem realtime_update (n : ChittoorProject num) (prev : list (ChittoorProject num)) :
  map ap_id (applyRealtime (UPDATE n) prev) = map ap_id prev /\
  (forall i, nth_error prev i
             = None -> nth_error (applyRealtime (UPDATE n) prev) i = None) /\
  (forall i p, nth_error prev i = Some p -> ap_id p <> ap_id n ->
     nth_error (applyRealtime (UPDATE n) prev) i = Some p) /\
  (forall i p, nth_error prev i = Some p -> ap_id p = ap_id n ->
     exists q, nth_error (applyRealtime (UPDATE n) prev) i = Some q /\
               ap_id q = ap_id n /\ ap_status q = ap_status n /\
               (NoDup (JsMap.keys (ap_columns n)) ->
                forall k, prop (ap_columns q) k
                          = match JsMap.get (ap_columns n) k with
                            | Some v => v
                            | None => prop (ap_columns p) k
                            end)).
Proof.
  simpl. repeat split.
  - apply update_keeps_ids.
  - intros i H. rewrite nth_error_map, H. reflexivity.
  - intros i p H Hne. rewrite nth_error_map, H. simpl.
    apply str_eqb_neq in Hne. now rewrite Hne.
  - intros i p H E. exists (spread p n). rewrite nth_error_map, H. simpl.
    rewrite E, str_eqb_refl. repeat split.
    intros N k. unfold prop. simpl. rewrite get_spread_object by assumption.
    now destruct (JsMap.get (ap_columns n) k).
Qed.

Lemma filter_id_In (i : str) (prev : list (ChittoorProject num)) (p : ChittoorProject num) :
  In p (filter (fun p => negb (str_eqb (ap_id p) i)) prev) <-> In p prev /\ ap_id p <> i.
Proof.
  rewrite filter_In, negb_true_iff, str_eqb_neq. reflexivity.
Qed.

Lemma filter_id_absent (i : str) (prev : list (ChittoorProject num)) :
  ~ In i (map ap_id prev) ->
  filter (fun p => negb (str_eqb (ap_id p) i)) prev = prev.
Proof.
  induction prev as [|p prev IH]; simpl; intros H; auto.
  destruct (str_eqb (ap_id p) i) eqn:E.
  - apply str_eqb_eq in E. exfalso. auto.
  - simpl. f_equal. apply IH. tauto.
Qed.

Lemma filter_id_twice (i : str) (prev : list (ChittoorProject num)) :
  filter (fun p => negb (str_eqb (ap_id p) i))
    (filter (fun p => negb (str_eqb (ap_id p) i)) prev)
  = filter (fun p => negb (str_eqb (ap_id p) i)) prev.
Proof.
  induction prev as [|p prev IH]; simpl; auto.
  destruct (str_eqb (ap_id p) i) eqn:E; simpl; auto.
  rewrite E. simpl. now f_equal.
Qed.

(** X22.  A DELETE event removes exactly the rows with the deleted id and
    keeps the others in order: a row with another id stays, between what
    is kept of the rows before it and what is kept of the rows after it,
    and when one row holds the deleted id the result is the list without
    that row.  For an id that is not in the list the event changes
    nothing.  It undoes the INSERT of a row with a new id, and it is
    harmless after the local removal done by the delete button: the echo
    of one's own delete leaves the list as the button left it. *)
Theorem realtime_delete (i : str) (n : ChittoorProject num)
    (prev : list (ChittoorProject num)) :
  (forall p, In p (applyRealtime (DELETE i) prev) <-> In p prev /\ ap_id p <> i) /\
  (forall l1 p l2, prev = l1 ++ p :: l2 -> ap_id p <> i ->
     applyRealtime (DELETE i) prev
     = applyRealtime (DELETE i) l1 ++ p :: applyRealtime (DELETE i) l2) /\
  (forall l1 p l2, prev = l1 ++ p :: l2 -> ap_id p = i ->
     ~ In i (map ap_id l1) -> ~ In i (map ap_id l2) ->
     applyRealtime (DELETE i) prev = l1 ++ l2) /\
  (~ In i (map ap_id prev) -> applyRealtime (DELETE i) prev = prev) /\
  (~ In (ap_id n) (map ap_id prev) ->
   applyRealtime (DELETE (ap_id n)) (applyRealtime (INSERT n) prev) = prev) /\
  applyRealtime (DELETE i) (removeApproval i prev) = removeApproval i prev.
Proof.
  simpl. unfold removeApproval. split; [|split; [|split; [|split; [|split]]]].
  - intros p. apply filter_id_In.
  - intros l1 p l2 -> Hp. rewrite filter_app. simpl.
    apply str_eqb_neq in Hp. now rewrite Hp.
  - intros l1 p l2 -> Hp N1 N2. rewrite filter_app. simpl.
    rewrite Hp, str_eqb_refl. simpl.
    now rewrite (filter_id_absent i l1 N1), (filter_id_absent i l2 N2).
  - apply filter_id_absent.
  - intros H. rewrite str_eqb_refl. simpl. now apply filter_id_absent.
  - apply filter_id_twice.
Qed.

Lemma distinct_ids_step (payload : RealtimePayload num)
    (prev : list (ChittoorProject num)) :
  NoDup (map ap_id prev) ->
  match payload with
  | INSERT n => ~ In (ap_id n) (map ap_id prev)
  | _ => True
  end ->
  NoDup (map ap_id (applyRealtime payload prev)).
Proof.
  intros N F. destruct payload as [n|n|i|]; simpl.
  - now constructor.
  - now rewrite update_keeps_ids.
  - clear F. induction prev as [|p prev IH]; simpl; auto.
    inversion N as [|? ? Hp Hn]; subst.
    destruct (str_eqb (ap_id p) i); simpl; auto.
    constructor; auto. intros H. apply Hp.
    apply in_map_iff in H as [q [E Hq]]. apply filter_In in Hq as [Hq _].
    rewrite <- E. now apply in_map.
  - exact N.
Qed.

(** X23.  The ids of the list stay distinct under any sequence of realtime
    changes in which every INSERT brings an id that the list does not hold
    at that moment; UPDATE and DELETE never create a duplicate.  The reducer
    itself does not look for the id of an inserted row: inserted twice, a
    row stands twice in the list. *)
Theorem realtime_keeps_distinct_ids (payloads : list (RealtimePayload num))
    (prev : list (ChittoorProject num)) :
  (NoDup (map ap_id prev) -> inserts_fresh payloads prev ->
   NoDup (map ap_id (applyAll payloads prev))) /\
  (forall n, In (ap_id n) (map ap_id prev) ->
     ~ NoDup (map ap_id (applyRealtime (INSERT n) prev))).
Proof.
  split.
  - unfold applyAll. revert prev. induction payloads as [|e es IH]; intros prev N F; simpl; auto.
    destruct F as [F1 F2]. apply IH; auto.
    now apply distinct_ids_step.
  - intros n H N. simpl in N. inversion N. contradiction.
Qed.

(** ** Lookups in a project record *)

Lemma pickFirstValue_app (project : object num) (ks1 ks2 : list str) :
  pickFirstValue project (ks1 ++ ks2)
  = if usable (pickFirstValue project ks1) then pickFirstValue project ks1
    else pickFirstValue project ks2.
Proof.
  induction ks1 as [|k ks1 IH]; simpl; auto.
  destruct (usable (prop project k)) eqn:E; auto. now rewrite E.
Qed.

Lemma pickFirstValue_none (project : object num) (keys : list str) :
  (forall k, In k keys -> usable (prop project k) = false) ->
  pickFirstValue project keys = VUndefined.
Proof.
  induction keys as [|k keys IH]; simpl; intros H; auto.
  rewrite (H k) by now left. apply IH. intros k' Hk. apply H. now right.
Qed.

(** X24.  [pickFirstValue] gives the value of the first key of the list
    whose field is neither undefined, null nor the empty string, and
    undefined exactly when no key has such a field; it never gives null or
    the empty string.  Looking through two lists one after the other is
    looking through their concatenation. *)
Theorem pickFirstValue_first_usable (project : object num) (keys : list str) :
  (pickFirstValue project keys = VUndefined <->
   forall k, In k keys -> usable (prop project k) = false) /\
  (forall ks1 k ks2, keys = ks1 ++ k :: ks2 ->
     (forall k', In k' ks1 -> usable (prop project k') = false) ->
     usable (prop project k) = true ->
     pickFirstValue project keys = prop project k) /\
  (usable (pickFirstValue project keys) = true \/ pickFirstValue project keys = VUndefined) /\
  (forall ks1 ks2, keys = ks1 ++ ks2 ->
     pickFirstValue project keys
     = match pickFirstValue project ks1 with
       | VUndefined => pickFirstValue project ks2
       | v => v
       end).
Proof.
  assert (U : forall ks, usable (pickFirstValue project ks) = true
                         \/ pickFirstValue project ks = VUndefined).
  { induction ks as [|k ks IH]; simpl; auto.
    destruct (usable (prop project k)) eqn:E; auto. }
  split; [|split; [|split]].
  - split.
    + induction keys as [|k keys IH]; simpl; intros H k' Hk; [contradiction|].
      destruct (usable (prop project k)) eqn:E.
      * rewrite H in E. discriminate.
      * destruct Hk as [<-|Hk]; auto.
    + apply pickFirstValue_none.
  - intros ks1 k ks2 -> H1 Hk. rewrite pickFirstValue_app.
    rewrite (pickFirstValue_none project ks1 H1). simpl. now rewrite Hk.
  - apply U.
  - intros ks1 ks2 ->. rewrite pickFirstValue_app.
    destruct (U ks1) as [H|H]; rewrite H; auto.
    destruct (pickFirstValue project ks1); auto; discriminate.
Qed.

Lemma pickFirstValue_source (project : object num) (keys : list str) :
  pickFirstValue project keys = VUndefined \/
  exists k, In k keys /\ pickFirstValue project keys = prop project k /\
            usable (prop project k) = true.
Proof.
  induction keys as [|k keys IH]; simpl; auto.
  destruct (usable (prop project k)) eqn:E.
  - right. exists k. auto.
  - destruct IH as [H|[k' [H1 [H2 H3]]]]; auto. right. exists k'. auto.
Qed.

Lemma words_disjoint (n : str) :
  includes_str activeWords n = true -> includes_str completedWords n = false.
Proof.
  unfold includes_str, activeWords. simpl existsb. rewrite !orb_true_iff, !str_eqb_eq.
  intros H. repeat (destruct H as [H|H]; [subst n; reflexivity|]). discriminate.
Qed.

(** X25.  [deriveProjectStatus] throws exactly when the first usable
    status field of the record is a truthy value that is not a string (a
    non-zero number, [true], an object): the code then calls [trim] on it.
    A record whose status fields are strings, null or absent always gets a
    status. *)
Theorem deriveProjectStatus_throws (project : object num) :
  (deriveProjectStatus num_is_zero num_is_nan project = Throw <->
   truthy_value num_is_zero num_is_nan (pickFirstValue project statusKeys) = true /\
   forall s, pickFirstValue project statusKeys <> VStr s) /\
  ((forall k, In k statusKeys ->
      match prop project k with
      | VStr _ | VUndefined | VNull => True
      | _ => False
      end) ->
   exists d, deriveProjectStatus num_is_zero num_is_nan project = Ok d).
Proof.
  split.
  - unfold deriveProjectStatus.
    destruct (pickFirstValue project statusKeys) as [| |b|n|s|t] eqn:P; cbn [truthy_value].
    + split; [discriminate | intros [H _]; discriminate].
    + split; [discriminate | intros [H _]; discriminate].
    + destruct b.
      * split; [intros _; split; [reflexivity | intros s; discriminate] | reflexivity].
      * split; [discriminate | intros [H _]; discriminate].
    + destruct (negb (num_is_zero n || num_is_nan n)).
      * split; [intros _; split; [reflexivity | intros s; discriminate] | reflexivity].
      * split; [discriminate | intros [H _]; discriminate].
    + destruct (truthy s).
      * split.
        -- destruct (includes_str completedWords (toLowerCase (trim s))); [discriminate|].
           destruct (includes_str activeWords (toLowerCase (trim s))); discriminate.
        -- intros [_ H]. now contradiction (H s).
      * split; [discriminate | intros [H _]; discriminate].
    + split; [intros _; split; [reflexivity | intros s; discriminate] | reflexivity].
  - intros H. unfold deriveProjectStatus.
    destruct (pickFirstValue_source project statusKeys) as [E|[k [Hk [E U]]]].
    + rewrite E. simpl. eauto.
    + rewrite E. specialize (H k Hk).
      destruct (prop project k) as [| |b|n|s|t]; try contradiction;
        cbn [truthy_value]; eauto.
      destruct (truthy s); eauto.
      destruct (includes_str completedWords (toLowerCase (trim s))); eauto.
      destruct (includes_str activeWords (toLowerCase (trim s))); eauto.
Qed.

(** X26.  A status text decides before the flags, and it is read up to
    letter case and surrounding white space: a text that is one of the
    completed words gives completed and one of the active words gives
    active whatever the flags say; any other text leaves the decision to
    the flags.  Two records get the same status when their status texts
    agree after trimming and lower-casing and their flags give the same. *)
Theorem status_text_before_flags (project : object num) (s : str) :
  pickFirstValue project statusKeys = VStr s ->
  (includes_str completedWords (toLowerCase (trim s)) = true ->
   deriveProjectStatus num_is_zero num_is_nan project = Ok completed) /\
  (includes_str activeWords (toLowerCase (trim s)) = true ->
   deriveProjectStatus num_is_zero num_is_nan project = Ok active) /\
  (includes_str completedWords (toLowerCase (trim s)) = false ->
   includes_str activeWords (toLowerCase (trim s)) = false ->
   deriveProjectStatus num_is_zero num_is_nan project
   = Ok (statusFromFlags num_is_zero project)) /\
  (forall project' s',
     pickFirstValue project' statusKeys = VStr s' ->
     toLowerCase (trim s') = toLowerCase (trim s) ->
     statusFromFlags num_is_zero project' = statusFromFlags num_is_zero project ->
     deriveProjectStatus num_is_zero num_is_nan project'
     = deriveProjectStatus num_is_zero num_is_nan project).
Proof.
  intros P.
  assert (T : forall (p : object num) x,
             pickFirstValue p statusKeys = VStr x -> truthy x = true).
  { intros p x Hx. destruct (pickFirstValue_source p statusKeys) as [E|[k [_ [E U]]]].
    - rewrite E in Hx. discriminate.
    - rewrite <- E, Hx in U. exact U. }
  assert (D : forall (p : object num) x, pickFirstValue p statusKeys = VStr x ->
                deriveProjectStatus num_is_zero num_is_nan p
                = if includes_str completedWords (toLowerCase (trim x)) then Ok completed
                  else if includes_str activeWords (toLowerCase (trim x)) then Ok active
                  else Ok (statusFromFlags num_is_zero p)).
  { intros p x Hx. unfold deriveProjectStatus. rewrite Hx. simpl. now rewrite (T p x Hx). }
  rewrite (D project s P). split; [|split; [|split]].
  - intros H. now rewrite H.
  - intros H. now rewrite (words_disjoint _ H), H.
  - intros H1 H2. now rewrite H1, H2.
  - intros project' s' P' E F. now rewrite (D project' s' P'), E, F.
Qed.

Lemma derives_exclusive (project : object num) :
  derives num_is_zero num_is_nan active project
  && derives num_is_zero num_is_nan completed project = false.
Proof.
  unfold derives.
  now destruct (deriveProjectStatus num_is_zero num_is_nan project) as [[| |]|].
Qed.

Lemma summarize_counts (projects : list (object num)) :
  forall act comp,
    (summarize num_is_zero num_is_nan projects act comp = Throw <->
     exists p, In p projects /\ deriveProjectStatus num_is_zero num_is_nan p = Throw) /\
    (forall a c, summarize num_is_zero num_is_nan projects act comp = Ok (a, c) ->
       a = act + length (filter (derives num_is_zero num_is_nan active) projects) /\
       c = comp + length (filter (derives num_is_zero num_is_nan completed) projects)).
Proof.
  induction projects as [|p ps IH]; intros act comp.
  - simpl. split.
    + split; [discriminate | intros [p [[] _]]].
    + intros a c H. inversion H. lia.
  - cbn [summarize].
    destruct (deriveProjectStatus num_is_zero num_is_nan p) as [d|] eqn:E; cbn [bind].
    + assert (X : forall a' c',
                 (summarize num_is_zero num_is_nan ps a' c' = Throw <->
                  exists q, In q (p :: ps)
                            /\ deriveProjectStatus num_is_zero num_is_nan q = Throw)).
      { intros a' c'. rewrite (proj1 (IH a' c')). split.
        - intros [q [Hq Tq]]. exists q. split; [now right | exact Tq].
        - intros [q [[<-|Hq] Tq]]; [congruence | eauto]. }
      assert (DA : derives num_is_zero num_is_nan active p
                   = match d with active => true | _ => false end)
        by (unfold derives; rewrite E; now destruct d).
      assert (DC : derives num_is_zero num_is_nan completed p
                   = match d with completed => true | _ => false end)
        by (unfold derives; rewrite E; now destruct d).
      split; [destruct d; apply X|]. intros a c H. cbn [filter]. rewrite DA, DC.
      destruct d; apply (proj2 (IH _ _)) in H as [-> ->]; simpl; lia.
    + split.
      * split; [|reflexivity]. intros _. exists p. split; [now left | exact E].
      * intros a c H. discriminate.
Qed.

Lemma filter_pair_length {A : Type} (f g : A -> bool) (l : list A) :
  (forall x, f x && g x = false) ->
  length (filter f l) + length (filter g l) <= length l.
Proof.
  intros H. induction l as [|x l IH]; simpl; auto.
  specialize (H x). destruct (f x), (g x); simpl in *; try discriminate; lia.
Qed.

(** X27.  The summary of the projects tab throws exactly when the status
    of one of the records cannot be derived.  Otherwise its total is the
    number of records, its active and completed counts are the numbers of
    records derived so, and the two together never exceed the total. *)
Theorem projectsSummary_counts (projects : list (object num)) :
  (projectsSummary num_is_zero num_is_nan projects = Throw <->
   exists p, In p projects /\ deriveProjectStatus num_is_zero num_is_nan p = Throw) /\
  (forall total act comp,
     projectsSummary num_is_zero num_is_nan projects = Ok (total, act, comp) ->
     total = length projects /\
     act = length (filter (derives num_is_zero num_is_nan active) projects) /\
     comp = length (filter (derives num_is_zero num_is_nan completed) projects) /\
     act + comp <= total).
Proof.
  unfold projectsSummary. destruct (summarize_counts projects 0 0) as [T C]. split.
  - rewrite <- T. destruct (summarize num_is_zero num_is_nan projects 0 0) as [[a c]|];
      simpl; split; auto; discriminate.
  - intros total act comp H.
    destruct (summarize num_is_zero num_is_nan projects 0 0) as [[a c]|]; [|discriminate].
    simpl in H. inversion H; subst. destruct (C act comp eq_refl) as [-> ->]. simpl.
    repeat split; auto. apply filter_pair_length. apply derives_exclusive.
Qed.

(** ** Selection of a project *)

Lemma find_by_id (projects : list (object num)) (i : str) :
  existsb (fun p => str_eqb (getProjectId num_to_string p) i) projects = true ->
  exists p, find (fun p => str_eqb (getProjectId num_to_string p) i) projects = Some p /\
            In p projects /\ getProjectId num_to_string p = i.
Proof.
  intros H. apply existsb_exists in H as [q [Hq E]].
  destruct (find (fun p => str_eqb (getProjectId num_to_string p) i) projects) as [p|] eqn:F.
  - exists p. apply find_some in F as [F1 F2]. apply str_eqb_eq in F2. auto.
  - rewrite (find_none _ _ F q Hq) in E. discriminate.
Qed.

(** X28.  The selection effect settles in one run, and after it the
    selection names a record of the list: with no records the selection
    and the selected project are null; with records the selected project
    is a record of the list whose id is the selection, so the details
    panel always has a record to show. *)
Theorem selection_names_a_project (projects : list (object num))
    (selectedProjectId : option str) :
  selectionEffect num_to_string projects
    (selectionEffect num_to_string projects selectedProjectId)
  = selectionEffect num_to_string projects selectedProjectId /\
  (projects = [] ->
   selectionEffect num_to_string projects selectedProjectId = None /\
   selectedProject num_to_string projects
     (selectionEffect num_to_string projects selectedProjectId) = None) /\
  (projects <> [] ->
   exists p,
     selectedProject num_to_string projects
       (selectionEffect num_to_string projects selectedProjectId) = Some p /\
     In p projects /\
     selectionEffect num_to_string projects selectedProjectId
     = Some (getProjectId num_to_string p)).
Proof.
  destruct projects as [|first rest].
  - simpl. repeat split; auto. intros H. now contradiction H.
  - assert (F : existsb (fun p => str_eqb (getProjectId num_to_string p)
                                    (getProjectId num_to_string first)) (first :: rest) = true).
    { simpl. now rewrite str_eqb_refl. }
    assert (K : forall sel,
               selectionEffect num_to_string (first :: rest) (Some sel) = Some sel ->
               selectionEffect num_to_string (first :: rest) (Some sel) = Some sel ->
               True) by auto.
    clear K.
    assert (S : exists t,
               selectionEffect num_to_string (first :: rest) selectedProjectId = Some t /\
               existsb (fun p => str_eqb (getProjectId num_to_string p) t) (first :: rest)
               = true /\
               (truthy t = true \/ t = getProjectId num_to_string first)).
    { unfold selectionEffect. destruct selectedProjectId as [sel|].
      - destruct (truthy sel) eqn:Ts; cbn [negb orb].
        + destruct (existsb (fun p => str_eqb (getProjectId num_to_string p) sel)
                      (first :: rest)) eqn:Ex; cbn [negb].
          * exists sel. auto.
          * exists (getProjectId num_to_string first). auto.
        + exists (getProjectId num_to_string first). auto.
      - exists (getProjectId num_to_string first). auto. }
    destruct S as [t [E [Ex Tt]]]. rewrite E. split; [|split].
    + unfold selectionEffect. rewrite Ex. cbn [negb].
      destruct Tt as [Tt| ->].
      * now rewrite Tt.
      * now destruct (truthy (getProjectId num_to_string first)).
    + discriminate.
    + intros _. unfold selectedProject.
      destruct (find_by_id (first :: rest) t Ex) as [p [Fp [Hp Ip]]].
      exists p. rewrite Fp, Ip. auto.
Qed.

End DashboardFacts.

(** Runs on sample rows and records, with integers for numbers. *)

Lemma realtime_update_witness :
  nth_error
    (applyRealtime (UPDATE (approval "a1" approved))
       [approval "a2" pending; approval "a1" pending]) 0
  = Some (approval "a2" pending).
Proof.
  apply (proj1 (proj2 (proj2 (realtime_update Z (approval "a1" approved)
                                [approval "a2" pending; approval "a1" pending])))
           0 (approval "a2" pending)).
  - reflexivity.
  - discriminate.
Defined.

Lemma realtime_delete_witness :
  applyRealtime (DELETE (lit "a2"))
    [approval "a1" approved; approval "a2" pending; approval "a3" rejected]
  = [approval "a1" approved; approval "a3" rejected] /\
  applyRealtime (DELETE (ap_id (approval "a3" pending)))
    (applyRealtime (INSERT (approval "a3" pending))
       [approval "a2" pending; approval "a1" approved])
  = [approval "a2" pending; approval "a1" approved].
Proof.
  split.
  - apply (proj1 (proj2 (proj2 (realtime_delete Z (lit "a2") (approval "a3" pending)
                                  [approval "a1" approved; approval "a2" pending;
                                   approval "a3" rejected])))
             [approval "a1" approved] (approval "a2" pending) [approval "a3" rejected]).
    + reflexivity.
    + reflexivity.
    + simpl. intuition discriminate.
    + simpl. intuition discriminate.
  - apply (proj1 (proj2 (proj2 (proj2 (proj2 (realtime_delete Z (lit "a3")
                                  (approval "a3" pending)
                                  [approval "a2" pending; approval "a1" approved])))))).
    simpl. intuition discriminate.
Defined.

Lemma realtime_keeps_distinct_ids_witness :
  NoDup (map ap_id
           (applyAll [INSERT (approval "a3" pending); UPDATE (approval "a1" rejected);
                      DELETE (lit "a2")]
              [approval "a2" pending; approval "a1" approved])).
Proof.
  apply (proj1 (realtime_keeps_distinct_ids Z
                  [INSERT (approval "a3" pending); UPDATE (approval "a1" rejected);
                   DELETE (lit "a2")]
                  [approval "a2" pending; approval "a1" approved])).
  - repeat constructor; simpl; intuition discriminate.
  - simpl. intuition discriminate.
Defined.

Lemma pickFirstValue_first_usable_witness :
  pickFirstValue project_flagged [lit "is_completed"; lit "completed"; lit "is_active"]
  = prop project_flagged (lit "is_active").
Proof.
  apply (proj1 (proj2 (pickFirstValue_first_usable Z project_flagged
                         [lit "is_completed"; lit "completed"; lit "is_active"]))
           [lit "is_completed"; lit "completed"] (lit "is_active") []).
  - reflexivity.
  - intros k [<-|[<-|[]]]; reflexivity.
  - reflexivity.
Defined.

Lemma deriveProjectStatus_throws_witness :
  deriveProjectStatus z_is_zero z_is_nan project_broken = Throw.
Proof.
  apply (proj1 (deriveProjectStatus_throws Z z_is_zero z_is_nan project_broken)).
  split; [reflexivity | intros s; discriminate].
Defined.

Lemma status_text_before_flags_witness :
  deriveProjectStatus z_is_zero z_is_nan project_done = Ok completed.
Proof.
  apply (proj1 (status_text_before_flags Z z_is_zero z_is_nan project_done (lit " Done ")
                  eq_refl)).
  reflexivity.
Defined.

Lemma projectsSummary_counts_witness :
  3 = length [project_done; project_flagged; project_flagged] /\
  2 = length (filter (derives z_is_zero z_is_nan active)
                [project_done; project_flagged; project_flagged]) /\
  1 = length (filter (derives z_is_zero z_is_nan completed)
                [project_done; project_flagged; project_flagged]) /\
  2 + 1 <= 3.
Proof.
  apply (proj2 (projectsSummary_counts Z z_is_zero z_is_nan
                  [project_done; project_flagged; project_flagged]) 3 2 1).
  reflexivity.
Defined.

Lemma selection_names_a_project_witness :
  exists p,
    selectedProject z_to_string [project_done; project_flagged]
      (selectionEffect z_to_string [project_done; project_flagged] (Some (lit "gone")))
    = Some p /\
    In p [project_done; project_flagged] /\
    selectionEffect z_to_string [project_done; project_flagged] (Some (lit "gone"))
    = Some (getProjectId z_to_string p).
Proof.
  apply (proj2 (proj2 (selection_names_a_project Z z_to_string
                         [project_done; project_flagged] (Some (lit "gone"))))).
  discriminate.
Defined.

Example dashboard_runs :
  getProjectId z_to_string project_done = lit "7" /\
  selectionEffect z_to_string [project_done; project_flagged] (Some (lit "gone"))
  = Some (lit "7") /\
  deriveProjectStatus z_is_zero z_is_nan project_flagged = Ok active /\
  projectsSummary z_is_zero z_is_nan [project_done; project_broken] = Throw /\
  badge (statusCounts [approval "a1" approved; approval "a2" pending; approval "a3" approved])
    (FilterStatus approved) = 2.
Proof. repeat split. Qed.
